(** * The SQP iteration engine of casadi/solvers/sqpmethod.cpp

    A shallow embedding of [Sqpmethod::evalD] and of the helpers it calls
    ([primalInfeasibility], [getRegularization], [regularize], the BFGS
    update built in [Sqpmethod::init]), with the properties of the design
    document stated and proved over it.

    The source computes with C++ [double]s.  The embedding is written once,
    over an interface [Scalar] that lists the operations the source applies
    to a [double], and is read at three instances:
    - [Q_scalar]: exact rational arithmetic, the idealisation in which the
      order and arithmetic properties are proved;
    - [xQ_scalar]: exact rationals with one extra value standing for a
      non-finite result (division by zero yields it, every operation
      propagates it);
    - [float_scalar]: IEEE 754 binary64, Rocq's primitive floats. *)

From Stdlib Require Import List ZArith QArith Qabs Qminmax Lia Lqa Bool Floats Uint63.
From Stdlib Require String.
Import String.StringSyntax.
Delimit Scope string_scope with string.
Import ListNotations.

Set Implicit Arguments.

(** ** Scalars *)

Declare Scope scalar_scope.
Delimit Scope scalar_scope with S.

Class Scalar (R : Type) : Type := {
  s0 : R;                       (* the literal 0 *)
  s1 : R;                       (* the literal 1 *)
  slit : Q -> R;                (* a decimal literal such as 1.01 *)
  sadd : R -> R -> R;
  ssub : R -> R -> R;
  smul : R -> R -> R;
  sdiv : R -> R -> R;
  sopp : R -> R;                (* unary minus *)
  sltb : R -> R -> bool;        (* operator< *)
  sleb : R -> R -> bool;        (* operator<= *)
  fabs : R -> R;                (* fabs of <cmath> *)
  fmin : R -> R -> R            (* fmin of <cmath> *)
}.

Infix "+" := sadd : scalar_scope.
Infix "-" := ssub : scalar_scope.
Infix "*" := smul : scalar_scope.
Infix "/" := sdiv : scalar_scope.
Infix "<?" := sltb : scalar_scope.
Infix "<=?" := sleb : scalar_scope.

(** [std::max(a, b)] is [(a < b) ? b : a]. *)
Definition std_max {R} `{Scalar R} (a b : R) : R :=
  if (a <? b)%S then b else a.

(** Exact rationals: the arithmetic of the source without rounding,
    overflow or non-finite values.  A theorem at this instance is a
    statement about the algorithm in exact arithmetic; where it is an
    equality or a tight inequality between computed values it says so,
    and it is not claimed of the rounded binary64 results.  [Qdiv] is
    total ([x / 0 = 0]); no property below is drawn from a division by
    zero at this instance. *)
#[export] Instance Q_scalar : Scalar Q := {|
  s0 := 0%Q;
  s1 := 1%Q;
  slit := fun q => q;
  sadd := Qplus;
  ssub := Qminus;
  smul := Qmult;
  sdiv := Qdiv;
  sopp := Qopp;
  sltb := fun a b => negb (Qle_bool b a);
  sleb := Qle_bool;
  fabs := Qabs;
  fmin := fun a b => if Qle_bool a b then a else b
|}.

(** Rationals with a non-finite value: [None] stands for the results a
    [double] computation gives outside the finite numbers. *)
Definition xQ : Type := option Q.

Definition xlift2 (f : Q -> Q -> Q) (a b : xQ) : xQ :=
  match a, b with
  | Some p, Some q => Some (f p q)
  | _, _ => None
  end.

Definition xdiv (a b : xQ) : xQ :=
  match a, b with
  | Some p, Some q => if Qeq_bool q 0 then None else Some (Qdiv p q)
  | _, _ => None
  end.

Definition xcmp (f : Q -> Q -> bool) (a b : xQ) : bool :=
  match a, b with
  | Some p, Some q => f p q
  | _, _ => false
  end.

Definition xfmin (a b : xQ) : xQ :=
  match a, b with
  | Some p, Some q => Some (if Qle_bool p q then p else q)
  | Some p, None => Some p
  | None, b' => b'
  end.

#[export] Instance xQ_scalar : Scalar xQ := {|
  s0 := Some 0%Q;
  s1 := Some 1%Q;
  slit := fun q => Some q;
  sadd := xlift2 Qplus;
  ssub := xlift2 Qminus;
  smul := xlift2 Qmult;
  sdiv := xdiv;
  sopp := option_map Qopp;
  sltb := xcmp (fun a b => negb (Qle_bool b a));
  sleb := xcmp Qle_bool;
  fabs := option_map Qabs;
  fmin := xfmin
|}.

(** IEEE 754 binary64. A decimal literal is the correctly rounded quotient
    of its numerator and denominator, both exactly representable for the
    literals of the source. *)
Definition float_of_Z (z : Z) : float :=
  match z with
  | Z0 => PrimFloat.zero
  | Zpos _ => PrimFloat.of_uint63 (Uint63.of_Z z)
  | Zneg p => PrimFloat.opp (PrimFloat.of_uint63 (Uint63.of_Z (Zpos p)))
  end.

Definition float_of_Q (q : Q) : float :=
  PrimFloat.div (float_of_Z (Qnum q)) (float_of_Z (Zpos (Qden q))).

Definition float_fmin (a b : float) : float :=
  if PrimFloat.is_nan a then b
  else if PrimFloat.is_nan b then a
  else if PrimFloat.ltb b a then b else a.

#[export] Instance float_scalar : Scalar float := {|
  s0 := PrimFloat.zero;
  s1 := PrimFloat.one;
  slit := float_of_Q;
  sadd := PrimFloat.add;
  ssub := PrimFloat.sub;
  smul := PrimFloat.mul;
  sdiv := PrimFloat.div;
  sopp := PrimFloat.opp;
  sltb := PrimFloat.ltb;
  sleb := PrimFloat.leb;
  fabs := PrimFloat.abs;
  fmin := float_fmin
|}.

(** ** Vectors and loops

    A [std::vector<double>] is a list.  [v[i]] is [v.[i]]; the source never
    checks an index, and a read outside the vector (undefined in C++) reads
    [s0] here.  A [for] loop over an index range is a left fold over the
    range. *)

Definition for_range {St : Type} (a b : nat) (body : nat -> St -> St) (s : St) : St :=
  fold_left (fun s i => body i s) (seq a (b - a)) s.

Fixpoint upd {A : Type} (i : nat) (a : A) (v : list A) : list A :=
  match v, i with
  | [], _ => []
  | _ :: v', O => a :: v'
  | b :: v', S i' => b :: upd i' a v'
  end.

(** [std::copy(src.begin(), src.end(), dst.begin())]. *)
Definition std_copy {A : Type} (src dst : list A) : list A :=
  src ++ skipn (length src) dst.

(** [std::transform(a.begin(), a.end(), b.begin(), out.begin(), op)]. *)
Fixpoint zip_with {A B C : Type} (op : A -> B -> C) (a : list A) (b : list B) : list C :=
  match a, b with
  | p :: a', q :: b' => op p q :: zip_with op a' b'
  | _, _ => []
  end.

Definition std_transform {A B C : Type} (op : A -> B -> C) (a : list A) (b : list B)
    (out : list C) : list C :=
  std_copy (zip_with op a b) out.

Section Numerics.
Context {R : Type} `{Scalar R}.
Local Open Scope scalar_scope.

Definition vec : Type := list R.

Definition get (v : vec) (i : nat) : R := nth i v s0.
Local Notation "v .[ i ]" := (get v i) (at level 1, left associativity, format "v .[ i ]").

(** Modelled from the spec: [norm_inf] and [inner_prod] are defined in the
    core library of CasADi, outside the files verified here; they are the
    infinity norm and the inner product of the design document. *)
Definition norm_inf (v : vec) : R :=
  fold_left (fun r a => std_max r (fabs a)) v s0.

Definition inner_prod (a b : vec) : R :=
  fold_left sadd (zip_with smul a b) s0.

(** [Sqpmethod::primalInfeasibility]. *)
Definition primalInfeasibility (x lbx ubx g lbg ubg : vec) : R :=
  let pr_inf := s0 in
  let pr_inf :=
    for_range 0 (length x) (fun j pr_inf =>
      let pr_inf := std_max pr_inf (lbx.[j] - x.[j]) in
      std_max pr_inf (x.[j] - ubx.[j])) pr_inf in
  let pr_inf :=
    for_range 0 (length g) (fun j pr_inf =>
      let pr_inf := std_max pr_inf (lbg.[j] - g.[j]) in
      std_max pr_inf (g.[j] - ubg.[j])) pr_inf in
  pr_inf.

(** ** Sparse matrices

    [Matrix<double>] in compressed column storage: column [cc] owns the
    nonzeros [colind[cc] .. colind[cc+1]-1]; nonzero [el] lies in row
    [row[el]] and has the value [data[el]]. *)

Record Sparsity : Type := {
  size1 : nat;
  size2 : nat;
  colind : list nat;
  row : list nat
}.

Record DMatrix : Type := {
  sparsity : Sparsity;
  data : vec
}.

Definition colind_at (H : DMatrix) (cc : nat) : nat := nth cc (colind (sparsity H)) 0%nat.
Definition row_at (H : DMatrix) (el : nat) : nat := nth el (row (sparsity H)) 0%nat.

(** [Sqpmethod::getRegularization]. *)
Definition getRegularization (H : DMatrix) : R :=
  let ncol := size2 (sparsity H) in
  let reg_param := s0 in
  let reg_param :=
    for_range 0 ncol (fun cc reg_param =>
      let mineig := s0 in
      let mineig :=
        for_range (colind_at H cc) (colind_at H (cc + 1)) (fun el mineig =>
          let rr := row_at H el in
          if Nat.eqb rr cc then mineig + (data H).[el]
          else mineig - fabs (data H).[el]) mineig in
      fmin reg_param mineig) reg_param in
  sopp reg_param.

(** [Sqpmethod::regularize]. *)
Definition regularize (H : DMatrix) (reg : R) : DMatrix :=
  let ncol := size2 (sparsity H) in
  let data' :=
    for_range 0 ncol (fun cc data =>
      for_range (colind_at H cc) (colind_at H (cc + 1)) (fun el data =>
        let rr := row_at H el in
        if Nat.eqb rr cc then upd el (data.[el] + reg) data else data) data)
      (data H) in
  {| sparsity := sparsity H; data := data' |}.


(** ** Dense kernels used by the iteration

    Modelled from the spec: [casadi_mv_t] (runtime) and the symbolic [mul]
    are defined outside the files verified here.  [mv_t] adds [A^T y] to
    [z]; [mv] is the product [A y] of the design document's [qk = B sk]. *)
Definition mv_t (A : DMatrix) (y z : vec) : vec :=
  for_range 0 (size2 (sparsity A)) (fun cc z =>
    for_range (colind_at A cc) (colind_at A (cc + 1)) (fun el z =>
      upd cc (z.[cc] + (data A).[el] * y.[row_at A el]) z) z) z.

Definition mv (A : DMatrix) (y : vec) : vec :=
  for_range 0 (size2 (sparsity A)) (fun cc z =>
    for_range (colind_at A cc) (colind_at A (cc + 1)) (fun el z =>
      upd (row_at A el) (z.[row_at A el] + (data A).[el] * y.[cc]) z) z)
    (repeat s0 (size1 (sparsity A))).

(** The function [bfgs_] built in [Sqpmethod::init]: the expression
    [Bk + theta * mul(yk, yk.T()) - phi * mul(qk, qk.T())], evaluated at the
    nonzeros of [Bk] (whose pattern is dense in this mode). The expression
    has no branch on [sk]; [if_else] selects one of two evaluated values. *)
Definition bfgs (Bk : DMatrix) (x x_old gLag gLag_old : vec) : DMatrix :=
  let sk := zip_with ssub x x_old in
  let yk := zip_with ssub gLag gLag_old in
  let qk := mv Bk sk in
  let skBksk := inner_prod sk qk in
  let omega :=
    if inner_prod yk sk <? slit (2 # 10) * inner_prod sk qk
    then slit (8 # 10) * skBksk / (skBksk - inner_prod sk yk)
    else s1 in
  let yk := zip_with sadd (map (smul omega) yk) (map (smul (s1 - omega)) qk) in
  let theta := s1 / inner_prod sk yk in
  let phi := s1 / inner_prod qk sk in
  let Bk_new :=
    for_range 0 (size2 (sparsity Bk)) (fun cc d =>
      for_range (colind_at Bk cc) (colind_at Bk (cc + 1)) (fun el d =>
        let rr := row_at Bk el in
        upd el ((data Bk).[el] + theta * (yk.[rr] * yk.[cc])
                - phi * (qk.[rr] * qk.[cc])) d) d)
      (data Bk) in
  {| sparsity := sparsity Bk; data := Bk_new |}.

(** The reset of [evalD]: every off-diagonal nonzero is set to zero. *)
Definition drop_off_diagonal (Bk : DMatrix) : DMatrix :=
  let ncol := size2 (sparsity Bk) in
  let data' :=
    for_range 0 ncol (fun cc data =>
      for_range (colind_at Bk cc) (colind_at Bk (cc + 1)) (fun el data =>
        if negb (Nat.eqb cc (row_at Bk el)) then upd el s0 data else data) data)
      (data Bk) in
  {| sparsity := sparsity Bk; data := data' |}.

(** Modelled from the spec: [Matrix::set] is defined outside the files
    verified here.  [Bk_.set(B_init_)] with [B_init_ = DMatrix::eye(nx_)]
    stores the identity, the seed of the design document, in the pattern
    of [Bk_]. *)
Definition set_eye (Bk : DMatrix) : DMatrix :=
  let data' :=
    for_range 0 (size2 (sparsity Bk)) (fun cc data =>
      for_range (colind_at Bk cc) (colind_at Bk (cc + 1)) (fun el data =>
        upd el (if Nat.eqb cc (row_at Bk el) then s1 else s0) data) data)
      (data Bk) in
  {| sparsity := sparsity Bk; data := data' |}.

End Numerics.

Arguments vec R : clear implicits.
Arguments DMatrix R : clear implicits.

Notation "v .[ i ]" := (get v i) (at level 1, left associativity, format "v .[ i ]").

(** ** The solver

    Results of a computation that may throw, run into behaviour the C++
    standard leaves undefined, or be cut off by the fuel of the model. *)

(** What is thrown: a [CasadiException], which the line search catches,
    or an exception of any other type, which no handler of [evalD]
    catches. *)
Inductive exception : Type :=
| CasadiException
| OtherException.

Inductive result (A : Type) : Type :=
| Ok (a : A)
| Exn (e : exception)   (* the exception [e] propagates *)
| Undef                 (* undefined behaviour in the source *)
| OutOfFuel.            (* the loop did not finish within the fuel given *)
Arguments Exn {A} e.
Arguments Undef {A}.
Arguments OutOfFuel {A}.

Definition bind {A B : Type} (r : result A) (k : A -> result B) : result B :=
  match r with
  | Ok a => k a
  | Exn e => Exn e
  | Undef => Undef
  | OutOfFuel => OutOfFuel
  end.

Notation "x <- e ;; k" := (bind e (fun x => k))
  (at level 61, e at next level, right associativity).
Notation "' p <- e ;; k" := (bind e (fun x => let 'p := x in k))
  (at level 61, p pattern, e at next level, right associativity).

(** What a call of an external function does: it returns or it throws. *)
Inductive outcome (A : Type) : Type :=
| Returns (a : A)
| Throws (e : exception).
Arguments Throws {A} e.

(** A port call; the handlers of [eval_f] and of its siblings print a
    message and rethrow what they caught. *)
Definition call {A : Type} (o : outcome A) : result A :=
  match o with Returns a => Ok a | Throws e => Exn e end.

Inductive NlpsolOutput : Type :=
| NLPSOL_X | NLPSOL_F | NLPSOL_G | NLPSOL_LAM_X | NLPSOL_LAM_G | NLPSOL_LAM_P.

Inductive Status : Type :=
| User_Requested_Stop
| Solve_Succeeded
| Maximum_Iterations_Exceeded
| Search_Direction_Becomes_Too_Small.

(** What the model records of a run, in order: a write to an output
    buffer, a call of the user callback, the exit from the main loop. *)
Inductive Event : Type :=
| WriteOutput (o : NlpsolOutput)
| CallCallback
| ExitLoop (s : Status).

Section Solver.
Context {R : Type} `{Scalar R}.
Local Open Scope scalar_scope.

Record Outputs : Type := {
  out_x : vec R;
  out_f : vec R;
  out_g : vec R;
  out_lam_x : vec R;
  out_lam_g : vec R;
  out_lam_p : vec R
}.

Record Inputs : Type := {
  in_x0 : vec R;
  in_lbx : vec R;
  in_ubx : vec R;
  in_lbg : vec R;
  in_ubg : vec R;
  in_lam_x0 : vec R;
  in_lam_g0 : vec R
}.

(** The options read in [Sqpmethod::init] and the problem dimensions.
    The members are declared in the class header, outside the files
    verified here: counters and limits compared with [int]s are integers
    ([int] overflow, undefined in C++, is not modelled).
    [merit_memsize_], compared with [deque::size()], is a size: the model
    covers the values [0, 1, 2, ...] of the option [merit_memory]; what a
    negative value of this unvalidated option becomes depends on the
    declaration of the member and is outside the model. *)
Record Config : Type := {
  max_iter_ : Z;
  max_iter_ls_ : Z;
  c1_ : R;
  beta_ : R;
  merit_memsize_ : nat;
  lbfgs_memory_ : Z;
  tol_pr_ : R;
  tol_du_ : R;
  regularize_ : bool;
  exact_hessian_ : bool;
  min_step_size_ : R;
  nx_ : nat;
  ng_ : nat
}.

(** The external collaborators. The parameter [p] of the NLP is fixed
    during a solve and is part of the closures.
    - [nlp_ x]: objective and constraints at [x];
    - [gradF x]: gradient and value of the objective;
    - [jacG x]: Jacobian and value of the constraints;
    - [hessLag x sigma lambda]: Hessian of the Lagrangian;
    - [qpsol_ H g x0 lbx ubx A]: primal solution and the duals of the
      bounds and of the linear constraints; [A] carries the constraint
      matrix with its bounds and is passed only when [ng_ > 0];
    - [fcallback_]: absent, or a function of the output buffers giving the
      integer to which its result is cast.
    Every call returns its result or throws an exception. *)
Record Ports : Type := {
  nlp_ : vec R -> outcome (R * vec R);
  gradF : vec R -> outcome (vec R * R);
  jacG : vec R -> outcome (DMatrix R * vec R);
  hessLag : vec R -> R -> vec R -> outcome (DMatrix R);
  qpsol_ : DMatrix R -> vec R -> vec R -> vec R -> vec R ->
           option (DMatrix R * vec R * vec R) ->
           outcome (vec R * vec R * vec R);
  fcallback_ : option (Outputs -> outcome Z)
}.

(** The members of [Sqpmethod] that [evalD] reads and writes, the locals
    of [evalD] that live across the passes of the loop ([iter], [ls_iter],
    [ls_success], [t]), the output buffers, the return status of the
    statistics and the recorded events.  Timers, counters, printing and
    the iteration log are left out. *)
Record State : Type := {
  x_ : vec R;
  x_cand_ : vec R;
  x_old_ : vec R;
  mu_ : vec R;
  mu_x_ : vec R;
  gLag_ : vec R;
  gLag_old_ : vec R;
  gk_ : vec R;
  gk_cand_ : vec R;
  fk_ : R;
  gf_ : vec R;
  Bk_ : DMatrix R;
  Jk_ : DMatrix R;
  qp_LBA_ : vec R;
  qp_UBA_ : vec R;
  qp_LBX_ : vec R;
  qp_UBX_ : vec R;
  dx_ : vec R;
  qp_DUAL_X_ : vec R;
  qp_DUAL_A_ : vec R;
  merit_mem_ : list R;
  sigma_ : R;
  reg_ : R;
  iter : Z;
  ls_iter : Z;
  ls_success : bool;
  t : R;
  output : Outputs;
  return_status : option Status;
  trace : list Event
}.

Definition set_x_ (v : vec R) (st : State) : State :=
  Build_State v (x_cand_ st) (x_old_ st) (mu_ st) (mu_x_ st) (gLag_ st) (gLag_old_ st) (gk_ st) (gk_cand_ st) (fk_ st) (gf_ st) (Bk_ st) (Jk_ st) (qp_LBA_ st) (qp_UBA_ st) (qp_LBX_ st) (qp_UBX_ st) (dx_ st) (qp_DUAL_X_ st) (qp_DUAL_A_ st) (merit_mem_ st) (sigma_ st) (reg_ st) (iter st) (ls_iter st) (ls_success st) (t st) (output st) (return_status st) (trace st).

Definition set_x_cand_ (v : vec R) (st : State) : State :=
  Build_State (x_ st) v (x_old_ st) (mu_ st) (mu_x_ st) (gLag_ st) (gLag_old_ st) (gk_ st) (gk_cand_ st) (fk_ st) (gf_ st) (Bk_ st) (Jk_ st) (qp_LBA_ st) (qp_UBA_ st) (qp_LBX_ st) (qp_UBX_ st) (dx_ st) (qp_DUAL_X_ st) (qp_DUAL_A_ st) (merit_mem_ st) (sigma_ st) (reg_ st) (iter st) (ls_iter st) (ls_success st) (t st) (output st) (return_status st) (trace st).

Definition set_x_old_ (v : vec R) (st : State) : State :=
  Build_State (x_ st) (x_cand_ st) v (mu_ st) (mu_x_ st) (gLag_ st) (gLag_old_ st) (gk_ st) (gk_cand_ st) (fk_ st) (gf_ st) (Bk_ st) (Jk_ st) (qp_LBA_ st) (qp_UBA_ st) (qp_LBX_ st) (qp_UBX_ st) (dx_ st) (qp_DUAL_X_ st) (qp_DUAL_A_ st) (merit_mem_ st) (sigma_ st) (reg_ st) (iter st) (ls_iter st) (ls_success st) (t st) (output st) (return_status st) (trace st).

Definition set_mu_ (v : vec R) (st : State) : State :=
  Build_State (x_ st) (x_cand_ st) (x_old_ st) v (mu_x_ st) (gLag_ st) (gLag_old_ st) (gk_ st) (gk_cand_ st) (fk_ st) (gf_ st) (Bk_ st) (Jk_ st) (qp_LBA_ st) (qp_UBA_ st) (qp_LBX_ st) (qp_UBX_ st) (dx_ st) (qp_DUAL_X_ st) (qp_DUAL_A_ st) (merit_mem_ st) (sigma_ st) (reg_ st) (iter st) (ls_iter st) (ls_success st) (t st) (output st) (return_status st) (trace st).

Definition set_mu_x_ (v : vec R) (st : State) : State :=
  Build_State (x_ st) (x_cand_ st) (x_old_ st) (mu_ st) v (gLag_ st) (gLag_old_ st) (gk_ st) (gk_cand_ st) (fk_ st) (gf_ st) (Bk_ st) (Jk_ st) (qp_LBA_ st) (qp_UBA_ st) (qp_LBX_ st) (qp_UBX_ st) (dx_ st) (qp_DUAL_X_ st) (qp_DUAL_A_ st) (merit_mem_ st) (sigma_ st) (reg_ st) (iter st) (ls_iter st) (ls_success st) (t st) (output st) (return_status st) (trace st).

Definition set_gLag_ (v : vec R) (st : State) : State :=
  Build_State (x_ st) (x_cand_ st) (x_old_ st) (mu_ st) (mu_x_ st) v (gLag_old_ st) (gk_ st) (gk_cand_ st) (fk_ st) (gf_ st) (Bk_ st) (Jk_ st) (qp_LBA_ st) (qp_UBA_ st) (qp_LBX_ st) (qp_UBX_ st) (dx_ st) (qp_DUAL_X_ st) (qp_DUAL_A_ st) (merit_mem_ st) (sigma_ st) (reg_ st) (iter st) (ls_iter st) (ls_success st) (t st) (output st) (return_status st) (trace st).

Definition set_gLag_old_ (v : vec R) (st : State) : State :=
  Build_State (x_ st) (x_cand_ st) (x_old_ st) (mu_ st) (mu_x_ st) (gLag_ st) v (gk_ st) (gk_cand_ st) (fk_ st) (gf_ st) (Bk_ st) (Jk_ st) (qp_LBA_ st) (qp_UBA_ st) (qp_LBX_ st) (qp_UBX_ st) (dx_ st) (qp_DUAL_X_ st) (qp_DUAL_A_ st) (merit_mem_ st) (sigma_ st) (reg_ st) (iter st) (ls_iter st) (ls_success st) (t st) (output st) (return_status st) (trace st).

Definition set_gk_ (v : vec R) (st : State) : State :=
  Build_State (x_ st) (x_cand_ st) (x_old_ st) (mu_ st) (mu_x_ st) (gLag_ st) (gLag_old_ st) v (gk_cand_ st) (fk_ st) (gf_ st) (Bk_ st) (Jk_ st) (qp_LBA_ st) (qp_UBA_ st) (qp_LBX_ st) (qp_UBX_ st) (dx_ st) (qp_DUAL_X_ st) (qp_DUAL_A_ st) (merit_mem_ st) (sigma_ st) (reg_ st) (iter st) (ls_iter st) (ls_success st) (t st) (output st) (return_status st) (trace st).

Definition set_gk_cand_ (v : vec R) (st : State) : State :=
  Build_State (x_ st) (x_cand_ st) (x_old_ st) (mu_ st) (mu_x_ st) (gLag_ st) (gLag_old_ st) (gk_ st) v (fk_ st) (gf_ st) (Bk_ st) (Jk_ st) (qp_LBA_ st) (qp_UBA_ st) (qp_LBX_ st) (qp_UBX_ st) (dx_ st) (qp_DUAL_X_ st) (qp_DUAL_A_ st) (merit_mem_ st) (sigma_ st) (reg_ st) (iter st) (ls_iter st) (ls_success st) (t st) (output st) (return_status st) (trace st).

Definition set_fk_ (v : R) (st : State) : State :=
  Build_State (x_ st) (x_cand_ st) (x_old_ st) (mu_ st) (mu_x_ st) (gLag_ st) (gLag_old_ st) (gk_ st) (gk_cand_ st) v (gf_ st) (Bk_ st) (Jk_ st) (qp_LBA_ st) (qp_UBA_ st) (qp_LBX_ st) (qp_UBX_ st) (dx_ st) (qp_DUAL_X_ st) (qp_DUAL_A_ st) (merit_mem_ st) (sigma_ st) (reg_ st) (iter st) (ls_iter st) (ls_success st) (t st) (output st) (return_status st) (trace st).

Definition set_gf_ (v : vec R) (st : State) : State :=
  Build_State (x_ st) (x_cand_ st) (x_old_ st) (mu_ st) (mu_x_ st) (gLag_ st) (gLag_old_ st) (gk_ st) (gk_cand_ st) (fk_ st) v (Bk_ st) (Jk_ st) (qp_LBA_ st) (qp_UBA_ st) (qp_LBX_ st) (qp_UBX_ st) (dx_ st) (qp_DUAL_X_ st) (qp_DUAL_A_ st) (merit_mem_ st) (sigma_ st) (reg_ st) (iter st) (ls_iter st) (ls_success st) (t st) (output st) (return_status st) (trace st).

Definition set_Bk_ (v : DMatrix R) (st : State) : State :=
  Build_State (x_ st) (x_cand_ st) (x_old_ st) (mu_ st) (mu_x_ st) (gLag_ st) (gLag_old_ st) (gk_ st) (gk_cand_ st) (fk_ st) (gf_ st) v (Jk_ st) (qp_LBA_ st) (qp_UBA_ st) (qp_LBX_ st) (qp_UBX_ st) (dx_ st) (qp_DUAL_X_ st) (qp_DUAL_A_ st) (merit_mem_ st) (sigma_ st) (reg_ st) (iter st) (ls_iter st) (ls_success st) (t st) (output st) (return_status st) (trace st).

Definition set_Jk_ (v : DMatrix R) (st : State) : State :=
  Build_State (x_ st) (x_cand_ st) (x_old_ st) (mu_ st) (mu_x_ st) (gLag_ st) (gLag_old_ st) (gk_ st) (gk_cand_ st) (fk_ st) (gf_ st) (Bk_ st) v (qp_LBA_ st) (qp_UBA_ st) (qp_LBX_ st) (qp_UBX_ st) (dx_ st) (qp_DUAL_X_ st) (qp_DUAL_A_ st) (merit_mem_ st) (sigma_ st) (reg_ st) (iter st) (ls_iter st) (ls_success st) (t st) (output st) (return_status st) (trace st).

Definition set_qp_LBA_ (v : vec R) (st : State) : State :=
  Build_State (x_ st) (x_cand_ st) (x_old_ st) (mu_ st) (mu_x_ st) (gLag_ st) (gLag_old_ st) (gk_ st) (gk_cand_ st) (fk_ st) (gf_ st) (Bk_ st) (Jk_ st) v (qp_UBA_ st) (qp_LBX_ st) (qp_UBX_ st) (dx_ st) (qp_DUAL_X_ st) (qp_DUAL_A_ st) (merit_mem_ st) (sigma_ st) (reg_ st) (iter st) (ls_iter st) (ls_success st) (t st) (output st) (return_status st) (trace st).

Definition set_qp_UBA_ (v : vec R) (st : State) : State :=
  Build_State (x_ st) (x_cand_ st) (x_old_ st) (mu_ st) (mu_x_ st) (gLag_ st) (gLag_old_ st) (gk_ st) (gk_cand_ st) (fk_ st) (gf_ st) (Bk_ st) (Jk_ st) (qp_LBA_ st) v (qp_LBX_ st) (qp_UBX_ st) (dx_ st) (qp_DUAL_X_ st) (qp_DUAL_A_ st) (merit_mem_ st) (sigma_ st) (reg_ st) (iter st) (ls_iter st) (ls_success st) (t st) (output st) (return_status st) (trace st).

Definition set_qp_LBX_ (v : vec R) (st : State) : State :=
  Build_State (x_ st) (x_cand_ st) (x_old_ st) (mu_ st) (mu_x_ st) (gLag_ st) (gLag_old_ st) (gk_ st) (gk_cand_ st) (fk_ st) (gf_ st) (Bk_ st) (Jk_ st) (qp_LBA_ st) (qp_UBA_ st) v (qp_UBX_ st) (dx_ st) (qp_DUAL_X_ st) (qp_DUAL_A_ st) (merit_mem_ st) (sigma_ st) (reg_ st) (iter st) (ls_iter st) (ls_success st) (t st) (output st) (return_status st) (trace st).

Definition set_qp_UBX_ (v : vec R) (st : State) : State :=
  Build_State (x_ st) (x_cand_ st) (x_old_ st) (mu_ st) (mu_x_ st) (gLag_ st) (gLag_old_ st) (gk_ st) (gk_cand_ st) (fk_ st) (gf_ st) (Bk_ st) (Jk_ st) (qp_LBA_ st) (qp_UBA_ st) (qp_LBX_ st) v (dx_ st) (qp_DUAL_X_ st) (qp_DUAL_A_ st) (merit_mem_ st) (sigma_ st) (reg_ st) (iter st) (ls_iter st) (ls_success st) (t st) (output st) (return_status st) (trace st).

Definition set_dx_ (v : vec R) (st : State) : State :=
  Build_State (x_ st) (x_cand_ st) (x_old_ st) (mu_ st) (mu_x_ st) (gLag_ st) (gLag_old_ st) (gk_ st) (gk_cand_ st) (fk_ st) (gf_ st) (Bk_ st) (Jk_ st) (qp_LBA_ st) (qp_UBA_ st) (qp_LBX_ st) (qp_UBX_ st) v (qp_DUAL_X_ st) (qp_DUAL_A_ st) (merit_mem_ st) (sigma_ st) (reg_ st) (iter st) (ls_iter st) (ls_success st) (t st) (output st) (return_status st) (trace st).

Definition set_qp_DUAL_X_ (v : vec R) (st : State) : State :=
  Build_State (x_ st) (x_cand_ st) (x_old_ st) (mu_ st) (mu_x_ st) (gLag_ st) (gLag_old_ st) (gk_ st) (gk_cand_ st) (fk_ st) (gf_ st) (Bk_ st) (Jk_ st) (qp_LBA_ st) (qp_UBA_ st) (qp_LBX_ st) (qp_UBX_ st) (dx_ st) v (qp_DUAL_A_ st) (merit_mem_ st) (sigma_ st) (reg_ st) (iter st) (ls_iter st) (ls_success st) (t st) (output st) (return_status st) (trace st).

Definition set_qp_DUAL_A_ (v : vec R) (st : State) : State :=
  Build_State (x_ st) (x_cand_ st) (x_old_ st) (mu_ st) (mu_x_ st) (gLag_ st) (gLag_old_ st) (gk_ st) (gk_cand_ st) (fk_ st) (gf_ st) (Bk_ st) (Jk_ st) (qp_LBA_ st) (qp_UBA_ st) (qp_LBX_ st) (qp_UBX_ st) (dx_ st) (qp_DUAL_X_ st) v (merit_mem_ st) (sigma_ st) (reg_ st) (iter st) (ls_iter st) (ls_success st) (t st) (output st) (return_status st) (trace st).

Definition set_merit_mem_ (v : list R) (st : State) : State :=
  Build_State (x_ st) (x_cand_ st) (x_old_ st) (mu_ st) (mu_x_ st) (gLag_ st) (gLag_old_ st) (gk_ st) (gk_cand_ st) (fk_ st) (gf_ st) (Bk_ st) (Jk_ st) (qp_LBA_ st) (qp_UBA_ st) (qp_LBX_ st) (qp_UBX_ st) (dx_ st) (qp_DUAL_X_ st) (qp_DUAL_A_ st) v (sigma_ st) (reg_ st) (iter st) (ls_iter st) (ls_success st) (t st) (output st) (return_status st) (trace st).

Definition set_sigma_ (v : R) (st : State) : State :=
  Build_State (x_ st) (x_cand_ st) (x_old_ st) (mu_ st) (mu_x_ st) (gLag_ st) (gLag_old_ st) (gk_ st) (gk_cand_ st) (fk_ st) (gf_ st) (Bk_ st) (Jk_ st) (qp_LBA_ st) (qp_UBA_ st) (qp_LBX_ st) (qp_UBX_ st) (dx_ st) (qp_DUAL_X_ st) (qp_DUAL_A_ st) (merit_mem_ st) v (reg_ st) (iter st) (ls_iter st) (ls_success st) (t st) (output st) (return_status st) (trace st).

Definition set_reg_ (v : R) (st : State) : State :=
  Build_State (x_ st) (x_cand_ st) (x_old_ st) (mu_ st) (mu_x_ st) (gLag_ st) (gLag_old_ st) (gk_ st) (gk_cand_ st) (fk_ st) (gf_ st) (Bk_ st) (Jk_ st) (qp_LBA_ st) (qp_UBA_ st) (qp_LBX_ st) (qp_UBX_ st) (dx_ st) (qp_DUAL_X_ st) (qp_DUAL_A_ st) (merit_mem_ st) (sigma_ st) v (iter st) (ls_iter st) (ls_success st) (t st) (output st) (return_status st) (trace st).

Definition set_iter (v : Z) (st : State) : State :=
  Build_State (x_ st) (x_cand_ st) (x_old_ st) (mu_ st) (mu_x_ st) (gLag_ st) (gLag_old_ st) (gk_ st) (gk_cand_ st) (fk_ st) (gf_ st) (Bk_ st) (Jk_ st) (qp_LBA_ st) (qp_UBA_ st) (qp_LBX_ st) (qp_UBX_ st) (dx_ st) (qp_DUAL_X_ st) (qp_DUAL_A_ st) (merit_mem_ st) (sigma_ st) (reg_ st) v (ls_iter st) (ls_success st) (t st) (output st) (return_status st) (trace st).

Definition set_ls_iter (v : Z) (st : State) : State :=
  Build_State (x_ st) (x_cand_ st) (x_old_ st) (mu_ st) (mu_x_ st) (gLag_ st) (gLag_old_ st) (gk_ st) (gk_cand_ st) (fk_ st) (gf_ st) (Bk_ st) (Jk_ st) (qp_LBA_ st) (qp_UBA_ st) (qp_LBX_ st) (qp_UBX_ st) (dx_ st) (qp_DUAL_X_ st) (qp_DUAL_A_ st) (merit_mem_ st) (sigma_ st) (reg_ st) (iter st) v (ls_success st) (t st) (output st) (return_status st) (trace st).

Definition set_ls_success (v : bool) (st : State) : State :=
  Build_State (x_ st) (x_cand_ st) (x_old_ st) (mu_ st) (mu_x_ st) (gLag_ st) (gLag_old_ st) (gk_ st) (gk_cand_ st) (fk_ st) (gf_ st) (Bk_ st) (Jk_ st) (qp_LBA_ st) (qp_UBA_ st) (qp_LBX_ st) (qp_UBX_ st) (dx_ st) (qp_DUAL_X_ st) (qp_DUAL_A_ st) (merit_mem_ st) (sigma_ st) (reg_ st) (iter st) (ls_iter st) v (t st) (output st) (return_status st) (trace st).

Definition set_t (v : R) (st : State) : State :=
  Build_State (x_ st) (x_cand_ st) (x_old_ st) (mu_ st) (mu_x_ st) (gLag_ st) (gLag_old_ st) (gk_ st) (gk_cand_ st) (fk_ st) (gf_ st) (Bk_ st) (Jk_ st) (qp_LBA_ st) (qp_UBA_ st) (qp_LBX_ st) (qp_UBX_ st) (dx_ st) (qp_DUAL_X_ st) (qp_DUAL_A_ st) (merit_mem_ st) (sigma_ st) (reg_ st) (iter st) (ls_iter st) (ls_success st) v (output st) (return_status st) (trace st).

Definition set_output (v : Outputs) (st : State) : State :=
  Build_State (x_ st) (x_cand_ st) (x_old_ st) (mu_ st) (mu_x_ st) (gLag_ st) (gLag_old_ st) (gk_ st) (gk_cand_ st) (fk_ st) (gf_ st) (Bk_ st) (Jk_ st) (qp_LBA_ st) (qp_UBA_ st) (qp_LBX_ st) (qp_UBX_ st) (dx_ st) (qp_DUAL_X_ st) (qp_DUAL_A_ st) (merit_mem_ st) (sigma_ st) (reg_ st) (iter st) (ls_iter st) (ls_success st) (t st) v (return_status st) (trace st).

Definition set_return_status (v : option Status) (st : State) : State :=
  Build_State (x_ st) (x_cand_ st) (x_old_ st) (mu_ st) (mu_x_ st) (gLag_ st) (gLag_old_ st) (gk_ st) (gk_cand_ st) (fk_ st) (gf_ st) (Bk_ st) (Jk_ st) (qp_LBA_ st) (qp_UBA_ st) (qp_LBX_ st) (qp_UBX_ st) (dx_ st) (qp_DUAL_X_ st) (qp_DUAL_A_ st) (merit_mem_ st) (sigma_ st) (reg_ st) (iter st) (ls_iter st) (ls_success st) (t st) (output st) v (trace st).

Definition set_trace (v : list Event) (st : State) : State :=
  Build_State (x_ st) (x_cand_ st) (x_old_ st) (mu_ st) (mu_x_ st) (gLag_ st) (gLag_old_ st) (gk_ st) (gk_cand_ st) (fk_ st) (gf_ st) (Bk_ st) (Jk_ st) (qp_LBA_ st) (qp_UBA_ st) (qp_LBX_ st) (qp_UBX_ st) (dx_ st) (qp_DUAL_X_ st) (qp_DUAL_A_ st) (merit_mem_ st) (sigma_ st) (reg_ st) (iter st) (ls_iter st) (ls_success st) (t st) (output st) (return_status st) v.

Variable cfg : Config.
Variable P : Ports.
Variable inp : Inputs.

(** [Sqpmethod::eval_f], [eval_g], [eval_grad_f], [eval_jac_g]: the result
    parameters of the source are returned; an exception is rethrown. *)
Definition eval_f (x : vec R) : result R :=
  '(f, _) <- call (nlp_ P x) ;; Ok f.

Definition eval_g (x : vec R) (g : vec R) : result (vec R) :=
  if Nat.eqb (ng_ cfg) 0 then Ok g
  else '(_, g') <- call (nlp_ P x) ;; Ok g'.

Definition eval_grad_f (x : vec R) : result (R * vec R) :=
  '(grad_f, f) <- call (gradF P x) ;; Ok (f, grad_f).

Definition eval_jac_g (x : vec R) (g : vec R) (J : DMatrix R) : result (vec R * DMatrix R) :=
  if Nat.eqb (ng_ cfg) 0 then Ok (g, J)
  else '(J', g') <- call (jacG P x) ;; Ok (g', J').

(** [Sqpmethod::eval_h]: returns the Hessian and the member [reg_]. *)
Definition eval_h (x lambda : vec R) (sigma : R) (reg : R) : result (DMatrix R * R) :=
  H0 <- call (hessLag P x sigma lambda) ;;
  if regularize_ cfg then
    let reg := getRegularization H0 in
    if s0 <? reg then Ok (regularize H0 reg, reg) else Ok (H0, reg)
  else Ok (H0, reg).

(** [Sqpmethod::reset_h]. *)
Definition reset_h (Bk : DMatrix R) : DMatrix R :=
  if negb (exact_hessian_ cfg) then set_eye Bk else Bk.

(** [Sqpmethod::solve_QP]; [x_opt] is the warm start on entry. *)
Definition solve_QP (H0 : DMatrix R) (g lbx ubx : vec R) (A : DMatrix R) (lbA ubA : vec R)
    (x_opt : vec R) : result (vec R * vec R * vec R) :=
  call (qpsol_ P H0 g x_opt lbx ubx
          (if Nat.ltb 0 (ng_ cfg) then Some (A, lbA, ubA) else None)).

(** The gradient of the Lagrangian, [gf + Jk^T mu + mu_x], as [evalD]
    assembles it in three places. *)
Definition lagrangian_gradient (gf : vec R) (Jk : DMatrix R) (mu mu_x : vec R)
    (gLag : vec R) : vec R :=
  let gLag := std_copy gf gLag in
  let gLag := if Nat.ltb 0 (ng_ cfg) then mv_t Jk mu gLag else gLag in
  std_transform sadd gLag mu_x gLag.

(** Writes to the output buffers; each one is recorded. *)
Definition log (e : Event) (st : State) : State :=
  set_trace (trace st ++ [e]) st.

Definition put (o : NlpsolOutput) (f : vec R -> vec R) (out : Outputs) : Outputs :=
  match o with
  | NLPSOL_X => Build_Outputs (f (out_x out)) (out_f out) (out_g out)
                  (out_lam_x out) (out_lam_g out) (out_lam_p out)
  | NLPSOL_F => Build_Outputs (out_x out) (f (out_f out)) (out_g out)
                  (out_lam_x out) (out_lam_g out) (out_lam_p out)
  | NLPSOL_G => Build_Outputs (out_x out) (out_f out) (f (out_g out))
                  (out_lam_x out) (out_lam_g out) (out_lam_p out)
  | NLPSOL_LAM_X => Build_Outputs (out_x out) (out_f out) (out_g out)
                  (f (out_lam_x out)) (out_lam_g out) (out_lam_p out)
  | NLPSOL_LAM_G => Build_Outputs (out_x out) (out_f out) (out_g out)
                  (out_lam_x out) (f (out_lam_g out)) (out_lam_p out)
  | NLPSOL_LAM_P => Build_Outputs (out_x out) (out_f out) (out_g out)
                  (out_lam_x out) (out_lam_g out) (f (out_lam_p out))
  end.

Definition buffer (o : NlpsolOutput) (out : Outputs) : vec R :=
  match o with
  | NLPSOL_X => out_x out
  | NLPSOL_F => out_f out
  | NLPSOL_G => out_g out
  | NLPSOL_LAM_X => out_lam_x out
  | NLPSOL_LAM_G => out_lam_g out
  | NLPSOL_LAM_P => out_lam_p out
  end.

(** [output(o).setNZ(v)] and [output(o).set(a)]. *)
Definition setNZ (o : NlpsolOutput) (v : vec R) (st : State) : State :=
  log (WriteOutput o) (set_output (put o (std_copy v) (output st)) st).

Definition set_scalar (o : NlpsolOutput) (a : R) (st : State) : State :=
  log (WriteOutput o) (set_output (put o (map (fun _ => a)) (output st)) st).

Definition is_empty (o : NlpsolOutput) (st : State) : bool :=
  Nat.eqb (length (buffer o (output st))) 0.

(** "Save results to outputs", after the loop. *)
Definition save_results (st : State) : State :=
  let st := set_scalar NLPSOL_F (fk_ st) st in
  let st := setNZ NLPSOL_X (x_ st) st in
  let st := setNZ NLPSOL_LAM_G (mu_ st) st in
  let st := setNZ NLPSOL_LAM_X (mu_x_ st) st in
  let st := setNZ NLPSOL_G (gk_ st) st in
  st.


(** ** The main optimization loop of [Sqpmethod::evalD] *)

Inductive Flow : Type := Continue | Break.

Definition leave (s : Status) (st : State) : State :=
  log (ExitLoop s) (set_return_status (Some s) st).

(** The body of "Call callback function if present". *)
Definition callback_block (cb : Outputs -> outcome Z) (st : State) : result (Flow * State) :=
  let st := if negb (is_empty NLPSOL_F st) then set_scalar NLPSOL_F (fk_ st) st else st in
  let st := if negb (is_empty NLPSOL_X st) then setNZ NLPSOL_X (x_ st) st else st in
  let st := if negb (is_empty NLPSOL_LAM_G st) then setNZ NLPSOL_LAM_G (mu_ st) st else st in
  let st := if negb (is_empty NLPSOL_LAM_X st) then setNZ NLPSOL_LAM_X (mu_x_ st) st else st in
  let st := if negb (is_empty NLPSOL_G st) then setNZ NLPSOL_G (gk_ st) st else st in
  let st := log CallCallback st in
  ret <- call (cb (output st)) ;;
  if negb (Z.eqb ret 0) then Ok (Break, leave User_Requested_Stop st)
  else Ok (Continue, st).

(** "Checking convergence criteria": the three tests in the order of the
    source; [None] when none of them fires. *)
Definition convergence_check (pr_inf gLag_norminf dx_norminf : R) (iter : Z) : option Status :=
  if (pr_inf <? tol_pr_ cfg) && (gLag_norminf <? tol_du_ cfg) then
    Some Solve_Succeeded
  else if (iter >=? max_iter_ cfg)%Z then
    Some Maximum_Iterations_Exceeded
  else if (iter >? 0)%Z && (dx_norminf <=? min_step_size_ cfg) then
    Some Search_Direction_Becomes_Too_Small
  else None.

(** [*max_element(first, last)]: the first largest element; dereferencing
    the result on an empty range is undefined. *)
Definition max_element (l : list R) : option R :=
  match l with
  | [] => None
  | a :: l' => Some (fold_left (fun largest b => if largest <? b then b else largest) l' a)
  end.

(** "Formulate the QP" and "Solve the QP". *)
Definition formulate_and_solve_QP (st : State) : result State :=
  let st := set_qp_LBX_ (std_transform ssub (in_lbx inp) (x_ st) (qp_LBX_ st)) st in
  let st := set_qp_UBX_ (std_transform ssub (in_ubx inp) (x_ st) (qp_UBX_ st)) st in
  let st := set_qp_LBA_ (std_transform ssub (in_lbg inp) (gk_ st) (qp_LBA_ st)) st in
  let st := set_qp_UBA_ (std_transform ssub (in_ubg inp) (gk_ st) (qp_UBA_ st)) st in
  '(x_opt, lambda_x_opt, lambda_A_opt) <-
     solve_QP (Bk_ st) (gf_ st) (qp_LBX_ st) (qp_UBX_ st) (Jk_ st) (qp_LBA_ st) (qp_UBA_ st)
       (dx_ st) ;;
  Ok (set_qp_DUAL_A_ lambda_A_opt (set_qp_DUAL_X_ lambda_x_opt (set_dx_ x_opt st))).

(** "Calculate penalty parameter of merit function". *)
Definition update_sigma (st : State) : State :=
  let st := set_sigma_ (std_max (sigma_ st) (slit (101 # 100) * norm_inf (qp_DUAL_X_ st))) st in
  let st := set_sigma_ (std_max (sigma_ st) (slit (101 # 100) * norm_inf (qp_DUAL_A_ st))) st in
  st.

(** "Storing the actual merit function value in a list": [push_back],
    then one [pop_front] when the size exceeds [merit_memsize_]. *)
Definition push_merit (L1merit : R) (st : State) : State :=
  let st := set_merit_mem_ (merit_mem_ st ++ [L1merit]) st in
  if Nat.ltb (merit_memsize_ cfg) (length (merit_mem_ st))
  then set_merit_mem_ (tl (merit_mem_ st)) st
  else st.

(** "Line-search loop": [while (true)] with the fuel of the model.  The
    handler of the [try] block is [catch(const CasadiException&)]: an
    exception of another type leaves the loop and [evalD]. *)
Fixpoint line_search_loop (fuel : nat) (L1dir : R) (st : State) : result State :=
  match fuel with
  | O => OutOfFuel
  | S fuel' =>
    let st := set_x_cand_
                (for_range 0 (nx_ cfg)
                   (fun i x_cand => upd i ((x_ st).[i] + t st * (dx_ st).[i]) x_cand)
                   (x_cand_ st)) st in
    match (fk_cand <- eval_f (x_cand_ st) ;;
           gk_cand <- eval_g (x_cand_ st) (gk_cand_ st) ;;
           Ok (fk_cand, gk_cand)) with
    | Exn CasadiException =>
        (* catch: "Silent ignore; line-search failed" *)
        let st := set_ls_iter (ls_iter st + 1)%Z st in
        let st := set_t (beta_ cfg * t st) st in
        line_search_loop fuel' L1dir st
    | Exn OtherException => Exn OtherException
    | Ok (fk_cand, gk_cand) =>
        let st := set_gk_cand_ gk_cand st in
        let st := set_ls_iter (ls_iter st + 1)%Z st in
        let l1_infeas :=
          primalInfeasibility (x_cand_ st) (in_lbx inp) (in_ubx inp)
            (gk_cand_ st) (in_lbg inp) (in_ubg inp) in
        let L1merit_cand := fk_cand + sigma_ st * l1_infeas in
        match max_element (merit_mem_ st) with
        | None => Undef
        | Some meritmax =>
            if L1merit_cand <=? meritmax + t st * c1_ cfg * L1dir then
              Ok st
            else if (ls_iter st =? max_iter_ls_ cfg)%Z then
              Ok (set_ls_success false st)
            else
              line_search_loop fuel' L1dir (set_t (beta_ cfg * t st) st)
        end
    | Undef => Undef
    | OutOfFuel => OutOfFuel
    end
  end.

(** The line search with the update of the duals and of the primal
    variable, or the full step when [max_iter_ls_ <= 0]. *)
Definition globalize (ls_fuel : nat) (L1dir : R) (st : State) : result State :=
  let st := set_t s1 st in
  let st := set_ls_iter 0%Z st in
  let st := set_ls_success true st in
  if (max_iter_ls_ cfg >? 0)%Z then
    st <- line_search_loop ls_fuel L1dir st ;;
    let st := set_mu_
                (for_range 0 (ng_ cfg)
                   (fun i mu => upd i (t st * (qp_DUAL_A_ st).[i] + (s1 - t st) * mu.[i]) mu)
                   (mu_ st)) st in
    let st := set_mu_x_
                (for_range 0 (nx_ cfg)
                   (fun i mu_x => upd i (t st * (qp_DUAL_X_ st).[i] + (s1 - t st) * mu_x.[i]) mu_x)
                   (mu_x_ st)) st in
    let st := set_x_old_ (std_copy (x_ st) (x_old_ st)) st in
    let st := set_x_ (std_copy (x_cand_ st) (x_ st)) st in
    Ok st
  else
    let st := set_mu_ (std_copy (qp_DUAL_A_ st) (mu_ st)) st in
    let st := set_mu_x_ (std_copy (qp_DUAL_X_ st) (mu_x_ st)) st in
    let st := set_x_old_ (std_copy (x_ st) (x_old_ st)) st in
    let st := set_x_ (std_transform sadd (x_ st) (dx_ st) (x_ st)) st in
    Ok st.

(** "Updating Lagrange Hessian".  [iter % lbfgs_memory_] is the remainder
    of the truncated division, [Z.rem]; with [lbfgs_memory_ = 0] it is a
    division by zero, undefined in C++. *)
Definition update_hessian (st : State) : result State :=
  if negb (exact_hessian_ cfg) then
    if (lbfgs_memory_ cfg =? 0)%Z then Undef
    else
    let st := if (Z.rem (iter st) (lbfgs_memory_ cfg) =? 0)%Z
              then set_Bk_ (drop_off_diagonal (Bk_ st)) st else st in
    Ok (set_Bk_ (bfgs (Bk_ st) (x_ st) (x_old_ st) (gLag_ st) (gLag_old_ st)) st)
  else
    '(Bk, reg) <- eval_h (x_ st) (mu_ st) s1 (reg_ st) ;;
    Ok (set_reg_ reg (set_Bk_ Bk st)).

(** "Calculate L1-merit function in the actual iterate" and "Right-hand
    side of Armijo condition". *)
Definition l1_dir (st : State) : R :=
  let l1_infeas :=
    primalInfeasibility (x_ st) (in_lbx inp) (in_ubx inp) (gk_ st) (in_lbg inp) (in_ubg inp) in
  let F_sens := inner_prod (dx_ st) (gf_ st) in
  F_sens - sigma_ st * l1_infeas.

Definition l1_merit (st : State) : R :=
  let l1_infeas :=
    primalInfeasibility (x_ st) (in_lbx inp) (in_ubx inp) (gk_ st) (in_lbg inp) (in_ubg inp) in
  fk_ st + sigma_ st * l1_infeas.

(** One pass of the loop after the convergence checks: "Start a new
    iteration" up to the end of the loop body.  The test of the quadratic
    form of [Bk_] along [dx_] only prints a warning and is left out. *)
Definition iteration (ls_fuel : nat) (st : State) : result State :=
  let st := set_iter (iter st + 1)%Z st in
  st <- formulate_and_solve_QP st ;;
  let st := update_sigma st in
  let L1dir := l1_dir st in
  let L1merit := l1_merit st in
  let st := push_merit L1merit st in
  st <- globalize ls_fuel L1dir st ;;
  let st :=
    if negb (exact_hessian_ cfg)
    then set_gLag_old_
           (lagrangian_gradient (gf_ st) (Jk_ st) (mu_ st) (mu_x_ st) (gLag_old_ st)) st
    else st in
  '(gk, Jk) <- eval_jac_g (x_ st) (gk_ st) (Jk_ st) ;;
  let st := set_Jk_ Jk (set_gk_ gk st) in
  '(fk, gf) <- eval_grad_f (x_ st) ;;
  let st := set_gf_ gf (set_fk_ fk st) in
  let st := set_gLag_ (lagrangian_gradient (gf_ st) (Jk_ st) (mu_ st) (mu_x_ st) (gLag_ st)) st in
  update_hessian st.

(** "Call callback function if present". *)
Definition run_callback (st : State) : result (Flow * State) :=
  match fcallback_ P with
  | Some cb => callback_block cb st
  | None => Ok (Continue, st)
  end.

(** One pass of [while (true)]: [Break] when the loop is left. *)
Definition loop_pass (ls_fuel : nat) (st : State) : result (Flow * State) :=
  let pr_inf :=
    primalInfeasibility (x_ st) (in_lbx inp) (in_ubx inp) (gk_ st) (in_lbg inp) (in_ubg inp) in
  let gLag_norminf := norm_inf (gLag_ st) in
  let dx_norminf := norm_inf (dx_ st) in
  '(flow, st) <- run_callback st ;;
  match flow with
  | Break => Ok (Break, st)
  | Continue =>
      match convergence_check pr_inf gLag_norminf dx_norminf (iter st) with
      | Some s => Ok (Break, leave s st)
      | None => st <- iteration ls_fuel st ;; Ok (Continue, st)
      end
  end.

Fixpoint main_loop (fuel ls_fuel : nat) (st : State) : result State :=
  match fuel with
  | O => OutOfFuel
  | S fuel' =>
      '(flow, st) <- loop_pass ls_fuel st ;;
      match flow with
      | Break => Ok st
      | Continue => main_loop fuel' ls_fuel st
      end
  end.

(** The part of [evalD] before the loop. *)
Definition prepare (st : State) : result State :=
  let st := set_x_ (std_copy (in_x0 inp) (x_ st)) st in
  let st := set_mu_ (std_copy (in_lam_g0 inp) (mu_ st)) st in
  let st := set_mu_x_ (std_copy (in_lam_x0 inp) (mu_x_ st)) st in
  '(gk, Jk) <- eval_jac_g (x_ st) (gk_ st) (Jk_ st) ;;
  let st := set_Jk_ Jk (set_gk_ gk st) in
  '(fk, gf) <- eval_grad_f (x_ st) ;;
  let st := set_gf_ gf (set_fk_ fk st) in
  let st := set_reg_ s0 st in
  st <- (if exact_hessian_ cfg then
           '(Bk, reg) <- eval_h (x_ st) (mu_ st) s1 (reg_ st) ;;
           Ok (set_reg_ reg (set_Bk_ Bk st))
         else Ok (set_Bk_ (reset_h (Bk_ st)) st)) ;;
  let st := set_gLag_ (lagrangian_gradient (gf_ st) (Jk_ st) (mu_ st) (mu_x_ st) (gLag_ st)) st in
  let st := set_iter 0%Z st in
  let st := set_ls_iter 0%Z st in
  let st := set_ls_success true st in
  let st := set_merit_mem_ [] st in
  let st := set_sigma_ s0 st in
  let st := set_t s0 st in
  Ok st.

(** [Sqpmethod::evalD] on the members [st] left by [init] or by an earlier
    call; the trace starts empty. *)
Definition evalD (fuel ls_fuel : nat) (st : State) : result State :=
  let st := set_trace [] (set_return_status None st) in
  st <- prepare st ;;
  st <- main_loop fuel ls_fuel st ;;
  Ok (save_results st).

End Solver.

Arguments Outputs R : clear implicits.
Arguments Inputs R : clear implicits.
Arguments Config R : clear implicits.
Arguments Ports R : clear implicits.
Arguments State R : clear implicits.

(** ** Properties of runs and of matrices used in the statements *)

(** No output buffer is written before the main loop is left. *)
Fixpoint no_write_before_exit (tr : list Event) : bool :=
  match tr with
  | [] => true
  | ExitLoop _ :: _ => true
  | WriteOutput _ :: _ => false
  | CallCallback :: tr' => no_write_before_exit tr'
  end.

(** The writes of a pass of the loop with a callback, in the order of the
    source: one for each of the five buffers that is not empty. *)
Definition callback_writes {R : Type} (st : State R) : list Event :=
  map WriteOutput
    (filter (fun o => negb (is_empty o st))
       [NLPSOL_F; NLPSOL_X; NLPSOL_LAM_G; NLPSOL_LAM_X; NLPSOL_G]).

(** The buffers [out] hold the iterate of [st]: every buffer of [st] that
    is not empty holds the objective value, or starts with the primal
    variables, the multipliers or the constraint values of [st]; an empty
    buffer, and the buffer of [lam_p], is as in [st]. *)
Definition iterate_written {R : Type} (st : State R) (out : Outputs R) : Prop :=
  (is_empty NLPSOL_F st = false ->
   length (out_f out) = length (out_f (output st)) /\
   Forall (fun a => a = fk_ st) (out_f out)) /\
  (is_empty NLPSOL_X st = false -> firstn (length (x_ st)) (out_x out) = x_ st) /\
  (is_empty NLPSOL_LAM_G st = false ->
   firstn (length (mu_ st)) (out_lam_g out) = mu_ st) /\
  (is_empty NLPSOL_LAM_X st = false ->
   firstn (length (mu_x_ st)) (out_lam_x out) = mu_x_ st) /\
  (is_empty NLPSOL_G st = false -> firstn (length (gk_ st)) (out_g out) = gk_ st) /\
  (forall o, is_empty o st = true -> buffer o out = buffer o (output st)) /\
  out_lam_p out = out_lam_p (output st).

(** What the steps after the update of the merit memory leave as it is. *)
Definition kept {R : Type} (st st' : State R) : Prop :=
  merit_mem_ st' = merit_mem_ st /\ sigma_ st' = sigma_ st /\
  qp_DUAL_X_ st' = qp_DUAL_X_ st /\ qp_DUAL_A_ st' = qp_DUAL_A_ st /\
  dx_ st' = dx_ st /\ iter st' = iter st /\
  output st' = output st /\ trace st' = trace st /\
  return_status st' = return_status st.

(** What the steps after the globalization leave as it is. *)
Definition same_step {R : Type} (st st' : State R) : Prop :=
  x_ st' = x_ st /\ x_old_ st' = x_old_ st /\
  mu_ st' = mu_ st /\ mu_x_ st' = mu_x_ st /\
  ls_iter st' = ls_iter st /\ ls_success st' = ls_success st /\
  t st' = t st /\ x_cand_ st' = x_cand_ st.

(** A value that is not finite, or is zero. *)
Definition zeroish (a : xQ) : Prop :=
  match a with
  | Some q => (q == 0)%Q
  | None => True
  end.

(** [d'] comes from [d] by writes of the non-finite value: the length is
    the same and an entry that holds the value keeps it. *)
Definition taints (d d' : vec xQ) : Prop :=
  length d' = length d /\ forall e, d.[e] = None -> d'.[e] = None.

(** The last [n] elements of a list. *)
Definition lastn {A : Type} (n : nat) (l : list A) : list A :=
  skipn (length l - n) l.

Section Gershgorin.
Local Open Scope Q_scope.

(** The nonzeros of column [cc]. *)
Definition column (H : DMatrix Q) (cc : nat) : list nat :=
  seq (colind_at H cc) (colind_at H (cc + 1) - colind_at H cc).

(** The entry in row [i] and column [j] of the matrix that [H] stores:
    the stored value, or zero where the pattern has no nonzero. *)
Definition elem (H : DMatrix Q) (i j : nat) : Q :=
  match find (fun el => Nat.eqb (row_at H el) i) (column H j) with
  | Some el => (data H).[el]
  | None => 0
  end.

(** [f 0 + ... + f (n-1)]. *)
Fixpoint Qsum (f : nat -> Q) (n : nat) : Q :=
  match n with
  | O => 0
  | S k => Qsum f k + f k
  end.

(** The value that the inner loop of [getRegularization] computes for
    column [cc]. *)
Definition column_bound (H : DMatrix Q) (cc : nat) : Q :=
  fold_left (fun mineig el =>
               if Nat.eqb (row_at H el) cc then mineig + (data H).[el]
               else mineig - Qabs (data H).[el])
            (column H cc) 0.

(** The Gershgorin bound of row [i]: [H[i,i] - sum_{j<>i} |H[i,j]|]. *)
Definition row_bound (H : DMatrix Q) (i : nat) : Q :=
  elem H i i - Qsum (fun j => if Nat.eqb j i then 0 else Qabs (elem H i j)) (size2 (sparsity H)).

(** A square matrix in compressed column storage: the column offsets
    increase from one column to the next and stay within the nonzeros;
    the rows of one column are distinct and within the matrix. *)
Record well_formed (H : DMatrix Q) : Prop := {
  wf_square : size1 (sparsity H) = size2 (sparsity H);
  wf_colind : forall cc, (cc < size2 (sparsity H))%nat ->
                (colind_at H cc <= colind_at H (cc + 1))%nat;
  wf_nnz : (colind_at H (size2 (sparsity H)) <= length (data H))%nat;
  wf_rows : forall cc, (cc < size2 (sparsity H))%nat ->
              NoDup (map (row_at H) (column H cc));
  wf_range : forall cc el, (cc < size2 (sparsity H))%nat -> In el (column H cc) ->
               (row_at H el < size1 (sparsity H))%nat
}.

(** Every diagonal entry is a nonzero of the pattern, as for the pattern
    [H_sparsity + Sparsity::diag(nx_)] that [init] gives to [Bk_]. *)
Definition diagonal_stored (H : DMatrix Q) : Prop :=
  forall cc, (cc < size2 (sparsity H))%nat ->
    exists el, In el (column H cc) /\ row_at H el = cc.

Definition symmetric (H : DMatrix Q) : Prop :=
  forall i j, (i < size2 (sparsity H))%nat -> (j < size2 (sparsity H))%nat ->
    elem H i j == elem H j i.

(** The Hessian as [eval_h] leaves it when regularization is enabled. *)
Definition regularized (H : DMatrix Q) : DMatrix Q :=
  let reg := getRegularization H in
  if (s0 <? reg)%S then regularize H reg else H.

End Gershgorin.

(** ** Concrete problems

    A one-variable problem without constraints, [min x^2], with the exact
    Hessian and a QP port that returns the Newton step, and variations of
    its ports and options used as inputs below. *)
Module Ex.
Local Open Scope Q_scope.

Definition mat1 {R : Type} (a : R) : DMatrix R :=
  {| sparsity := {| size1 := 1; size2 := 1; colind := [0; 1]%nat; row := [0%nat] |};
     data := [a] |}.

Definition mat0 {R : Type} : DMatrix R :=
  {| sparsity := {| size1 := 0; size2 := 1; colind := [0; 0]%nat; row := [] |};
     data := [] |}.

Definition cfg (max_iter max_iter_ls : Z) (memsize : nat) : Config Q :=
  {| max_iter_ := max_iter; max_iter_ls_ := max_iter_ls;
     c1_ := 1 # 10000; beta_ := 1 # 2;
     merit_memsize_ := memsize; lbfgs_memory_ := 10;
     tol_pr_ := 1 # 1000000; tol_du_ := 1 # 1000000;
     regularize_ := false; exact_hessian_ := true;
     min_step_size_ := 0;
     nx_ := 1; ng_ := 0 |}.

Definition ports (objective : Q -> outcome Q) (dual : Q)
    (cb : option (Outputs Q -> outcome Z)) : Ports Q :=
  {| nlp_ := fun x => match objective x.[0] with
                      | Returns f => Returns (f, [])
                      | Throws e => Throws e
                      end;
     gradF := fun x => Returns ([2 * x.[0]], x.[0] * x.[0]);
     jacG := fun _ => Throws CasadiException;
     hessLag := fun _ _ _ => Returns (mat1 2);
     qpsol_ := fun H0 g _ _ _ _ => Returns ([- g.[0] / (data H0).[0]], [dual], []);
     fcallback_ := cb |}.

Definition square (x : Q) : outcome Q := Returns (x * x).

Definition inputs : Inputs Q :=
  {| in_x0 := [1]; in_lbx := [-10]; in_ubx := [10]; in_lbg := []; in_ubg := [];
     in_lam_x0 := [0]; in_lam_g0 := [] |}.

(** The members as [init] leaves them. *)
Definition members : State Q :=
  {| x_ := [0]; x_cand_ := [0]; x_old_ := [0]; mu_ := []; mu_x_ := [0];
     gLag_ := [0]; gLag_old_ := [0]; gk_ := []; gk_cand_ := [];
     fk_ := 0; gf_ := [0]; Bk_ := mat1 0; Jk_ := mat0;
     qp_LBA_ := []; qp_UBA_ := []; qp_LBX_ := [0]; qp_UBX_ := [0];
     dx_ := [0]; qp_DUAL_X_ := [0]; qp_DUAL_A_ := [];
     merit_mem_ := []; sigma_ := 0; reg_ := 0;
     iter := 0; ls_iter := 0; ls_success := true; t := 0;
     output := {| out_x := [0]; out_f := [0]; out_g := []; out_lam_x := [0];
                  out_lam_g := []; out_lam_p := [] |};
     return_status := None; trace := [] |}.

(** The members at the top of the first pass of the loop. *)
Definition started : State Q :=
  Eval vm_compute in
    match prepare (cfg 50 3 4) (ports square 0 None) inputs members with
    | Ok st => st
    | _ => members
    end.


(** An objective whose evaluation fails with a [CasadiException] at
    [x = 0], the first trial point of the line search from [x = 1], is
    large at the second, [x = 1/2], and small elsewhere. *)
Definition failing_objective (x : Q) : outcome Q :=
  if Qeq_bool x 0 then Throws CasadiException
  else if Qeq_bool x (1 # 2) then Returns 10
  else Returns (x * x).

(** A symmetric 2 x 2 matrix with Gershgorin bounds [1 - 3] and [2 - 3]. *)
Definition indefinite : DMatrix Q :=
  {| sparsity := {| size1 := 2; size2 := 2; colind := [0; 2; 4]%nat;
                    row := [0; 1; 0; 1]%nat |};
     data := [1; 3; 3; 2] |}.

(** A symmetric 2 x 2 matrix whose pattern has no diagonal entry. *)
Definition no_diagonal : DMatrix Q :=
  {| sparsity := {| size1 := 2; size2 := 2; colind := [0; 1; 2]%nat;
                    row := [1; 0]%nat |};
     data := [1; 1] |}.

(** The BFGS update at [x = x_old], in binary64. *)
Definition bfgs_at_rest : DMatrix float :=
  bfgs (mat1 1%float) [0%float] [0%float] [1%float] [0%float].

End Ex.


(** ** Further notions used in the statements *)

Section ReturnStatus.
Context {R : Type} `{Scalar R}.
Variable cfg : Config R.
Variable P : Ports R.
Variable inp : Inputs R.
Local Open Scope scalar_scope.

(** The test "pr_inf < tol_pr_ && gLag_norminf < tol_du_" at a state. *)
Definition within_tolerances (st : State R) : bool :=
  (primalInfeasibility (x_ st) (in_lbx inp) (in_ubx inp) (gk_ st) (in_lbg inp) (in_ubg inp)
     <? tol_pr_ cfg) && (norm_inf (gLag_ st) <? tol_du_ cfg).

(** What the return status says about the state that carries it. *)
Definition status_justified (st : State R) : Prop :=
  match return_status st with
  | Some Solve_Succeeded => within_tolerances st = true
  | Some Maximum_Iterations_Exceeded =>
      within_tolerances st = false /\ (max_iter_ cfg <= iter st)%Z
  | Some Search_Direction_Becomes_Too_Small =>
      within_tolerances st = false /\ (0 < iter st < max_iter_ cfg)%Z /\
      (norm_inf (dx_ st) <=? min_step_size_ cfg) = true
  | Some User_Requested_Stop => fcallback_ P <> None
  | None => False
  end.

(** [st1] is [st] but for the output buffers, the trace and the status. *)
Definition outputs_apart (st st1 : State R) : Prop :=
  exists out tr rs, st1 = set_return_status rs (set_trace tr (set_output out st)).

(** [st1] is [st] but for what the line-search loop assigns: the trial
    point, the constraint values at it, the counter, the flag and [t]. *)
Definition trial_apart (st st1 : State R) : Prop :=
  exists xc gc li ok tt,
    st1 = set_t tt (set_ls_success ok (set_ls_iter li (set_gk_cand_ gc (set_x_cand_ xc st)))).


End ReturnStatus.

(** The intermediate values of the BFGS update, as [bfgs] computes them. *)
Section BfgsParts.
Context {R : Type} `{Scalar R}.
Local Open Scope scalar_scope.

Definition bfgs_sk (x x_old : vec R) : vec R := zip_with ssub x x_old.

Definition bfgs_qk (Bk : DMatrix R) (x x_old : vec R) : vec R := mv Bk (bfgs_sk x x_old).

(** [yk] after the damping. *)
Definition bfgs_yk (Bk : DMatrix R) (x x_old gLag gLag_old : vec R) : vec R :=
  let sk := bfgs_sk x x_old in
  let yk := zip_with ssub gLag gLag_old in
  let qk := bfgs_qk Bk x x_old in
  let skBksk := inner_prod sk qk in
  let omega :=
    if inner_prod yk sk <? slit (2 # 10) * inner_prod sk qk
    then slit (8 # 10) * skBksk / (skBksk - inner_prod sk yk)
    else s1 in
  zip_with sadd (map (smul omega) yk) (map (smul (s1 - omega)) qk).

Definition bfgs_theta (Bk : DMatrix R) (x x_old gLag gLag_old : vec R) : R :=
  s1 / inner_prod (bfgs_sk x x_old) (bfgs_yk Bk x x_old gLag gLag_old).

Definition bfgs_phi (Bk : DMatrix R) (x x_old : vec R) : R :=
  s1 / inner_prod (bfgs_qk Bk x x_old) (bfgs_sk x x_old).

End BfgsParts.

Section DenseMatrices.
Local Open Scope Q_scope.

(** Every entry is a nonzero of the pattern, as for [Sparsity::dense]. *)
Definition dense (H : DMatrix Q) : Prop :=
  forall i j, (i < size2 (sparsity H))%nat -> (j < size2 (sparsity H))%nat ->
    exists el, In el (column H j) /\ row_at H el = i.

(** Entry [i] of the product of the stored matrix with [y]. *)
Definition product_entry (H : DMatrix Q) (y : vec Q) (i : nat) : Q :=
  Qsum (fun j => elem H i j * y.[j]) (size2 (sparsity H)).

End DenseMatrices.

(** ** The central differences of casadi/core/derivative.cpp

    The work vector [w] of [CentralDiff::eval] is cut into consecutive
    blocks; a pointer into it is a vector with an offset.  The kernels
    [casadi_copy], [casadi_axpy] and [casadi_scal] belong to the runtime of
    CasADi, outside the files verified here, and are written by the
    contract that their names state: [y[i] = x[i]], [y[i] += alpha * x[i]]
    and [x[i] *= alpha] for [i < n]. *)

Section CentralDifferences.
Context {R : Type} `{Scalar R}.
Local Open Scope scalar_scope.

Definition casadi_copy (x : vec R) (xoff : nat) (n : nat) (y : vec R) (yoff : nat) : vec R :=
  for_range 0 n (fun i y => upd (yoff + i) x.[xoff + i] y) y.

Definition casadi_axpy (n : nat) (alpha : R) (x : vec R) (xoff : nat) (y : vec R)
    (yoff : nat) : vec R :=
  for_range 0 n (fun i y => upd (yoff + i) (y.[yoff + i] + alpha * x.[xoff + i]) y) y.

Definition casadi_scal (n : nat) (alpha : R) (x : vec R) (xoff : nat) : vec R :=
  for_range 0 n (fun i x => upd (xoff + i) (x.[xoff + i] * alpha) x) x.

(** [CentralDiff::perturb]. *)
Definition perturb (h : R) (n_x : nat) (x x_pert v : vec R) : vec R :=
  let x_pert := casadi_copy x 0 n_x x_pert 0 in
  let x_pert := casadi_axpy n_x (h / slit 2) v 0 x_pert 0 in
  let x_pert := casadi_copy x 0 n_x x_pert n_x in
  let x_pert := casadi_axpy n_x (sopp h / slit 2) v 0 x_pert n_x in
  x_pert.

(** [CentralDiff::finalize]; [h_] is the member of the object. *)
Definition finalize (h_ : R) (n_f : nat) (f f_pert Jv : vec R) : vec R :=
  let Jv := casadi_copy f_pert 0 n_f Jv 0 in
  let Jv := casadi_axpy n_f (sopp s1) f_pert n_f Jv 0 in
  let Jv := casadi_scal n_f (s1 / h_) Jv 0 in
  Jv.

(** The [n] entries that a callee reads through the pointer [w + off]. *)
Definition block (w : vec R) (off n : nat) : vec R :=
  map (fun i => w.[off + i]) (seq 0 n).

(** The point that lies [c] along the direction [v] from [x]. *)
Definition along (n_x : nat) (x v : vec R) (c : R) : vec R :=
  map (fun i => x.[i] + c * v.[i]) (seq 0 n_x).

End CentralDifferences.

(** The names of the inputs and outputs of the function that a
    [CentralDiff] differentiates; a lookup outside the list fails. *)
Record Differentiated : Type := {
  name_in_ : list String.string;
  name_out_ : list String.string
}.

Section CentralDiffNames.
Variable derivative_of_ : Differentiated.

Definition n_in : Z := Z.of_nat (length (name_in_ derivative_of_)).
Definition n_out : Z := Z.of_nat (length (name_out_ derivative_of_)).

Definition lookup (l : list String.string) (i : Z) : option String.string :=
  if (i <? 0)%Z then None else nth_error l (Z.to_nat i).

Definition name_in (i : Z) : option String.string := lookup (name_in_ derivative_of_) i.
Definition name_out (i : Z) : option String.string := lookup (name_out_ derivative_of_) i.

(** [CentralDiff::get_n_in], [get_n_out], [get_name_in], [get_name_out]. *)
Definition get_n_in : Z := (n_in + n_out + n_in)%Z.

Definition get_n_out : Z := n_out.

Definition get_name_in (i : Z) : option String.string :=
  if (i <? n_in)%Z then name_in i
  else if (i <? n_in + n_out)%Z then
    option_map (String.append "out_"%string) (name_out (i - n_in))
  else
    option_map (String.append "fwd_"%string) (name_in (i - n_in - n_out)).

Definition get_name_out (i : Z) : option String.string :=
  option_map (String.append "fwd_"%string) (name_out i).

End CentralDiffNames.

(** ** Further instances *)

Module Ex2.
Local Open Scope Q_scope.

(** The ports of [Ex.ports] with a Jacobian port that returns. *)
Definition ports (objective : Q -> outcome Q) (cb : option (Outputs Q -> outcome Z)) :
    Ports Q :=
  {| nlp_ := nlp_ (Ex.ports objective 0 cb);
     gradF := gradF (Ex.ports objective 0 cb);
     jacG := fun _ => Returns (Ex.mat0, []);
     hessLag := hessLag (Ex.ports objective 0 cb);
     qpsol_ := qpsol_ (Ex.ports objective 0 cb);
     fcallback_ := cb |}.

(** The state at the line search of the first iteration: the step of the
    QP from [x = 1] and the first merit value. *)
Definition at_line_search : State Q :=
  set_dx_ [-1] (push_merit (Ex.cfg 50 3 4) 1 Ex.started).


(** The state at the top of an iteration with two values in the merit
    memory, which is full when [merit_memsize_] is 2. *)
Definition full_memory : State Q :=
  set_merit_mem_ [7; 5] Ex.started.

(** A dense symmetric 2 x 2 matrix with Gershgorin bounds [4 - 1] and
    [3 - 1]. *)
Definition dominant : DMatrix Q :=
  {| sparsity := sparsity Ex.indefinite; data := [4; 1; 1; 3] |}.

(** A step of the iterate and a small change of the gradient of the
    Lagrangian, for which the BFGS update is damped. *)
Definition x : vec Q := [1; 0].
Definition x_old : vec Q := [0; 0].
Definition gLag : vec Q := [1 # 10; 0].
Definition gLag_old : vec Q := [0; 0].

(** A dense symmetric 2 x 2 matrix in binary64,
    [[2^-53, 1 + 2^-52], [1 + 2^-52, 4]], in the storage of
    [Ex.indefinite]. *)
Definition rounded : DMatrix float :=
  {| sparsity := sparsity Ex.indefinite;
     data := [0x1p-53; 0x1.0000000000001p+0; 0x1.0000000000001p+0; 4]%float |}.


(** The square of the first argument, as a function of vectors. *)
Definition square (x : vec Q) : vec Q := [x.[0] * x.[0]].

End Ex2.

(** * Properties *)

Unset Implicit Arguments.

(** ** The callback block *)

Section CallbackBlock.
Context {R : Type} `{Scalar R}.
Variable P : Ports R.

Lemma outputs_apart_refl (st : State R) : outputs_apart st st.
Proof. destruct st. eexists _, _, _. reflexivity. Qed.

Lemma outputs_apart_set_output (st a : State R) (out : Outputs R) :
  outputs_apart st a -> outputs_apart st (set_output out a).
Proof. intros (o & tr & rs & ->). exists out, tr, rs. destruct st. reflexivity. Qed.

Lemma outputs_apart_set_trace (st a : State R) (tr : list Event) :
  outputs_apart st a -> outputs_apart st (set_trace tr a).
Proof. intros (o & tr0 & rs & ->). exists o, tr, rs. destruct st. reflexivity. Qed.

Lemma outputs_apart_set_return_status (st a : State R) (rs : option Status) :
  outputs_apart st a -> outputs_apart st (set_return_status rs a).
Proof. intros (o & tr & rs0 & ->). exists o, tr, rs. destruct st. reflexivity. Qed.

Lemma outputs_apart_setNZ (st a : State R) (o : NlpsolOutput) (v : vec R) (b : bool) :
  outputs_apart st a -> outputs_apart st (if b then setNZ o v a else a).
Proof.
  intros Ha. destruct b; [|exact Ha]. unfold setNZ, log.
  apply outputs_apart_set_trace. apply outputs_apart_set_output. exact Ha.
Qed.

Lemma outputs_apart_set_scalar (st a : State R) (o : NlpsolOutput) (v : R) (b : bool) :
  outputs_apart st a -> outputs_apart st (if b then set_scalar o v a else a).
Proof.
  intros Ha. destruct b; [|exact Ha]. unfold set_scalar, log.
  apply outputs_apart_set_trace. apply outputs_apart_set_output. exact Ha.
Qed.

(** The callback block changes the output buffers, the trace and the
    return status, and nothing else; it leaves the loop exactly when it
    sets the status [User_Requested_Stop]. *)
Lemma callback_block_result (cb : Outputs R -> outcome Z) (st st1 : State R) (fl : Flow) :
  callback_block cb st = Ok (fl, st1) ->
  exists stc,
    outputs_apart st stc /\
    (fl = Break /\ st1 = leave User_Requested_Stop stc \/ fl = Continue /\ st1 = stc).
Proof.
  unfold callback_block. cbv zeta.
  match goal with |- context [log CallCallback ?a] => set (stc := log CallCallback a) end.
  assert (Hlog : outputs_apart st stc).
  { subst stc. unfold log. apply outputs_apart_set_trace.
    repeat apply outputs_apart_setNZ. apply outputs_apart_set_scalar.
    apply outputs_apart_refl. }
  clearbody stc.
  destruct (call _) as [ret| | |]; cbn [bind]; try discriminate.
  destruct (negb (ret =? 0)%Z); intros E; injection E as <- <-; exists stc; auto.
Qed.

Lemma outputs_apart_leave (st a : State R) (s : Status) :
  outputs_apart st a -> outputs_apart st (leave s a).
Proof.
  intros Ha. unfold leave, log. apply outputs_apart_set_trace.
  apply outputs_apart_set_return_status. exact Ha.
Qed.

Lemma run_callback_shape (st st1 : State R) (fl : Flow) :
  run_callback P st = Ok (fl, st1) -> outputs_apart st st1.
Proof.
  unfold run_callback. destruct (fcallback_ P) as [cb|].
  - intros E. destruct (callback_block_result _ _ _ _ E) as (stc & Hc & [(_ & ->)|(_ & ->)]).
    + apply outputs_apart_leave. exact Hc.
    + exact Hc.
  - intros E. inversion E; subst. apply outputs_apart_refl.
Qed.

Lemma run_callback_break (st st1 : State R) :
  run_callback P st = Ok (Break, st1) ->
  return_status st1 = Some User_Requested_Stop /\ fcallback_ P <> None.
Proof.
  unfold run_callback. destruct (fcallback_ P) as [cb|]; [|discriminate].
  intros E. destruct (callback_block_result _ _ _ _ E) as (stc & Hc & [(_ & ->)|(Hf & _)]).
  - split; [reflexivity|discriminate].
  - discriminate.
Qed.

(** The fields that the statements below read are those of [st]. *)
Lemma outputs_apart_fields (st st1 : State R) :
  outputs_apart st st1 ->
  x_ st1 = x_ st /\ gk_ st1 = gk_ st /\ gLag_ st1 = gLag_ st /\ dx_ st1 = dx_ st /\
  iter st1 = iter st /\ mu_ st1 = mu_ st /\ mu_x_ st1 = mu_x_ st /\ fk_ st1 = fk_ st /\
  sigma_ st1 = sigma_ st /\ merit_mem_ st1 = merit_mem_ st.
Proof. intros (o & tr & rs & ->). repeat split. Qed.

End CallbackBlock.

(** ** Control flow, for every model of the scalars *)

Section Control.
Context {R : Type} `{Scalar R}.
Variable cfg : Config R.
Variable P : Ports R.
Variable inp : Inputs R.
Local Open Scope scalar_scope.


(** Whatever the callback does, a pass that starts within the tolerances
    leaves the loop, and never with [Maximum_Iterations_Exceeded]. *)
Lemma converged_pass_leaves_loop :
  forall (ls_fuel : nat) (st st' : State R) (fl : Flow),
    (primalInfeasibility (x_ st) (in_lbx inp) (in_ubx inp) (gk_ st) (in_lbg inp) (in_ubg inp)
       <? tol_pr_ cfg) && (norm_inf (gLag_ st) <? tol_du_ cfg) = true ->
    loop_pass cfg P inp ls_fuel st = Ok (fl, st') ->
    fl = Break /\
    (return_status st' = Some Solve_Succeeded \/
     return_status st' = Some User_Requested_Stop).
Proof.
  intros ls_fuel st st' fl Hc. unfold loop_pass.
  destruct (run_callback P st) as [[fl1 st1]| | |] eqn:Ec; cbn [bind]; try discriminate.
  destruct fl1.
  - unfold convergence_check. rewrite Hc. intros E. inversion E; subst.
    split; [reflexivity|]. left. reflexivity.
  - intros E. inversion E; subst. split; [reflexivity|]. right.
    apply (run_callback_break P) in Ec. apply Ec.
Qed.

End Control.


(** ** Frame properties of the steps of an iteration *)

Section Frame.
Context {R : Type} `{Scalar R}.
Variable cfg : Config R.
Variable P : Ports R.
Variable inp : Inputs R.
Local Open Scope scalar_scope.

Lemma kept_refl (st : State R) : kept st st.
Proof. repeat split. Qed.

Lemma kept_trans (a b c : State R) : kept a b -> kept b c -> kept a c.
Proof.
  unfold kept. intros (A1 & A2 & A3 & A4 & A5 & A6 & A7 & A8 & A9)
                      (B1 & B2 & B3 & B4 & B5 & B6 & B7 & B8 & B9).
  repeat split; congruence.
Qed.

Lemma line_search_loop_kept (fuel : nat) (L1dir : R) :
  forall st st', line_search_loop cfg P inp fuel L1dir st = Ok st' -> kept st st'.
Proof.
  induction fuel as [|fuel IH]; intros st st' E; [discriminate|].
  cbn [line_search_loop] in E.
  match type of E with
  | match ?e with _ => _ end = _ => destruct e as [[fk gk]|[|]| |]; try discriminate
  end.
  - match type of E with
    | match ?e with _ => _ end = _ => destruct e as [meritmax|]; try discriminate
    end.
    repeat match type of E with
    | (if ?b then _ else _) = _ => destruct b
    end.
    + inversion E; subst. repeat split.
    + inversion E; subst. repeat split.
    + apply IH in E. eapply kept_trans; [|exact E]. repeat split.
  - apply IH in E. eapply kept_trans; [|exact E]. repeat split.
Qed.

Lemma globalize_kept (ls_fuel : nat) (L1dir : R) (st st' : State R) :
  globalize cfg P inp ls_fuel L1dir st = Ok st' -> kept st st'.
Proof.
  unfold globalize. destruct (max_iter_ls_ cfg >? 0)%Z.
  - destruct (line_search_loop _ _ _ _ _ _) as [st1| | |] eqn:E; try discriminate.
    cbn [bind]. intros E'. inversion E'; subst. apply line_search_loop_kept in E.
    eapply kept_trans; [|eapply kept_trans; [exact E|]]; repeat split.
  - intros E'. inversion E'; subst. repeat split.
Qed.

Lemma update_hessian_kept (st st' : State R) :
  update_hessian cfg P st = Ok st' -> kept st st'.
Proof.
  unfold update_hessian. destruct (negb (exact_hessian_ cfg)).
  - destruct (lbfgs_memory_ cfg =? 0)%Z; [discriminate|].
    intros E. inversion E; subst.
    destruct (Z.rem (iter st) (lbfgs_memory_ cfg) =? 0)%Z; repeat split.
  - destruct (eval_h _ _ _ _ _ _) as [[Bk reg]| | |]; try discriminate.
    cbn [bind]. intros E. inversion E; subst. repeat split.
Qed.

Lemma formulate_and_solve_QP_frame (st st' : State R) :
  formulate_and_solve_QP cfg P inp st = Ok st' ->
  merit_mem_ st' = merit_mem_ st /\ sigma_ st' = sigma_ st /\ iter st' = iter st /\
  output st' = output st /\ trace st' = trace st /\ x_ st' = x_ st /\
  mu_ st' = mu_ st /\ mu_x_ st' = mu_x_ st /\ x_cand_ st' = x_cand_ st /\
  x_old_ st' = x_old_ st.
Proof.
  unfold formulate_and_solve_QP.
  destruct (solve_QP _ _ _ _ _ _ _ _ _ _) as [[[x_opt lx] la]| | |]; try discriminate.
  cbn [bind]. intros E. inversion E; subst. repeat split.
Qed.

(** An iteration that returns went through the QP, the update of the
    merit memory and the globalization; the rest keeps their results. *)
Lemma iteration_inv (ls_fuel : nat) (st st' : State R) :
  iteration cfg P inp ls_fuel st = Ok st' ->
  exists st1 st2,
    formulate_and_solve_QP cfg P inp (set_iter (iter st + 1)%Z st) = Ok st1 /\
    globalize cfg P inp ls_fuel (l1_dir inp (update_sigma st1))
      (push_merit cfg (l1_merit inp (update_sigma st1)) (update_sigma st1)) = Ok st2 /\
    kept st2 st'.
Proof.
  unfold iteration. cbv zeta.
  destruct (formulate_and_solve_QP _ _ _ _) as [st1| | |] eqn:E1; try discriminate.
  cbn [bind].
  destruct (globalize _ _ _ _ _ _) as [st2| | |] eqn:E2; try discriminate.
  cbn [bind].
  destruct (eval_jac_g _ _ _ _ _) as [[gk Jk]| | |]; try discriminate.
  cbn [bind].
  destruct (eval_grad_f _ _) as [[fk gf]| | |]; try discriminate.
  cbn [bind].
  intros E. apply update_hessian_kept in E.
  exists st1, st2. split; [reflexivity|]. split; [exact E2|].
  eapply kept_trans; [|exact E].
  destruct (negb (exact_hessian_ cfg)); repeat split.
Qed.

Lemma update_hessian_same_step (st st' : State R) :
  update_hessian cfg P st = Ok st' -> same_step st st'.
Proof.
  unfold update_hessian. destruct (negb (exact_hessian_ cfg)).
  - destruct (lbfgs_memory_ cfg =? 0)%Z; [discriminate|].
    intros E. inversion E; subst.
    destruct (Z.rem (iter st) (lbfgs_memory_ cfg) =? 0)%Z; repeat split.
  - destruct (eval_h _ _ _ _ _ _) as [[Bk reg]| | |]; try discriminate.
    cbn [bind]. intros E. inversion E; subst. repeat split.
Qed.

(** The evaluations and the Hessian update that follow the globalization
    leave the step as it is. *)
Lemma iteration_step_kept (ls_fuel : nat) (st st' : State R) :
  iteration cfg P inp ls_fuel st = Ok st' ->
  exists st1 st2,
    formulate_and_solve_QP cfg P inp (set_iter (iter st + 1)%Z st) = Ok st1 /\
    globalize cfg P inp ls_fuel (l1_dir inp (update_sigma st1))
      (push_merit cfg (l1_merit inp (update_sigma st1)) (update_sigma st1)) = Ok st2 /\
    kept st2 st' /\ same_step st2 st'.
Proof.
  intros E. destruct (iteration_inv _ _ _ E) as (st1 & st2 & E1 & E2 & K).
  exists st1, st2. split; [exact E1|]. split; [exact E2|]. split; [exact K|].
  revert E. unfold iteration. cbv zeta. rewrite E1. cbn [bind]. rewrite E2. cbn [bind].
  destruct (eval_jac_g _ _ _ _ _) as [[gk Jk]| | |]; try discriminate.
  cbn [bind].
  destruct (eval_grad_f _ _) as [[fk gf]| | |]; try discriminate.
  cbn [bind].
  intros E. apply update_hessian_same_step in E.
  destruct E as (A1 & A2 & A3 & A4 & A5 & A6 & A7 & A8).
  unfold same_step. rewrite A1, A2, A3, A4, A5, A6, A7, A8.
  destruct (negb (exact_hessian_ cfg)); repeat split.
Qed.

End Frame.

(** ** The merit memory *)

Section MeritMemory.
Context {R : Type} `{Scalar R}.
Variable cfg : Config R.
Variable P : Ports R.
Variable inp : Inputs R.

Lemma push_merit_mem (L : R) (st : State R) :
  (length (merit_mem_ st) <= merit_memsize_ cfg)%nat ->
  merit_mem_ (push_merit cfg L st) = lastn (merit_memsize_ cfg) (merit_mem_ st ++ [L]).
Proof.
  intros Hb. unfold push_merit, lastn. cbn [merit_mem_ set_merit_mem_].
  rewrite length_app. cbn [length].
  destruct (Nat.ltb_spec (merit_memsize_ cfg) (length (merit_mem_ st) + 1)) as [Hlt|Hge];
    cbn [merit_mem_ set_merit_mem_].
  - replace (length (merit_mem_ st) + 1 - merit_memsize_ cfg)%nat with 1%nat by lia.
    reflexivity.
  - replace (length (merit_mem_ st) + 1 - merit_memsize_ cfg)%nat with 0%nat by lia.
    reflexivity.
Qed.

Lemma lastn_length {A : Type} (n : nat) (l : list A) : (length (lastn n l) <= n)%nat.
Proof. unfold lastn. rewrite length_skipn. lia. Qed.

Lemma push_merit_nonempty (L : R) (st : State R) :
  (1 <= merit_memsize_ cfg)%nat -> merit_mem_ (push_merit cfg L st) <> [].
Proof.
  intros Hm. unfold push_merit. cbn [merit_mem_ set_merit_mem_].
  rewrite length_app. cbn [length].
  destruct (Nat.ltb_spec (merit_memsize_ cfg) (length (merit_mem_ st) + 1)) as [Hlt|Hge];
    cbn [merit_mem_ set_merit_mem_].
  - destruct (merit_mem_ st) as [|a [|b l]]; cbn in *; try discriminate. lia.
  - destruct (merit_mem_ st); discriminate.
Qed.

Lemma eval_f_cases (x : vec R) :
  (exists e, nlp_ P x = Throws e /\ eval_f P x = Exn e) \/ exists f, eval_f P x = Ok f.
Proof.
  unfold eval_f. destruct (nlp_ P x) as [[f g]|e]; cbn; eauto.
Qed.

Lemma eval_g_cases (x g : vec R) :
  (exists e, nlp_ P x = Throws e /\ eval_g cfg P x g = Exn e) \/
  exists g', eval_g cfg P x g = Ok g'.
Proof.
  unfold eval_g. destruct (Nat.eqb (ng_ cfg) 0); [eauto|].
  destruct (nlp_ P x) as [[f g']|e]; cbn; eauto.
Qed.

Lemma line_search_loop_defined (fuel : nat) (L1dir : R) :
  forall st, merit_mem_ st <> [] -> line_search_loop cfg P inp fuel L1dir st <> Undef.
Proof.
  induction fuel as [|fuel IH]; intros st Hne; [discriminate|].
  cbn [line_search_loop].
  match goal with |- context [bind (eval_f ?p ?x) _] =>
    destruct (eval_f_cases x) as [(e & _ & Ef)|[fk Ef]]; rewrite Ef end; cbn [bind].
  - destruct e; [apply IH; exact Hne|discriminate].
  - match goal with |- context [bind (eval_g ?c ?p ?x ?g) _] =>
      destruct (eval_g_cases x g) as [(e & _ & Eg)|[gk Eg]]; rewrite Eg end; cbn [bind].
    + destruct e; [apply IH; exact Hne|discriminate].
    + cbn [merit_mem_ set_ls_iter set_gk_cand_ set_x_cand_].
      destruct (merit_mem_ st) as [|a l] eqn:Em; [contradiction|].
      cbn [max_element].
      repeat match goal with
      | |- (if ?b then _ else _) <> _ => destruct b
      end; try discriminate.
      apply IH. cbn. rewrite Em. discriminate.
Qed.

Lemma globalize_defined (ls_fuel : nat) (L1dir : R) (st : State R) :
  merit_mem_ st <> [] -> globalize cfg P inp ls_fuel L1dir st <> Undef.
Proof.
  intros Hne. unfold globalize. destruct (max_iter_ls_ cfg >? 0)%Z; [|discriminate].
  destruct (line_search_loop _ _ _ _ _ _) as [st2| | |] eqn:E; cbn [bind]; try discriminate.
  exfalso. revert E. apply line_search_loop_defined. exact Hne.
Qed.

Lemma iteration_defined (ls_fuel : nat) (st : State R) :
  (1 <= merit_memsize_ cfg)%nat ->
  exact_hessian_ cfg = true \/ lbfgs_memory_ cfg <> 0%Z ->
  iteration cfg P inp ls_fuel st <> Undef.
Proof.
  intros Hm Hh. unfold iteration. cbv zeta.
  destruct (formulate_and_solve_QP _ _ _ _) as [st1| | |] eqn:E1; cbn [bind]; try discriminate.
  2:{ unfold formulate_and_solve_QP, solve_QP, call in E1.
    destruct (qpsol_ P _ _ _ _ _ _) as [[[? ?] ?]|]; discriminate. }
  destruct (globalize _ _ _ _ _ _) as [st2| | |] eqn:E2; cbn [bind]; try discriminate.
  2:{ exfalso. revert E2. apply globalize_defined. apply push_merit_nonempty. exact Hm. }
  destruct (eval_jac_g _ _ _ _ _) as [[gk Jk]| | |] eqn:E3; cbn [bind]; try discriminate.
  2:{ unfold eval_jac_g, call in E3. destruct (Nat.eqb (ng_ cfg) 0); [discriminate|].
      destruct (jacG P _) as [[? ?]|]; discriminate. }
  destruct (eval_grad_f _ _) as [[fk gf]| | |] eqn:E4; cbn [bind]; try discriminate.
  2:{ unfold eval_grad_f, call in E4. destruct (gradF P _) as [[? ?]|]; discriminate. }
  unfold update_hessian. destruct (exact_hessian_ cfg); cbn [negb].
  2:{ destruct Hh as [Hh|Hh]; [discriminate|].
      destruct (Z.eqb_spec (lbfgs_memory_ cfg) 0) as [E0|_]; [contradiction|discriminate]. }
  unfold eval_h, call. destruct (hessLag P _ _ _); cbn [bind]; [|discriminate].
  destruct (regularize_ cfg); [|discriminate].
  match goal with |- context [if ?b then _ else _] => destruct b end; discriminate.
Qed.

Lemma run_callback_merit_mem (st st' : State R) (fl : Flow) :
  run_callback P st = Ok (fl, st') -> merit_mem_ st' = merit_mem_ st.
Proof.
  intros E. apply run_callback_shape in E. apply outputs_apart_fields in E. apply E.
Qed.

Lemma formulate_and_solve_QP_iterate (st st' : State R) :
  formulate_and_solve_QP cfg P inp st = Ok st' ->
  fk_ st' = fk_ st /\ gk_ st' = gk_ st /\ x_ st' = x_ st.
Proof.
  unfold formulate_and_solve_QP.
  destruct (solve_QP _ _ _ _ _ _ _ _ _ _) as [[[x_opt lx] la]| | |]; try discriminate.
  cbn [bind]. intros E. inversion E; subst. repeat split.
Qed.

(** C5. One iteration appends the current L1 merit value, the objective
    plus the updated penalty parameter times the primal infeasibility at
    the current iterate, to the memory and keeps the last
    [merit_memsize_] values: the memory never holds more than
    [merit_memsize_] entries, and the entry dropped is the oldest one.
    The memory is empty when the loop starts, so that the bound holds at
    every iteration of a solve. *)
Theorem merit_history_bounded_fifo :
  (forall st st', prepare cfg P inp st = Ok st' -> merit_mem_ st' = []) /\
  (forall ls_fuel st st',
      (length (merit_mem_ st) <= merit_memsize_ cfg)%nat ->
      iteration cfg P inp ls_fuel st = Ok st' ->
      merit_mem_ st'
      = lastn (merit_memsize_ cfg)
          (merit_mem_ st
           ++ [(fk_ st + sigma_ st' * primalInfeasibility (x_ st) (in_lbx inp) (in_ubx inp)
                                        (gk_ st) (in_lbg inp) (in_ubg inp))%S]) /\
      (length (merit_mem_ st') <= merit_memsize_ cfg)%nat) /\
  (forall fuel ls_fuel st st',
      evalD cfg P inp fuel ls_fuel st = Ok st' ->
      (length (merit_mem_ st') <= merit_memsize_ cfg)%nat).
Proof.
  assert (Hprep : forall st st', prepare cfg P inp st = Ok st' -> merit_mem_ st' = []).
  2: assert (Hiter : forall ls_fuel st st',
      (length (merit_mem_ st) <= merit_memsize_ cfg)%nat ->
      iteration cfg P inp ls_fuel st = Ok st' ->
      merit_mem_ st'
      = lastn (merit_memsize_ cfg)
          (merit_mem_ st
           ++ [(fk_ st + sigma_ st' * primalInfeasibility (x_ st) (in_lbx inp) (in_ubx inp)
                                        (gk_ st) (in_lbg inp) (in_ubg inp))%S]) /\
      (length (merit_mem_ st') <= merit_memsize_ cfg)%nat).
  3:{ split; [exact Hprep|]. split; [exact Hiter|].
      intros fuel ls_fuel st st'. unfold evalD. cbv zeta.
      destruct (prepare _ _ _ _) as [st1| | |] eqn:E1; cbn [bind]; try discriminate.
      destruct (main_loop _ _ _ _ _ _) as [st2| | |] eqn:E2; cbn [bind]; try discriminate.
      intros E. inversion E; subst; clear E.
      apply Hprep in E1.
      change (merit_mem_ (save_results st2)) with (merit_mem_ st2).
      assert (Hb : (length (merit_mem_ st1) <= merit_memsize_ cfg)%nat)
        by (rewrite E1; cbn; lia).
      clear E1. revert st1 Hb E2.
      induction fuel as [|fuel IH]; intros st1 Hb E2; [discriminate|].
      cbn [main_loop] in E2. unfold loop_pass in E2.
      destruct (run_callback P st1) as [[fl1 st3]| | |] eqn:Ec; cbn [bind] in E2;
        try discriminate.
      apply run_callback_merit_mem in Ec.
      destruct fl1.
      - destruct (convergence_check _ _ _ _ _) as [s|]; cbn [bind] in E2.
        + inversion E2; subst. cbn. rewrite Ec. exact Hb.
        + destruct (iteration _ _ _ _ _) as [st4| | |] eqn:Ei; cbn [bind] in E2;
            try discriminate.
          apply Hiter in Ei; [|rewrite Ec; exact Hb].
          apply (IH st4); [apply Ei|exact E2].
      - cbn [bind] in E2. inversion E2; subst. rewrite Ec. exact Hb. }
  - intros st st'. unfold prepare. cbv zeta.
    destruct (eval_jac_g _ _ _ _ _) as [[gk Jk]| | |]; cbn [bind]; try discriminate.
    destruct (eval_grad_f _ _) as [[fk gf]| | |]; cbn [bind]; try discriminate.
    destruct (exact_hessian_ cfg).
    + destruct (eval_h _ _ _ _ _ _) as [[Bk reg]| | |]; cbn [bind]; try discriminate.
      intros E. inversion E. reflexivity.
    + cbn [bind]. intros E. inversion E. reflexivity.
  - intros ls_fuel st st' Hb E.
    apply iteration_inv in E. destruct E as (st1 & st2 & E1 & E2 & K).
    pose proof (formulate_and_solve_QP_iterate _ _ E1) as (F1 & G1 & X1).
    apply formulate_and_solve_QP_frame in E1. destruct E1 as (M1 & _).
    apply globalize_kept in E2.
    destruct (kept_trans _ _ _ E2 K) as (M & S & _).
    assert (Hmem : merit_mem_ st'
                   = lastn (merit_memsize_ cfg)
                       (merit_mem_ st ++ [l1_merit inp (update_sigma st1)])).
    { rewrite M. rewrite push_merit_mem.
      - cbn [update_sigma merit_mem_ set_sigma_]. rewrite M1. reflexivity.
      - cbn [update_sigma merit_mem_ set_sigma_]. rewrite M1. exact Hb. }
    assert (Hval : l1_merit inp (update_sigma st1)
                   = (fk_ st + sigma_ st' * primalInfeasibility (x_ st) (in_lbx inp)
                                              (in_ubx inp) (gk_ st) (in_lbg inp)
                                              (in_ubg inp))%S).
    { rewrite S.
      replace (sigma_ (push_merit cfg (l1_merit inp (update_sigma st1)) (update_sigma st1)))
        with (sigma_ (update_sigma st1))
        by (unfold push_merit;
            match goal with |- context [if ?b then _ else _] => destruct b end;
            reflexivity).
      unfold l1_merit. cbv zeta.
      change (fk_ (update_sigma st1)) with (fk_ st1).
      change (x_ (update_sigma st1)) with (x_ st1).
      change (gk_ (update_sigma st1)) with (gk_ st1).
      rewrite F1, G1, X1. reflexivity. }
    rewrite Hval in Hmem.
    split.
    + exact Hmem.
    + rewrite Hmem. apply lastn_length.
Qed.

(** C10 (as amended). When [merit_memsize_] is at least one, the memory
    is not empty after the current merit value is stored, so that the
    maximum taken by the acceptance test exists at every trial: the
    globalization that follows never runs into the undefined dereference,
    and neither does an iteration (whose BFGS update, with
    [exact_hessian_] off, divides by [lbfgs_memory_]). *)
Theorem merit_history_nonempty_at_line_search :
  (1 <= merit_memsize_ cfg)%nat ->
  (forall L st, max_element (merit_mem_ (push_merit cfg L st)) <> None) /\
  (exact_hessian_ cfg = true \/ lbfgs_memory_ cfg <> 0%Z ->
   forall ls_fuel st, iteration cfg P inp ls_fuel st <> Undef) /\
  (forall ls_fuel L1dir L st,
     globalize cfg P inp ls_fuel L1dir (push_merit cfg L st) <> Undef).
Proof.
  intros Hm. split; [|split].
  - intros L st. pose proof (push_merit_nonempty L st Hm) as Hne.
    destruct (merit_mem_ (push_merit cfg L st)); [contradiction|discriminate].
  - intros Hh ls_fuel st. apply iteration_defined; assumption.
  - intros ls_fuel L1dir L st. apply globalize_defined.
    apply push_merit_nonempty. exact Hm.
Qed.

End MeritMemory.

Lemma merit_history_bounded_fifo_witness :
  merit_mem_ Ex2.full_memory = [7; 5]%Q /\
  exists st',
    iteration (Ex.cfg 50 3 2) (Ex.ports Ex.square 3 None) Ex.inputs 5 Ex2.full_memory
    = Ok st' /\
    merit_mem_ st'
    = [5%Q;
       sadd (fk_ Ex2.full_memory)
         (smul (sigma_ st')
            (primalInfeasibility (x_ Ex2.full_memory) (in_lbx Ex.inputs) (in_ubx Ex.inputs)
               (gk_ Ex2.full_memory) (in_lbg Ex.inputs) (in_ubg Ex.inputs)))] /\
    (length (merit_mem_ st') <= 2)%nat.
Proof.
  split; [reflexivity|].
  destruct (iteration (Ex.cfg 50 3 2) (Ex.ports Ex.square 3 None) Ex.inputs 5
              Ex2.full_memory) as [st'| | |] eqn:E; try (vm_compute in E; discriminate).
  exists st'. split; [reflexivity|].
  exact (proj1 (proj2 (merit_history_bounded_fifo (Ex.cfg 50 3 2)
                         (Ex.ports Ex.square 3 None) Ex.inputs)) 5%nat Ex2.full_memory st'
           ltac:(cbn; lia) E).
Defined.

Lemma merit_history_nonempty_at_line_search_witness :
  iteration (Ex.cfg 50 3 1) (Ex.ports Ex.square 0 None) Ex.inputs 5 Ex.started <> Undef.
Proof.
  apply (proj1 (proj2 (merit_history_nonempty_at_line_search (Ex.cfg 50 3 1)
                         (Ex.ports Ex.square 0 None) Ex.inputs ltac:(cbn; lia)))).
  left. reflexivity.
Defined.

(** C10, as stated, fails: with [merit_memsize_ = 0] the value just
    stored is removed again, the memory is empty when the line search
    starts, and the first acceptance test takes the maximum of an empty
    range. *)
Lemma merit_history_empty_when_memsize_zero :
  merit_mem_ (push_merit (Ex.cfg 50 1 0) 1%Q Ex.started) = [] /\
  iteration (Ex.cfg 50 1 0) (Ex.ports Ex.square 0 None) Ex.inputs 5 Ex.started = Undef.
Proof. split; vm_compute; reflexivity. Qed.

(** ** The step without line search *)

Section FullStep.
Context {R : Type} `{Scalar R}.
Variable cfg : Config R.
Variable P : Ports R.
Variable inp : Inputs R.

Lemma std_copy_all {A : Type} (src dst : list A) :
  length dst = length src -> std_copy src dst = src.
Proof.
  intros E. unfold std_copy. rewrite skipn_all2 by lia. apply app_nil_r.
Qed.

Lemma zip_with_length {A B C : Type} (op : A -> B -> C) (a : list A) :
  forall b, length b = length a -> length (zip_with op a b) = length a.
Proof.
  induction a as [|p a IH]; intros [|q b] E; cbn in *; try discriminate; auto.
Qed.

Lemma push_merit_step (L : R) (st : State R) :
  same_step st (push_merit cfg L st) /\ dx_ (push_merit cfg L st) = dx_ st /\
  qp_DUAL_A_ (push_merit cfg L st) = qp_DUAL_A_ st /\
  qp_DUAL_X_ (push_merit cfg L st) = qp_DUAL_X_ st.
Proof.
  unfold push_merit.
  match goal with |- context [if ?b then _ else _] => destruct b end; repeat split.
Qed.

Lemma globalize_full_step (L1dir : R) (st : State R) :
  max_iter_ls_ cfg = 0%Z ->
  length (dx_ st) = length (x_ st) ->
  length (x_old_ st) = length (x_ st) ->
  length (mu_ st) = length (qp_DUAL_A_ st) ->
  length (mu_x_ st) = length (qp_DUAL_X_ st) ->
  exists st',
    (forall ls_fuel, globalize cfg P inp ls_fuel L1dir st = Ok st') /\
    x_ st' = zip_with sadd (x_ st) (dx_ st) /\
    x_old_ st' = x_ st /\
    mu_ st' = qp_DUAL_A_ st /\
    mu_x_ st' = qp_DUAL_X_ st /\
    ls_success st' = true /\
    ls_iter st' = 0%Z /\
    t st' = s1 /\
    x_cand_ st' = x_cand_ st.
Proof.
  intros Hz Hdx Hold Hmu Hmux.
  eexists. split.
  - intros ls_fuel. unfold globalize. rewrite Hz. cbn [Z.gtb Z.compare]. reflexivity.
  - cbn. repeat split.
    + unfold std_transform. apply std_copy_all. rewrite zip_with_length; auto.
    + apply std_copy_all. exact Hold.
    + apply std_copy_all. exact Hmu.
    + apply std_copy_all. exact Hmux.
Qed.

(** C9. With [max_iter_ls_ = 0] no trial point is computed and no
    evaluation is made by the globalization (its result needs no fuel):
    the step is the full QP step [x + dx], the success flag stays set, and
    the duals are the duals of the QP.  This is so in every iteration that
    returns, for vectors of the sizes that [init] gives them. *)
Theorem full_step_without_line_search :
  max_iter_ls_ cfg = 0%Z ->
  (forall (L1dir : R) (st : State R),
      length (dx_ st) = length (x_ st) ->
      length (x_old_ st) = length (x_ st) ->
      length (mu_ st) = length (qp_DUAL_A_ st) ->
      length (mu_x_ st) = length (qp_DUAL_X_ st) ->
      exists st',
        (forall ls_fuel, globalize cfg P inp ls_fuel L1dir st = Ok st') /\
        x_ st' = zip_with sadd (x_ st) (dx_ st) /\
        x_old_ st' = x_ st /\
        mu_ st' = qp_DUAL_A_ st /\
        mu_x_ st' = qp_DUAL_X_ st /\
        ls_success st' = true /\
        ls_iter st' = 0%Z /\
        t st' = s1 /\
        x_cand_ st' = x_cand_ st) /\
  (forall (ls_fuel : nat) (st st' : State R),
      iteration cfg P inp ls_fuel st = Ok st' ->
      length (dx_ st') = length (x_ st) ->
      length (x_old_ st) = length (x_ st) ->
      length (mu_ st) = length (qp_DUAL_A_ st') ->
      length (mu_x_ st) = length (qp_DUAL_X_ st') ->
      x_ st' = zip_with sadd (x_ st) (dx_ st') /\
      x_old_ st' = x_ st /\
      mu_ st' = qp_DUAL_A_ st' /\
      mu_x_ st' = qp_DUAL_X_ st' /\
      ls_success st' = true /\
      ls_iter st' = 0%Z /\
      t st' = s1 /\
      x_cand_ st' = x_cand_ st).
Proof.
  intros Hz. split.
  - intros L1dir st. apply globalize_full_step. exact Hz.
  - intros ls_fuel st st' E Hdx Hold Hmu Hmux.
    destruct (iteration_step_kept _ _ _ _ _ _ E) as (st1 & st2 & E1 & E2 & K & S).
    apply formulate_and_solve_QP_frame in E1.
    destruct E1 as (_ & _ & _ & _ & _ & X1 & M1 & MX1 & C1 & O1).
    cbn [x_ mu_ mu_x_ x_cand_ x_old_ set_iter] in X1, M1, MX1, C1, O1.
    set (st3 := push_merit cfg (l1_merit inp (update_sigma st1)) (update_sigma st1)) in *.
    destruct (push_merit_step (l1_merit inp (update_sigma st1)) (update_sigma st1))
      as ((X3 & O3 & M3 & MX3 & _ & _ & _ & C3) & D3 & A3 & DX3).
    fold st3 in X3, O3, M3, MX3, C3, D3, A3, DX3.
    cbn [update_sigma x_ x_old_ mu_ mu_x_ x_cand_ dx_ qp_DUAL_A_ qp_DUAL_X_ set_sigma_]
      in X3, O3, M3, MX3, C3, D3, A3, DX3.
    pose proof (globalize_kept _ _ _ _ _ _ _ E2) as K2.
    destruct (kept_trans _ _ _ K2 K) as (_ & _ & DX & DA & D & _).
    destruct (globalize_full_step (l1_dir inp (update_sigma st1)) st3 Hz)
      as (st2' & G & Gx & Go & Gm & Gmx & Gs & Gi & Gt & Gc); try congruence.
    rewrite (G ls_fuel) in E2. inversion E2; subst st2'. clear E2.
    destruct S as (S1 & S2 & S3 & S4 & S5 & S6 & S7 & S8).
    repeat split; congruence.
Qed.

End FullStep.

Lemma full_step_without_line_search_witness :
  exists st',
    globalize (Ex.cfg 50 0 4) (Ex.ports Ex.square 0 None) Ex.inputs 0 0%Q Ex.started = Ok st' /\
    x_ st' = zip_with Qplus (x_ Ex.started) (dx_ Ex.started) /\
    ls_success st' = true.
Proof.
  destruct (proj1 (full_step_without_line_search (Ex.cfg 50 0 4) (Ex.ports Ex.square 0 None)
                     Ex.inputs eq_refl) 0%Q Ex.started eq_refl eq_refl eq_refl eq_refl)
    as (st' & Hg & Hx & _ & _ & _ & Hs & _).
  exists st'. split; [apply Hg|]. split; [exact Hx|exact Hs].
Defined.

(** ** Writes to the output buffers *)

Section OutputWrites.
Context {R : Type} `{Scalar R}.
Variable cfg : Config R.
Variable P : Ports R.
Variable inp : Inputs R.

Lemma push_merit_silent (L : R) (st : State R) :
  trace (push_merit cfg L st) = trace st /\ output (push_merit cfg L st) = output st.
Proof.
  unfold push_merit.
  match goal with |- context [if ?b then _ else _] => destruct b end; split; reflexivity.
Qed.

Lemma iteration_silent (ls_fuel : nat) (st st' : State R) :
  iteration cfg P inp ls_fuel st = Ok st' ->
  trace st' = trace st /\ output st' = output st.
Proof.
  intros E. apply iteration_inv in E. destruct E as (st1 & st2 & E1 & E2 & K).
  apply formulate_and_solve_QP_frame in E1.
  destruct E1 as (_ & _ & _ & O1 & T1 & _).
  apply globalize_kept in E2.
  destruct (kept_trans _ _ _ E2 K) as (_ & _ & _ & _ & _ & _ & O2 & T2 & _).
  destruct (push_merit_silent (l1_merit inp (update_sigma st1)) (update_sigma st1))
    as (T3 & O3).
  split.
  - rewrite T2, T3. cbn [update_sigma trace set_sigma_]. rewrite T1. reflexivity.
  - rewrite O2, O3. cbn [update_sigma output set_sigma_]. rewrite O1. reflexivity.
Qed.

Lemma prepare_silent (st st' : State R) :
  prepare cfg P inp st = Ok st' -> trace st' = trace st /\ output st' = output st.
Proof.
  unfold prepare. cbv zeta.
  destruct (eval_jac_g _ _ _ _ _) as [[gk Jk]| | |]; cbn [bind]; try discriminate.
  destruct (eval_grad_f _ _) as [[fk gf]| | |]; cbn [bind]; try discriminate.
  destruct (exact_hessian_ cfg).
  - destruct (eval_h _ _ _ _ _ _) as [[Bk reg]| | |]; cbn [bind]; try discriminate.
    intros E. inversion E. split; reflexivity.
  - cbn [bind]. intros E. inversion E. split; reflexivity.
Qed.

Lemma loop_pass_without_callback (ls_fuel : nat) (st st' : State R) (fl : Flow) :
  fcallback_ P = None ->
  loop_pass cfg P inp ls_fuel st = Ok (fl, st') ->
  output st' = output st /\
  match fl with
  | Continue => trace st' = trace st
  | Break => exists s, trace st' = trace st ++ [ExitLoop s]
  end.
Proof.
  intros Hcb. unfold loop_pass, run_callback. rewrite Hcb. cbn [bind].
  destruct (convergence_check _ _ _ _ _) as [s|].
  - intros E. inversion E; subst. split; [reflexivity|]. exists s. reflexivity.
  - destruct (iteration _ _ _ _ _) as [st1| | |] eqn:Ei; cbn [bind]; try discriminate.
    intros E. inversion E; subst. apply iteration_silent in Ei. tauto.
Qed.

Lemma main_loop_without_callback (ls_fuel : nat) :
  fcallback_ P = None ->
  forall fuel st st',
    main_loop cfg P inp fuel ls_fuel st = Ok st' ->
    output st' = output st /\ exists s, trace st' = trace st ++ [ExitLoop s].
Proof.
  intros Hcb. induction fuel as [|fuel IH]; intros st st' E; [discriminate|].
  cbn [main_loop] in E.
  destruct (loop_pass _ _ _ _ _) as [[fl st1]| | |] eqn:Ep; cbn [bind] in E; try discriminate.
  apply (loop_pass_without_callback _ _ _ _ Hcb) in Ep. destruct Ep as (O1 & T1).
  destruct fl.
  - apply IH in E. destruct E as (O2 & s & T2). split; [congruence|].
    exists s. rewrite T2, T1. reflexivity.
  - inversion E; subst. tauto.
Qed.

Lemma trace_if_setNZ (b : bool) (o : NlpsolOutput) (v : vec R) (st : State R) :
  trace (if b then setNZ o v st else st) = trace st ++ (if b then [WriteOutput o] else []).
Proof. destruct b; cbn; [reflexivity|symmetry; apply app_nil_r]. Qed.

Lemma guarded_setNZ (o : NlpsolOutput) (v : vec R) (st : State R) :
  let st' := if negb (is_empty o st) then setNZ o v st else st in
  output st'
  = (if negb (is_empty o st) then put o (std_copy v) (output st) else output st) /\
  trace st' = trace st ++ (if negb (is_empty o st) then [WriteOutput o] else []) /\
  x_ st' = x_ st /\ mu_ st' = mu_ st /\ mu_x_ st' = mu_x_ st /\ gk_ st' = gk_ st /\
  fk_ st' = fk_ st.
Proof.
  cbv zeta. destruct (negb (is_empty o st)); cbn; repeat split; try reflexivity;
    symmetry; apply app_nil_r.
Qed.

Lemma guarded_set_scalar (o : NlpsolOutput) (a : R) (st : State R) :
  let st' := if negb (is_empty o st) then set_scalar o a st else st in
  output st'
  = (if negb (is_empty o st) then put o (map (fun _ => a)) (output st) else output st) /\
  trace st' = trace st ++ (if negb (is_empty o st) then [WriteOutput o] else []) /\
  x_ st' = x_ st /\ mu_ st' = mu_ st /\ mu_x_ st' = mu_x_ st /\ gk_ st' = gk_ st /\
  fk_ st' = fk_ st.
Proof.
  cbv zeta. destruct (negb (is_empty o st)); cbn; repeat split; try reflexivity;
    symmetry; apply app_nil_r.
Qed.

Lemma firstn_std_copy {A : Type} (v buf : list A) :
  firstn (length v) (std_copy v buf) = v.
Proof.
  unfold std_copy. generalize (skipn (length v) buf) as rest.
  induction v as [|a v IH]; intros rest; cbn; [reflexivity|]. rewrite IH. reflexivity.
Qed.

Lemma Forall_map_const {A : Type} (a : A) (l : list A) :
  Forall (fun b => b = a) (map (fun _ => a) l).
Proof. induction l; cbn; constructor; auto. Qed.

(** The state in which the callback is called: the guarded writes have
    been made, in the order of the source, and nothing else. *)
Lemma callback_block_pass (cb : Outputs R -> outcome Z) (st st1 : State R) (fl : Flow) :
  callback_block cb st = Ok (fl, st1) ->
  exists ret stc,
    iterate_written st (output stc) /\
    cb (output stc) = Returns ret /\
    trace stc = trace st ++ callback_writes st ++ [CallCallback] /\
    (fl = Break /\ st1 = leave User_Requested_Stop stc \/ fl = Continue /\ st1 = stc).
Proof.
  unfold callback_block. cbv zeta.
  pose proof (guarded_set_scalar NLPSOL_F (fk_ st) st) as F1. cbv zeta in F1.
  set (sa := if negb (is_empty NLPSOL_F st) then set_scalar NLPSOL_F (fk_ st) st else st)
    in *.
  clearbody sa. destruct F1 as (O1 & T1 & X1 & M1 & MX1 & G1 & K1).
  pose proof (guarded_setNZ NLPSOL_X (x_ sa) sa) as F2. cbv zeta in F2.
  set (sb := if negb (is_empty NLPSOL_X sa) then setNZ NLPSOL_X (x_ sa) sa else sa) in *.
  clearbody sb. destruct F2 as (O2 & T2 & X2 & M2 & MX2 & G2 & K2).
  pose proof (guarded_setNZ NLPSOL_LAM_G (mu_ sb) sb) as F3. cbv zeta in F3.
  set (sc := if negb (is_empty NLPSOL_LAM_G sb) then setNZ NLPSOL_LAM_G (mu_ sb) sb else sb)
    in *.
  clearbody sc. destruct F3 as (O3 & T3 & X3 & M3 & MX3 & G3 & K3).
  pose proof (guarded_setNZ NLPSOL_LAM_X (mu_x_ sc) sc) as F4. cbv zeta in F4.
  set (sd := if negb (is_empty NLPSOL_LAM_X sc) then setNZ NLPSOL_LAM_X (mu_x_ sc) sc
             else sc) in *.
  clearbody sd. destruct F4 as (O4 & T4 & X4 & M4 & MX4 & G4 & K4).
  pose proof (guarded_setNZ NLPSOL_G (gk_ sd) sd) as F5. cbv zeta in F5.
  set (se := if negb (is_empty NLPSOL_G sd) then setNZ NLPSOL_G (gk_ sd) sd else sd) in *.
  clearbody se. destruct F5 as (O5 & T5 & X5 & M5 & MX5 & G5 & K5).
  set (stc := log CallCallback se).
  assert (Oc : output stc = output se) by reflexivity.
  assert (Tc : trace stc = trace se ++ [CallCallback]) by reflexivity.
  clearbody stc.
  destruct (cb (output stc)) as [ret|e] eqn:Ecb; cbn [call bind]; [|discriminate].
  intros E. exists ret, stc.
  assert (Hfl : fl = Break /\ st1 = leave User_Requested_Stop stc \/
                fl = Continue /\ st1 = stc).
  { destruct (negb (ret =? 0)%Z); injection E as <- <-; auto. }
  clear E. split; [|split; [exact Ecb|split; [|exact Hfl]]].
  - rewrite Oc, O5, O4, O3, O2, O1.
    replace (gk_ sd) with (gk_ st) by congruence.
    replace (mu_x_ sc) with (mu_x_ st) by congruence.
    replace (mu_ sb) with (mu_ st) by congruence.
    replace (x_ sa) with (x_ st) by congruence.
    unfold is_empty in *. rewrite O4, O3, O2, O1.
    clear. unfold iterate_written, is_empty.
    destruct (output st) as [bx bf bg blx blg blp].
    destruct bx, bf, bg, blx, blg;
      cbn [buffer put length Nat.eqb negb out_x out_f out_g out_lam_x out_lam_g out_lam_p];
      (split;
       [intros E;
        first [discriminate E
              |split; [apply length_map|apply (Forall_map_const (fk_ st))]]|]);
      do 4 (split; [intros E; try discriminate E; apply firstn_std_copy|]);
      (split; [intros [] E; cbn in E |- *; try discriminate E; reflexivity|reflexivity]).
  - rewrite Tc, T5, T4, T3, T2, T1. unfold is_empty in *.
    rewrite O4, O3, O2, O1. clear. unfold callback_writes, is_empty.
    destruct (output st) as [bx bf bg blx blg blp].
    destruct bx, bf, bg, blx, blg; cbn; rewrite <- ?app_assoc; reflexivity.
Qed.

(** C4 (as amended). Without a callback the output buffers are written
    only after the main loop is left: the run records the exit from the
    loop and then the five writes of "Save results to outputs".  With a
    callback, every pass of the loop writes the current iterate to each
    of the five buffers that is not empty, in the order of the source,
    and then calls the callback, which is given the buffers so written;
    the pass writes nothing after the call. *)
Theorem outputs_written_after_loop_without_callback :
  (fcallback_ P = None ->
   forall fuel ls_fuel st st',
     evalD cfg P inp fuel ls_fuel st = Ok st' ->
     exists s,
       trace st' = [ExitLoop s; WriteOutput NLPSOL_F; WriteOutput NLPSOL_X;
                    WriteOutput NLPSOL_LAM_G; WriteOutput NLPSOL_LAM_X;
                    WriteOutput NLPSOL_G]) /\
  (forall cb, fcallback_ P = Some cb ->
   forall ls_fuel st fl st',
     loop_pass cfg P inp ls_fuel st = Ok (fl, st') ->
     iterate_written st (output st') /\
     (exists ret, cb (output st') = Returns ret) /\
     exists tr,
       trace st' = trace st ++ callback_writes st ++ CallCallback :: tr /\
       (tr = [] \/ exists s, tr = [ExitLoop s])).
Proof.
  split.
  - intros Hcb fuel ls_fuel st st'. unfold evalD. cbv zeta.
    destruct (prepare _ _ _ _) as [st1| | |] eqn:E1; cbn [bind]; try discriminate.
    destruct (main_loop _ _ _ _ _ _) as [st2| | |] eqn:E2; cbn [bind]; try discriminate.
    intros E. inversion E; subst; clear E.
    apply prepare_silent in E1. destruct E1 as (T1 & _).
    apply (main_loop_without_callback _ Hcb) in E2. destruct E2 as (_ & s & T2).
    exists s. unfold save_results, setNZ, set_scalar, log.
    cbn [trace set_trace set_output]. rewrite T2, T1. reflexivity.
  - intros cb Hcb ls_fuel st fl st'. unfold loop_pass, run_callback. rewrite Hcb.
    destruct (callback_block cb st) as [[fl1 st1]| | |] eqn:Ec; cbn [bind]; try discriminate.
    apply callback_block_pass in Ec.
    destruct Ec as (ret & stc & Hw & Hret & Ht & Hfl).
    assert (Hleave : forall s,
               output (leave s stc) = output stc /\
               trace (leave s stc) = trace stc ++ [ExitLoop s])
      by (intros s; split; reflexivity).
    assert (Hend : forall st2 tr,
               output st2 = output stc -> trace st2 = trace stc ++ tr ->
               (tr = [] \/ exists s, tr = [ExitLoop s]) ->
               iterate_written st (output st2) /\
               (exists ret, cb (output st2) = Returns ret) /\
               exists tr,
                 trace st2 = trace st ++ callback_writes st ++ CallCallback :: tr /\
                 (tr = [] \/ exists s, tr = [ExitLoop s])).
    { intros st2 tr O2 T2 Htr. rewrite O2. split; [exact Hw|]. split; [eauto|].
      exists tr. split; [|exact Htr]. rewrite T2, Ht, <- !app_assoc. reflexivity. }
    destruct Hfl as [[-> ->]|[-> ->]].
    + intros E. injection E as <- <-.
      destruct (Hleave User_Requested_Stop) as (O2 & T2).
      apply (Hend _ _ O2 T2). right. eauto.
    + destruct (convergence_check _ _ _ _ _) as [s|].
      * intros E. injection E as <- <-. destruct (Hleave s) as (O2 & T2).
        apply (Hend _ _ O2 T2). right. eauto.
      * destruct (iteration _ _ _ _ _) as [st2| | |] eqn:Ei; cbn [bind]; try discriminate.
        intros E. injection E as <- <-. apply iteration_silent in Ei.
        destruct Ei as (T2 & O2).
        apply (Hend st2 [] O2); [rewrite app_nil_r; exact T2|]. left. reflexivity.
Qed.

End OutputWrites.

Lemma outputs_written_after_loop_without_callback_witness :
  (exists st' s,
     evalD (Ex.cfg 50 3 4) (Ex.ports Ex.square 0 None) Ex.inputs 5 5 Ex.members = Ok st' /\
     trace st' = [ExitLoop s; WriteOutput NLPSOL_F; WriteOutput NLPSOL_X;
                  WriteOutput NLPSOL_LAM_G; WriteOutput NLPSOL_LAM_X;
                  WriteOutput NLPSOL_G]) /\
  (exists fl st' tr,
     loop_pass (Ex.cfg 50 3 4) (Ex.ports Ex.square 0 (Some (fun _ => Returns 0%Z)))
       Ex.inputs 5 Ex.started = Ok (fl, st') /\
     firstn 1 (out_x (output st')) = [1%Q] /\
     trace st' = [WriteOutput NLPSOL_F; WriteOutput NLPSOL_X; WriteOutput NLPSOL_LAM_X;
                  CallCallback] ++ tr).
Proof.
  split.
  - destruct (evalD (Ex.cfg 50 3 4) (Ex.ports Ex.square 0 None) Ex.inputs 5 5 Ex.members)
      as [st'| | |] eqn:E; try (vm_compute in E; discriminate).
    destruct (proj1 (outputs_written_after_loop_without_callback (Ex.cfg 50 3 4)
                       (Ex.ports Ex.square 0 None) Ex.inputs) eq_refl 5%nat 5%nat
                Ex.members st' E) as (s & T).
    exists st', s. split; [reflexivity|exact T].
  - destruct (loop_pass (Ex.cfg 50 3 4) (Ex.ports Ex.square 0 (Some (fun _ => Returns 0%Z)))
                Ex.inputs 5 Ex.started) as [[fl st']| | |] eqn:E;
      try (vm_compute in E; discriminate).
    destruct (proj2 (outputs_written_after_loop_without_callback (Ex.cfg 50 3 4)
                       (Ex.ports Ex.square 0 (Some (fun _ => Returns 0%Z))) Ex.inputs)
                (fun _ => Returns 0%Z) eq_refl 5%nat Ex.started fl st' E)
      as (Hw & _ & tr & T & _).
    exists fl, st', tr. split; [reflexivity|]. split.
    + exact (proj1 (proj2 Hw) eq_refl).
    + exact T.
Defined.

(** C4, as stated, fails: with a callback installed the buffers are
    written in the first pass of the loop, before the loop is left. *)
Lemma outputs_written_inside_loop_with_callback :
  exists st',
    evalD (Ex.cfg 50 3 4) (Ex.ports Ex.square 0 (Some (fun _ => Returns 0%Z)))
      Ex.inputs 5 5 Ex.members = Ok st' /\
    no_write_before_exit (trace st') = false /\
    hd_error (trace st') = Some (WriteOutput NLPSOL_F).
Proof. eexists. split; [vm_compute; reflexivity|]. split; reflexivity. Qed.

(** ** The bound on the trials of the line search *)

Section LineSearchBound.
Context {R : Type} `{Scalar R}.
Variable cfg : Config R.
Variable P : Ports R.
Variable inp : Inputs R.


End LineSearchBound.

(** C1. The claim fails on the code.  With [max_iter_ls_ = 1] and an
    objective that cannot be evaluated at the first trial point, the catch
    block counts the trial and shrinks [t] but jumps over the test of the
    counter; the second trial is rejected with the counter at 2, which the
    equality test no longer matches, and the search goes on to a third
    trial, accepted with the success flag set. *)
Theorem line_search_exceeds_limit_after_failed_evaluation :
  exists st',
    iteration (Ex.cfg 50 1 4) (Ex.ports Ex.failing_objective 0 None) Ex.inputs 5 Ex.started
    = Ok st' /\
    max_iter_ls_ (Ex.cfg 50 1 4) = 1%Z /\
    ls_iter st' = 3%Z /\
    ls_success st' = true /\
    Qeq (t st') (1 # 4).
Proof.
  eexists. split; [vm_compute; reflexivity|]. repeat split.
Qed.

(** ** The penalty weight, in exact arithmetic *)

Section Sigma.
Local Open Scope Q_scope.
Variable cfg : Config Q.
Variable P : Ports Q.
Variable inp : Inputs Q.

Lemma std_max_Q_l (a b : Q) : a <= std_max a b.
Proof.
  unfold std_max. cbn [sltb Q_scalar].
  destruct (Qle_bool b a) eqn:E; cbn [negb].
  - apply Qle_refl.
  - apply Qlt_le_weak. apply Qnot_le_lt. intros Hle.
    apply Qle_bool_iff in Hle. congruence.
Qed.

Lemma std_max_Q_r (a b : Q) : b <= std_max a b.
Proof.
  unfold std_max. cbn [sltb Q_scalar].
  destruct (Qle_bool b a) eqn:E; cbn [negb].
  - apply Qle_bool_iff. exact E.
  - apply Qle_refl.
Qed.

Lemma std_max_Q_cases (a b : Q) : std_max a b = a \/ std_max a b = b.
Proof. unfold std_max. destruct (a <? b)%S; auto. Qed.

Lemma update_sigma_ge (st : State Q) : sigma_ st <= sigma_ (update_sigma st).
Proof.
  unfold update_sigma. cbn [sigma_ set_sigma_ qp_DUAL_A_ qp_DUAL_X_].
  eapply Qle_trans; [|apply std_max_Q_l]. apply std_max_Q_l.
Qed.

Lemma push_merit_sigma (L : Q) (st : State Q) :
  sigma_ (push_merit cfg L st) = sigma_ st /\
  qp_DUAL_X_ (push_merit cfg L st) = qp_DUAL_X_ st /\
  qp_DUAL_A_ (push_merit cfg L st) = qp_DUAL_A_ st.
Proof.
  unfold push_merit.
  match goal with |- context [if ?b then _ else _] => destruct b end; repeat split.
Qed.

Lemma iteration_sigma (ls_fuel : nat) (st st' : State Q) :
  iteration cfg P inp ls_fuel st = Ok st' ->
  sigma_ st'
  = std_max (std_max (sigma_ st) (slit (101 # 100) * norm_inf (qp_DUAL_X_ st'))%S)
            (slit (101 # 100) * norm_inf (qp_DUAL_A_ st'))%S.
Proof.
  intros E. apply iteration_inv in E. destruct E as (st1 & st2 & E1 & E2 & K).
  apply formulate_and_solve_QP_frame in E1. destruct E1 as (_ & S1 & _).
  apply globalize_kept in E2.
  destruct (kept_trans _ _ _ E2 K) as (_ & S2 & X2 & A2 & _).
  destruct (push_merit_sigma (l1_merit inp (update_sigma st1)) (update_sigma st1))
    as (S3 & X3 & A3).
  rewrite S2, X2, A2, S3, X3, A3.
  unfold update_sigma. cbn [sigma_ set_sigma_ qp_DUAL_A_ qp_DUAL_X_].
  rewrite S1. reflexivity.
Qed.

Lemma callback_block_sigma (cb : Outputs Q -> outcome Z) (st st' : State Q) (fl : Flow) :
  callback_block cb st = Ok (fl, st') -> sigma_ st' = sigma_ st.
Proof.
  intros E. destruct (callback_block_result _ _ _ _ E) as (stc & Hc & [(_ & ->)|(_ & ->)]).
  - apply (outputs_apart_leave _ _ User_Requested_Stop) in Hc.
    apply outputs_apart_fields in Hc. apply Hc.
  - apply outputs_apart_fields in Hc. apply Hc.
Qed.

(** C6. An iteration sets [sigma_] to the greatest of its old value and
    1.01 times the infinity norms of the two QP duals, so that the new
    value is not smaller than the old one; nothing else in the loop
    changes it, and it does not decrease along the passes of a solve. *)
Theorem sigma_nondecreasing :
  (forall ls_fuel st st',
      iteration cfg P inp ls_fuel st = Ok st' ->
      sigma_ st'
      = std_max (std_max (sigma_ st) ((101 # 100) * norm_inf (qp_DUAL_X_ st')))
                ((101 # 100) * norm_inf (qp_DUAL_A_ st'))
      /\ sigma_ st <= sigma_ st') /\
  (forall fuel ls_fuel st st',
      main_loop cfg P inp fuel ls_fuel st = Ok st' -> sigma_ st <= sigma_ st').
Proof.
  assert (Hit : forall ls_fuel st st',
             iteration cfg P inp ls_fuel st = Ok st' ->
             sigma_ st'
             = std_max (std_max (sigma_ st) ((101 # 100) * norm_inf (qp_DUAL_X_ st')))
                       ((101 # 100) * norm_inf (qp_DUAL_A_ st'))
             /\ sigma_ st <= sigma_ st').
  { intros ls_fuel st st' E. pose proof (iteration_sigma _ _ _ E) as S.
    split; [exact S|]. rewrite S.
    eapply Qle_trans; [|apply std_max_Q_l]. apply std_max_Q_l. }
  split; [exact Hit|].
  induction fuel as [|fuel IH]; intros ls_fuel st st' E; [discriminate|].
  cbn [main_loop] in E. unfold loop_pass in E.
  destruct (run_callback P st) as [[fl1 st1]| | |] eqn:Ec; cbn [bind] in E; try discriminate.
  assert (S1 : sigma_ st1 = sigma_ st).
  { unfold run_callback in Ec. destruct (fcallback_ P) as [cb|].
    - eapply callback_block_sigma. exact Ec.
    - inversion Ec. reflexivity. }
  destruct fl1.
  - destruct (convergence_check _ _ _ _ _) as [s|]; cbn [bind] in E.
    + inversion E; subst. cbn. rewrite S1. apply Qle_refl.
    + destruct (iteration _ _ _ _ _) as [st2| | |] eqn:Ei; cbn [bind] in E; try discriminate.
      apply IH in E. apply Hit in Ei. destruct Ei as (_ & Hle).
      rewrite <- S1. eapply Qle_trans; eassumption.
  - cbn [bind] in E. inversion E; subst. rewrite S1. apply Qle_refl.
Qed.

End Sigma.

Lemma sigma_nondecreasing_witness :
  exists st',
    iteration (Ex.cfg 50 3 4) (Ex.ports Ex.square 3 None) Ex.inputs 5 Ex.started = Ok st' /\
    (sigma_ Ex.started <= sigma_ st')%Q /\ (sigma_ st' == 303 # 100)%Q.
Proof.
  destruct (iteration (Ex.cfg 50 3 4) (Ex.ports Ex.square 3 None) Ex.inputs 5 Ex.started)
    as [st'| | |] eqn:E; try (vm_compute in E; discriminate).
  exists st'. split; [reflexivity|]. split.
  - exact (proj2 (proj1 (sigma_nondecreasing (Ex.cfg 50 3 4) (Ex.ports Ex.square 3 None)
                           Ex.inputs) 5%nat Ex.started st' E)).
  - vm_compute in E. inversion E. reflexivity.
Defined.

(** ** The primal infeasibility, in exact arithmetic *)

Section PrimalInfeasibility.
Local Open Scope Q_scope.

(** The running maximum of [primalInfeasibility] over a list of indices. *)
Lemma running_max_spec (a b : nat -> Q) (l : list nat) :
  forall r0,
    let r := fold_left (fun r j => std_max (std_max r (a j)) (b j)) l r0 in
    r0 <= r /\
    (forall j, In j l -> a j <= r /\ b j <= r) /\
    (r = r0 \/ exists j, In j l /\ (r = a j \/ r = b j)).
Proof.
  induction l as [|k l IH]; intros r0; cbn [fold_left].
  - split; [apply Qle_refl|]. split; [intros j []|]. left. reflexivity.
  - specialize (IH (std_max (std_max r0 (a k)) (b k))). cbv zeta in IH.
    destruct IH as (Hge & Hall & Hin).
    set (r1 := std_max (std_max r0 (a k)) (b k)) in *.
    assert (H0 : r0 <= r1).
    { eapply Qle_trans; [|apply std_max_Q_l]. apply std_max_Q_l. }
    assert (Ha : a k <= r1).
    { eapply Qle_trans; [|apply std_max_Q_l]. apply std_max_Q_r. }
    assert (Hb : b k <= r1) by apply std_max_Q_r.
    split; [eapply Qle_trans; eassumption|]. split.
    + intros j [<-|Hj].
      * split; eapply Qle_trans; eassumption.
      * apply Hall. exact Hj.
    + destruct Hin as [E|(j & Hj & E)].
      * rewrite E. subst r1.
        destruct (std_max_Q_cases (std_max r0 (a k)) (b k)) as [E1|E1]; rewrite E1.
        -- destruct (std_max_Q_cases r0 (a k)) as [E2|E2]; rewrite E2.
           ++ left. reflexivity.
           ++ right. exists k. split; [left; reflexivity|]. left. reflexivity.
        -- right. exists k. split; [left; reflexivity|]. right. reflexivity.
      * right. exists j. split; [right; exact Hj|exact E].
Qed.

Lemma primalInfeasibility_folds (x lbx ubx g lbg ubg : vec Q) :
  primalInfeasibility x lbx ubx g lbg ubg
  = fold_left (fun r j => std_max (std_max r (lbg.[j] - g.[j])) (g.[j] - ubg.[j]))
      (seq 0 (length g))
      (fold_left (fun r j => std_max (std_max r (lbx.[j] - x.[j])) (x.[j] - ubx.[j]))
         (seq 0 (length x)) 0).
Proof.
  unfold primalInfeasibility, for_range. rewrite !Nat.sub_0_r. reflexivity.
Qed.

(** C8. The value of [primalInfeasibility] is the greatest of zero and
    of the violations [lbx_j - x_j], [x_j - ubx_j], [lbg_j - g_j],
    [g_j - ubg_j]: it bounds all of them, it is zero or one of them, it
    is not negative, and it vanishes exactly when every bound and every
    constraint holds. *)
Theorem primal_infeasibility_is_max_violation :
  forall x lbx ubx g lbg ubg : vec Q,
    let r := primalInfeasibility x lbx ubx g lbg ubg in
    0 <= r /\
    (forall j, (j < length x)%nat -> lbx.[j] - x.[j] <= r /\ x.[j] - ubx.[j] <= r) /\
    (forall j, (j < length g)%nat -> lbg.[j] - g.[j] <= r /\ g.[j] - ubg.[j] <= r) /\
    (r = 0 \/
     (exists j, (j < length x)%nat /\ (r = lbx.[j] - x.[j] \/ r = x.[j] - ubx.[j])) \/
     (exists j, (j < length g)%nat /\ (r = lbg.[j] - g.[j] \/ r = g.[j] - ubg.[j]))) /\
    (r == 0 <->
     (forall j, (j < length x)%nat -> lbx.[j] <= x.[j] /\ x.[j] <= ubx.[j]) /\
     (forall j, (j < length g)%nat -> lbg.[j] <= g.[j] /\ g.[j] <= ubg.[j])).
Proof.
  intros x lbx ubx g lbg ubg. cbv zeta. rewrite primalInfeasibility_folds.
  pose proof (running_max_spec (fun j => lbx.[j] - x.[j]) (fun j => x.[j] - ubx.[j])
                (seq 0 (length x)) 0) as Hx.
  cbv zeta in Hx.
  set (rx := fold_left _ (seq 0 (length x)) 0) in *.
  pose proof (running_max_spec (fun j => lbg.[j] - g.[j]) (fun j => g.[j] - ubg.[j])
                (seq 0 (length g)) rx) as Hg.
  cbv zeta in Hg.
  set (r := fold_left _ (seq 0 (length g)) rx) in *.
  clearbody r. clearbody rx.
  destruct Hx as (Hx0 & Hxall & Hxin). destruct Hg as (Hg0 & Hgall & Hgin).
  assert (Hnn : 0 <= r) by (eapply Qle_trans; eassumption).
  assert (Hbx : forall j, (j < length x)%nat ->
                  lbx.[j] - x.[j] <= r /\ x.[j] - ubx.[j] <= r).
  { intros j Hj. destruct (Hxall j) as (A & B); [apply in_seq; lia|].
    split; eapply Qle_trans; eassumption. }
  assert (Hbg : forall j, (j < length g)%nat ->
                  lbg.[j] - g.[j] <= r /\ g.[j] - ubg.[j] <= r).
  { intros j Hj. apply Hgall. apply in_seq. lia. }
  assert (Hcases :
            r = 0 \/
            (exists j, (j < length x)%nat /\ (r = lbx.[j] - x.[j] \/ r = x.[j] - ubx.[j])) \/
            (exists j, (j < length g)%nat /\ (r = lbg.[j] - g.[j] \/ r = g.[j] - ubg.[j]))).
  { destruct Hgin as [E|(j & Hj & E)].
    - destruct Hxin as [E'|(k & Hk & E')].
      + left. congruence.
      + right. left. exists k. apply in_seq in Hk. split; [lia|]. rewrite E. exact E'.
    - right. right. exists j. apply in_seq in Hj. split; [lia|exact E]. }
  split; [exact Hnn|]. split; [exact Hbx|]. split; [exact Hbg|]. split; [exact Hcases|].
  split.
  - intros Hz. split; intros j Hj.
    + destruct (Hbx j Hj) as (A & B). rewrite Hz in A, B. split; lra.
    + destruct (Hbg j Hj) as (A & B). rewrite Hz in A, B. split; lra.
  - intros (Fx & Fg).
    destruct Hcases as [E|[(j & Hj & E)|(j & Hj & E)]].
    + rewrite E. reflexivity.
    + destruct (Fx j Hj) as (A & B). destruct E as [E|E]; rewrite E in Hnn |- *; lra.
    + destruct (Fg j Hj) as (A & B). destruct E as [E|E]; rewrite E in Hnn |- *; lra.
Qed.

End PrimalInfeasibility.

Lemma primal_infeasibility_is_max_violation_witness :
  (([11] : vec Q).[0] - ([10] : vec Q).[0] <= primalInfeasibility [11] [-10] [10] [] [] [])%Q.
Proof.
  apply (proj1 (proj2 (primal_infeasibility_is_max_violation [11] [-10] [10] [] [] []%Q))
           0%nat ltac:(cbn; lia)).
Defined.

(** ** The BFGS update when the iterate has not moved *)

Section BfgsAtRest.

Lemma zeroish_sub (a : xQ) : zeroish (ssub a a).
Proof. destruct a as [q|]; cbn; [ring|exact I]. Qed.

Lemma zeroish_mul (a b : xQ) : zeroish a -> zeroish (smul a b).
Proof.
  destruct a as [p|], b as [q|]; cbn; auto. intros E. rewrite E. ring.
Qed.

Lemma zeroish_add (a b : xQ) : zeroish a -> zeroish b -> zeroish (sadd a b).
Proof.
  destruct a as [p|], b as [q|]; cbn; auto. intros E F. rewrite E, F. ring.
Qed.

Lemma zeroish_rest (x : vec xQ) : Forall zeroish (zip_with ssub x x).
Proof.
  induction x as [|a x IH]; cbn [zip_with]; constructor; auto using zeroish_sub.
Qed.

Lemma zeroish_products (sk : vec xQ) :
  Forall zeroish sk -> forall yk, Forall zeroish (zip_with smul sk yk).
Proof.
  induction 1 as [|a sk Ha _ IH]; intros [|b yk]; cbn [zip_with]; constructor;
    auto using zeroish_mul.
Qed.

Lemma zeroish_sum (l : vec xQ) :
  Forall zeroish l -> forall a, zeroish a -> zeroish (fold_left sadd l a).
Proof.
  induction 1 as [|b l Hb _ IH]; intros a Ha; cbn [fold_left]; auto using zeroish_add.
Qed.

Lemma inner_prod_rest (x yk : vec xQ) : zeroish (inner_prod (zip_with ssub x x) yk).
Proof.
  unfold inner_prod. apply zeroish_sum.
  - apply zeroish_products. apply zeroish_rest.
  - cbn. reflexivity.
Qed.

Lemma div_by_zeroish (a d : xQ) : zeroish d -> sdiv a d = None.
Proof.
  destruct a as [p|], d as [q|]; cbn; auto. intros E.
  apply Qeq_bool_iff in E. rewrite E. reflexivity.
Qed.

Lemma taints_refl (d : vec xQ) : taints d d.
Proof. split; auto. Qed.

Lemma taints_trans (a b c : vec xQ) : taints a b -> taints b c -> taints a c.
Proof. intros (L1 & T1) (L2 & T2). split; [congruence|auto]. Qed.

Lemma upd_length {A : Type} (i : nat) (a : A) (v : list A) : length (upd i a v) = length v.
Proof.
  revert i. induction v as [|b v IH]; intros [|i]; cbn; auto.
Qed.

Lemma upd_same {A : Type} (i : nat) (a d : A) (v : list A) :
  (i < length v)%nat -> nth i (upd i a v) d = a.
Proof.
  revert i. induction v as [|b v IH]; intros [|i] Hi; cbn in *; try lia; auto.
  apply IH. lia.
Qed.

Lemma upd_other {A : Type} (i j : nat) (a d : A) (v : list A) :
  i <> j -> nth j (upd i a v) d = nth j v d.
Proof.
  revert i j. induction v as [|b v IH]; intros [|i] [|j] Hij; cbn; auto; try lia.
Qed.

Lemma upd_taints (el : nat) (d : vec xQ) : taints d (upd el None d).
Proof.
  split; [apply upd_length|]. intros e He. unfold get in *.
  destruct (Nat.eq_dec el e) as [<-|Hn].
  - destruct (Nat.lt_ge_cases el (length d)) as [Hlt|Hge].
    + apply upd_same. exact Hlt.
    + rewrite nth_overflow in He by exact Hge. discriminate.
  - rewrite upd_other by exact Hn. exact He.
Qed.

Lemma taint_column (f : nat -> vec xQ -> xQ) (l : list nat) :
  (forall el d, f el d = None) ->
  forall d,
    let d' := fold_left (fun d el => upd el (f el d) d) l d in
    taints d d' /\ forall e, In e l -> (e < length d)%nat -> d'.[e] = None.
Proof.
  intros Hf. induction l as [|el l IH]; intros d; cbn [fold_left].
  - split; [apply taints_refl|]. intros e [].
  - rewrite Hf. specialize (IH (upd el None d)). cbv zeta in IH.
    destruct IH as (T & Hin). pose proof (upd_taints el d) as T0.
    split; [eapply taints_trans; eassumption|].
    intros e [<-|He] Hlt.
    + apply T. unfold get. apply upd_same. exact Hlt.
    + apply Hin; [exact He|]. rewrite upd_length. exact Hlt.
Qed.

Lemma taint_columns (f : nat -> nat -> vec xQ -> xQ) (col : nat -> list nat) (l : list nat) :
  (forall cc el d, f cc el d = None) ->
  forall d,
    let d' := fold_left (fun d cc => fold_left (fun d el => upd el (f cc el d) d) (col cc) d)
                l d in
    taints d d' /\
    forall cc e, In cc l -> In e (col cc) -> (e < length d)%nat -> d'.[e] = None.
Proof.
  intros Hf. induction l as [|c l IH]; intros d; cbn [fold_left].
  - split; [apply taints_refl|]. intros cc e [].
  - destruct (taint_column (f c) (col c) (Hf c) d) as (T0 & H0).
    set (d1 := fold_left _ (col c) d) in *.
    specialize (IH d1). cbv zeta in IH. destruct IH as (T & Hin).
    split; [eapply taints_trans; eassumption|].
    intros cc e [<-|Hcc] He Hlt.
    + apply T. apply H0; assumption.
    + eapply Hin; try eassumption. destruct T0 as (L0 & _). rewrite L0. exact Hlt.
Qed.

(** C2 (as amended). The update has no case for [sk = 0]: at
    [x = x_old] both denominators [<sk, yk>] and [<qk, sk>] are zero (or
    not finite), [theta = 1/<sk, yk>] is not finite, and neither is any
    nonzero of the updated Hessian approximation. *)
Theorem bfgs_at_rest_not_finite :
  forall (Bk : DMatrix xQ) (x gLag gLag_old : vec xQ) (cc el : nat),
    (cc < size2 (sparsity Bk))%nat ->
    (colind_at Bk cc <= el < colind_at Bk (cc + 1))%nat ->
    (el < length (data Bk))%nat ->
    (data (bfgs Bk x x gLag gLag_old)).[el] = None.
Proof.
  intros Bk x gLag gLag_old cc el Hcc Hel Hlt.
  unfold bfgs. cbv zeta. cbn [data]. unfold for_range.
  match goal with
  | |- context [sdiv s1 (inner_prod (zip_with ssub x x) ?yk)] =>
      pose proof (div_by_zeroish s1 _ (inner_prod_rest x yk)) as Htheta
  end.
  rewrite Htheta.
  set (qk := mv Bk (zip_with ssub x x)).
  set (yk := zip_with sadd _ _).
  set (phi := sdiv s1 _).
  pose (f := fun (c e : nat) (_ : vec xQ) =>
               ssub (sadd (data Bk).[e] (smul None (smul yk.[row_at Bk e] yk.[c])))
                    (smul phi (smul qk.[row_at Bk e] qk.[c]))).
  assert (Hf : forall c e d, f c e d = None).
  { intros c e d. unfold f. cbn. destruct ((data Bk).[e]); reflexivity. }
  destruct (taint_columns f
              (fun c => seq (colind_at Bk c) (colind_at Bk (c + 1) - colind_at Bk c))
              (seq 0 (size2 (sparsity Bk) - 0)) Hf (data Bk)) as (_ & Hin).
  apply (Hin cc el).
  - apply in_seq. lia.
  - apply in_seq. lia.
  - exact Hlt.
Qed.

End BfgsAtRest.

Lemma bfgs_at_rest_not_finite_witness :
  (data (bfgs (Ex.mat1 (Some 1%Q)) [Some 5%Q] [Some 5%Q] [Some 1%Q] [Some 0%Q])).[0] = None.
Proof.
  apply (bfgs_at_rest_not_finite (Ex.mat1 (Some 1%Q)) [Some 5%Q] [Some 1%Q] [Some 0%Q]
           0%nat 0%nat); cbn; lia.
Defined.

(** C2, as stated, fails: in binary64, at [x = x_old], the update divides
    by zero and replaces the Hessian approximation [1] by [nan]. *)
Lemma bfgs_at_rest_changes_hessian :
  PrimFloat.is_nan (data Ex.bfgs_at_rest).[0] = true /\
  Ex.bfgs_at_rest <> Ex.mat1 1%float.
Proof.
  split; [vm_compute; reflexivity|].
  intros E.
  apply (f_equal (fun m : DMatrix float => PrimFloat.is_nan (nth 0 (data m) 0%float))) in E.
  vm_compute in E. discriminate.
Qed.

(** ** The regularization, in exact arithmetic *)

Section Regularization.
Local Open Scope Q_scope.

(** *** Sums *)

Lemma Qsum_ext (f g : nat -> Q) (n : nat) :
  (forall i, (i < n)%nat -> f i == g i) -> Qsum f n == Qsum g n.
Proof.
  induction n as [|n IH]; intros E; cbn [Qsum]; [reflexivity|].
  rewrite IH by (intros i Hi; apply E; lia). rewrite (E n) by lia. reflexivity.
Qed.

Lemma Qsum_plus (f g : nat -> Q) (n : nat) :
  Qsum (fun i => f i + g i) n == Qsum f n + Qsum g n.
Proof.
  induction n as [|n IH]; cbn [Qsum]; [ring|]. rewrite IH. ring.
Qed.

Lemma Qsum_zero (n : nat) : Qsum (fun _ => 0) n == 0.
Proof. induction n as [|n IH]; cbn [Qsum]; [reflexivity|]. rewrite IH. ring. Qed.

Lemma Qsum_point (k : nat) (v : Q) (n : nat) :
  Qsum (fun i => if Nat.eqb k i then v else 0) n == if Nat.ltb k n then v else 0.
Proof.
  induction n as [|n IH]; cbn [Qsum]; [reflexivity|]. rewrite IH.
  destruct (Nat.ltb_spec k n), (Nat.eqb_spec k n), (Nat.ltb_spec k (S n)); try lia; ring.
Qed.

(** *** The column bounds are the Gershgorin bounds of the stored matrix *)

Lemma find_absent {A : Type} (p : A -> bool) (l : list A) :
  (forall a, In a l -> p a = false) -> find p l = None.
Proof.
  induction l as [|b l IH]; intros Hp; cbn [find]; [reflexivity|].
  rewrite (Hp b) by (left; reflexivity). apply IH. intros a Ha. apply Hp. right. exact Ha.
Qed.

(** A sum over the nonzeros of a column, rearranged by rows. *)
Lemma sum_by_row (rowof : nat -> nat) (g : nat -> Q) (n : nat) (l : list nat) :
  NoDup (map rowof l) ->
  (forall el, In el l -> (rowof el < n)%nat) ->
  fold_right (fun el acc => g el + acc) 0 l
  == Qsum (fun i => match find (fun el => Nat.eqb (rowof el) i) l with
                    | Some el => g el
                    | None => 0
                    end) n.
Proof.
  induction l as [|e l IH]; intros Hnd Hrange; cbn [fold_right].
  - cbn [find]. symmetry. apply Qsum_zero.
  - cbn [map] in Hnd. inversion Hnd as [|? ? Hnotin Hnd']; subst.
    rewrite IH by (auto; intros el Hel; apply Hrange; right; exact Hel).
    rewrite <- (Qplus_comm (Qsum _ n)).
    assert (Hpt : g e == Qsum (fun i => if Nat.eqb (rowof e) i then g e else 0) n).
    { rewrite Qsum_point. destruct (Nat.ltb_spec (rowof e) n) as [_|Hge]; [reflexivity|].
      specialize (Hrange e (or_introl eq_refl)). lia. }
    rewrite Hpt at 1. rewrite <- Qsum_plus. apply Qsum_ext. intros i Hi.
    cbn [find]. destruct (Nat.eqb_spec (rowof e) i) as [Ei|Ni].
    + rewrite find_absent; [ring|]. intros a Ha. apply Nat.eqb_neq. intros Ea.
      apply Hnotin. apply in_map_iff. exists a. split; [congruence|exact Ha].
    + ring.
Qed.

Lemma column_bound_sum (H : DMatrix Q) (cc : nat) (l : list nat) (m : Q) :
  fold_left (fun mineig el =>
               if Nat.eqb (row_at H el) cc then mineig + (data H).[el]
               else mineig - Qabs (data H).[el]) l m
  == m + fold_right (fun el acc =>
                       (if Nat.eqb (row_at H el) cc then (data H).[el]
                        else - Qabs (data H).[el]) + acc) 0 l.
Proof.
  revert m. induction l as [|e l IH]; intros m; cbn [fold_left fold_right]; [ring|].
  rewrite IH. destruct (Nat.eqb (row_at H e) cc); ring.
Qed.

(** The bound of column [cc] is [H[cc,cc] - sum_{i<>cc} |H[i,cc]|]. *)
Lemma column_bound_dense (H : DMatrix Q) (cc : nat) :
  well_formed H -> (cc < size2 (sparsity H))%nat ->
  column_bound H cc
  == elem H cc cc
     - Qsum (fun i => if Nat.eqb i cc then 0 else Qabs (elem H i cc)) (size2 (sparsity H)).
Proof.
  intros W Hcc. unfold column_bound. rewrite column_bound_sum.
  rewrite (sum_by_row (row_at H) _ (size2 (sparsity H))).
  - rewrite Qplus_0_l.
    assert (Hpt : elem H cc cc
                  == Qsum (fun i => if Nat.eqb cc i then elem H cc cc else 0)
                       (size2 (sparsity H))).
    { rewrite Qsum_point. destruct (Nat.ltb_spec cc (size2 (sparsity H))); [reflexivity|lia]. }
    rewrite Hpt at 1.
    setoid_replace
      (Qsum (fun i => if Nat.eqb cc i then elem H cc cc else 0) (size2 (sparsity H))
       - Qsum (fun i => if Nat.eqb i cc then 0 else Qabs (elem H i cc)) (size2 (sparsity H)))
      with
      (Qsum (fun i => (if Nat.eqb cc i then elem H cc cc else 0)
                      + - (if Nat.eqb i cc then 0 else Qabs (elem H i cc)))
         (size2 (sparsity H))).
    2:{ rewrite Qsum_plus. unfold Qminus. apply Qplus_inj_l.
        clear. induction (size2 (sparsity H)) as [|n IH]; cbn [Qsum]; [reflexivity|].
        rewrite <- IH. ring. }
    apply Qsum_ext. intros i Hi. unfold elem.
    destruct (find (fun el => Nat.eqb (row_at H el) i) (column H cc)) as [el|] eqn:Ef.
    + destruct (find_some _ _ Ef) as (_ & Er). apply Nat.eqb_eq in Er.
      rewrite Er. destruct (Nat.eqb_spec i cc) as [->|Ne].
      * rewrite Nat.eqb_refl, Ef. ring.
      * destruct (Nat.eqb_spec cc i); [congruence|]. ring.
    + destruct (Nat.eqb_spec i cc) as [->|Ne].
      * rewrite Nat.eqb_refl. rewrite Ef. ring.
      * destruct (Nat.eqb_spec cc i); [congruence|]. cbn. ring.
  - apply (wf_rows W). exact Hcc.
  - intros el Hel. rewrite <- (wf_square W). eapply (wf_range W); eassumption.
Qed.

(** *** The shift computed by [getRegularization] *)

Lemma getRegularization_folds (H : DMatrix Q) :
  getRegularization H
  = - fold_left (fun reg_param cc => fmin reg_param (column_bound H cc))
        (seq 0 (size2 (sparsity H))) 0.
Proof.
  unfold getRegularization, for_range. rewrite Nat.sub_0_r. reflexivity.
Qed.

Lemma fmin_Q_l (a b : Q) : fmin a b <= a.
Proof.
  cbn [fmin Q_scalar]. destruct (Qle_bool a b) eqn:E; [apply Qle_refl|].
  apply Qlt_le_weak. apply Qnot_le_lt. intros Hle. apply Qle_bool_iff in Hle. congruence.
Qed.

Lemma fmin_Q_r (a b : Q) : fmin a b <= b.
Proof.
  cbn [fmin Q_scalar]. destruct (Qle_bool a b) eqn:E; [|apply Qle_refl].
  apply Qle_bool_iff. exact E.
Qed.

Lemma running_min_spec (g : nat -> Q) (l : list nat) :
  forall r0,
    let m := fold_left (fun r cc => fmin r (g cc)) l r0 in
    m <= r0 /\ forall cc, In cc l -> m <= g cc.
Proof.
  induction l as [|c l IH]; intros r0; cbn [fold_left].
  - split; [apply Qle_refl|intros cc []].
  - specialize (IH (fmin r0 (g c))). cbv zeta in IH. destruct IH as (Hle & Hall).
    split.
    + eapply Qle_trans; [exact Hle|apply fmin_Q_l].
    + intros cc [<-|Hcc]; [|apply Hall; exact Hcc].
      eapply Qle_trans; [exact Hle|apply fmin_Q_r].
Qed.

Lemma getRegularization_spec (H : DMatrix Q) :
  0 <= getRegularization H /\
  forall cc, (cc < size2 (sparsity H))%nat -> - getRegularization H <= column_bound H cc.
Proof.
  rewrite getRegularization_folds.
  destruct (running_min_spec (column_bound H) (seq 0 (size2 (sparsity H))) 0) as (H0 & Hall).
  cbv zeta in H0, Hall.
  set (m := fold_left _ (seq 0 (size2 (sparsity H))) 0) in *. clearbody m.
  split; [lra|]. intros cc Hcc. specialize (Hall cc). rewrite Qopp_involutive.
  apply Hall. apply in_seq. lia.
Qed.

(** *** The effect of [regularize] on the nonzeros *)

Lemma shift_column (p : nat -> bool) (reg : Q) (l : list nat) :
  NoDup l ->
  forall d : vec Q,
    let d' := fold_left (fun d el => if p el then upd el (d.[el] + reg) d else d) l d in
    length d' = length d /\
    (forall e, ~ In e l -> d'.[e] = d.[e]) /\
    (forall e, In e l -> (e < length d)%nat -> d'.[e] = if p e then d.[e] + reg else d.[e]).
Proof.
  induction 1 as [|e0 l Hnotin Hnd IH]; intros d; cbn [fold_left].
  - repeat split; auto. intros e [].
  - match goal with |- context [fold_left _ l ?a] => set (d1 := a) in * end.
    assert (L1 : length d1 = length d).
    { unfold d1. destruct (p e0); [apply upd_length|reflexivity]. }
    assert (O1 : forall e, e <> e0 -> d1.[e] = d.[e]).
    { intros e Hne. unfold d1, get. destruct (p e0); [|reflexivity].
      apply upd_other. congruence. }
    assert (S1 : (e0 < length d)%nat -> d1.[e0] = if p e0 then d.[e0] + reg else d.[e0]).
    { intros Hlt. unfold d1, get. destruct (p e0); [|reflexivity]. apply upd_same. exact Hlt. }
    specialize (IH d1). cbv zeta in IH. destruct IH as (L & Hout & Hin).
    clearbody d1.
    split; [rewrite L; exact L1|]. split.
    + intros e He. rewrite Hout by (intros Hl; apply He; right; exact Hl).
      apply O1. intros ->. apply He. left. reflexivity.
    + intros e [<-|He] Hlt.
      * rewrite Hout by exact Hnotin. apply S1. exact Hlt.
      * rewrite Hin by (auto; rewrite L1; exact Hlt).
        rewrite O1; [reflexivity|]. intros ->. contradiction.
Qed.

Lemma shift_columns (p : nat -> nat -> bool) (reg : Q) (col : nat -> list nat)
    (cs : list nat) :
  NoDup cs ->
  (forall c, In c cs -> NoDup (col c)) ->
  (forall c1 c2 e, In c1 cs -> In c2 cs -> c1 <> c2 -> In e (col c1) -> ~ In e (col c2)) ->
  forall d : vec Q,
    let d' := fold_left
                (fun d c =>
                   fold_left (fun d el => if p c el then upd el (d.[el] + reg) d else d)
                     (col c) d) cs d in
    length d' = length d /\
    (forall e, (forall c, In c cs -> ~ In e (col c)) -> d'.[e] = d.[e]) /\
    (forall c e, In c cs -> In e (col c) -> (e < length d)%nat ->
                 d'.[e] = if p c e then d.[e] + reg else d.[e]).
Proof.
  induction 1 as [|c0 cs Hnotin Hnd IH]; intros Hcol Hdisj d; cbn [fold_left].
  - repeat split; auto. intros c e [].
  - destruct (shift_column (p c0) reg (col c0) (Hcol c0 (or_introl eq_refl)) d)
      as (L1 & O1 & I1).
    cbv zeta in L1, O1, I1.
    set (d1 := fold_left _ (col c0) d) in *.
    assert (Hcol' : forall c, In c cs -> NoDup (col c)) by (intros; apply Hcol; right; auto).
    assert (Hdisj' : forall c1 c2 e, In c1 cs -> In c2 cs -> c1 <> c2 ->
                       In e (col c1) -> ~ In e (col c2)).
    { intros c1 c2 e H1 H2. apply Hdisj; right; assumption. }
    specialize (IH Hcol' Hdisj' d1). cbv zeta in IH. destruct IH as (L & Hout & Hin).
    clearbody d1.
    split; [rewrite L; exact L1|]. split.
    + intros e He. rewrite Hout by (intros c Hc; apply He; right; exact Hc).
      apply O1. apply He. left. reflexivity.
    + intros c e [<-|Hc] He Hlt.
      * rewrite Hout.
        -- apply I1; assumption.
        -- intros c Hc Hec. apply (Hdisj c0 c e); try assumption.
           ++ left. reflexivity.
           ++ right. exact Hc.
           ++ intros <-. contradiction.
      * rewrite (Hin c e Hc He) by (rewrite L1; exact Hlt).
        rewrite O1; [reflexivity|].
        intros He0. apply (Hdisj c c0 e); try assumption.
        -- right. exact Hc.
        -- left. reflexivity.
        -- intros ->. contradiction.
Qed.

Lemma colind_monotone (H : DMatrix Q) :
  well_formed H ->
  forall a b, (a <= b)%nat -> (b <= size2 (sparsity H))%nat ->
    (colind_at H a <= colind_at H b)%nat.
Proof.
  intros W a b Hab. induction Hab as [|b Hab IH]; intros Hb; [lia|].
  specialize (IH ltac:(lia)). pose proof (@wf_colind H W b ltac:(lia)) as Hs.
  replace (S b) with (b + 1)%nat by lia. lia.
Qed.

Lemma in_column (H : DMatrix Q) (cc el : nat) :
  well_formed H -> (cc < size2 (sparsity H))%nat ->
  (In el (column H cc) <-> (colind_at H cc <= el < colind_at H (cc + 1))%nat).
Proof.
  intros W Hcc. unfold column. rewrite in_seq.
  pose proof (@wf_colind H W cc Hcc). lia.
Qed.

Lemma regularize_data (H : DMatrix Q) (reg : Q) (cc el : nat) :
  well_formed H -> (cc < size2 (sparsity H))%nat -> In el (column H cc) ->
  (data (regularize H reg)).[el]
  = if Nat.eqb (row_at H el) cc then (data H).[el] + reg else (data H).[el].
Proof.
  intros W Hcc Hel. unfold regularize, for_range. cbv zeta. cbn [data].
  rewrite Nat.sub_0_r.
  destruct (shift_columns (fun c e => Nat.eqb (row_at H e) c) reg (column H)
              (seq 0 (size2 (sparsity H)))) with (d := data H) as (_ & _ & Hin).
  - apply seq_NoDup.
  - intros c Hc. apply seq_NoDup.
  - intros c1 c2 e H1 H2 Hne He1 He2. apply in_seq in H1, H2.
    apply (in_column H c1 e W) in He1; [|lia]. apply (in_column H c2 e W) in He2; [|lia].
    destruct (Nat.lt_ge_cases c1 c2) as [Hlt|Hge].
    + pose proof (colind_monotone H W (c1 + 1) c2 ltac:(lia) ltac:(lia)). lia.
    + pose proof (colind_monotone H W (c2 + 1) c1 ltac:(lia) ltac:(lia)). lia.
  - apply (Hin cc el).
    + apply in_seq. lia.
    + exact Hel.
    + apply (in_column H cc el W Hcc) in Hel.
      pose proof (colind_monotone H W (cc + 1) (size2 (sparsity H)) ltac:(lia) ltac:(lia)).
      pose proof (wf_nnz W). lia.
Qed.

Lemma elem_regularize (H : DMatrix Q) (reg : Q) (i j : nat) :
  well_formed H -> (j < size2 (sparsity H))%nat ->
  elem (regularize H reg) i j
  = match find (fun el => Nat.eqb (row_at H el) i) (column H j) with
    | Some el => if Nat.eqb i j then (data H).[el] + reg else (data H).[el]
    | None => 0
    end.
Proof.
  intros W Hj. unfold elem.
  change (column (regularize H reg) j) with (column H j).
  change (row_at (regularize H reg)) with (row_at H).
  destruct (find _ (column H j)) as [el|] eqn:Ef; [|reflexivity].
  destruct (find_some _ _ Ef) as (Hel & Er). apply Nat.eqb_eq in Er.
  rewrite (regularize_data H reg j el W Hj Hel). rewrite Er. reflexivity.
Qed.

Lemma row_bound_regularize (H : DMatrix Q) (reg : Q) (i : nat) :
  well_formed H -> diagonal_stored H -> (i < size2 (sparsity H))%nat ->
  row_bound (regularize H reg) i == row_bound H i + reg.
Proof.
  intros W D Hi. unfold row_bound.
  change (size2 (sparsity (regularize H reg))) with (size2 (sparsity H)).
  rewrite (Qsum_ext
             (fun j => if Nat.eqb j i then 0 else Qabs (elem (regularize H reg) i j))
             (fun j => if Nat.eqb j i then 0 else Qabs (elem H i j))).
  - rewrite (elem_regularize H reg i i W Hi). unfold elem. rewrite Nat.eqb_refl.
    destruct (find _ (column H i)) as [el|] eqn:Ef; [ring|].
    exfalso. destruct (D i Hi) as (el & Hel & Er).
    pose proof (find_none _ _ Ef el Hel) as Hn. cbv beta in Hn.
    rewrite Er, Nat.eqb_refl in Hn. discriminate.
  - intros j Hj. destruct (Nat.eqb_spec j i) as [->|Ne]; [reflexivity|].
    rewrite (elem_regularize H reg i j W Hj). unfold elem.
    destruct (Nat.eqb_spec i j); [congruence|].
    destruct (find _ (column H j)); reflexivity.
Qed.

Lemma row_bound_symmetric (H : DMatrix Q) (i : nat) :
  well_formed H -> symmetric H -> (i < size2 (sparsity H))%nat ->
  row_bound H i == column_bound H i.
Proof.
  intros W S Hi. rewrite (column_bound_dense H i W Hi). unfold row_bound.
  apply Qplus_inj_l. apply Qopp_comp. apply Qsum_ext. intros j Hj.
  destruct (Nat.eqb j i); [reflexivity|]. rewrite (S i j Hi Hj). reflexivity.
Qed.

(** [regularized] is what [eval_h] returns when the option is set. *)
Lemma eval_h_regularized (cfg : Config Q) (P : Ports Q) (x lambda : vec Q) (sigma reg : Q)
    (H0 : DMatrix Q) :
  regularize_ cfg = true ->
  hessLag P x sigma lambda = Returns H0 ->
  eval_h cfg P x lambda sigma reg = Ok (regularized H0, getRegularization H0).
Proof.
  intros Hr Hh. unfold eval_h, regularized. rewrite Hh, Hr. cbn [call bind].
  destruct (sltb s0 (getRegularization H0)); reflexivity.
Qed.

(** C7 (as amended). In exact arithmetic, for a symmetric matrix in the
    storage of the Hessian (every diagonal entry is a nonzero of the
    pattern), after the shift of [getRegularization] is added to the
    diagonal when it is positive, the Gershgorin bound of every row is
    not negative.  In binary64 the sums are rounded and a bound of the
    shifted matrix can come out negative by a rounding error
    ([regularized_bound_negative_in_binary64]). *)
Theorem regularized_gershgorin_bounds_nonnegative :
  forall H : DMatrix Q,
    well_formed H -> diagonal_stored H -> symmetric H ->
    forall i, (i < size2 (sparsity H))%nat -> 0 <= row_bound (regularized H) i.
Proof.
  intros H W D S i Hi. unfold regularized.
  destruct (getRegularization_spec H) as (Hnn & Hall). specialize (Hall i Hi).
  pose proof (row_bound_symmetric H i W S Hi) as Hrc.
  cbn [sltb Q_scalar s0].
  destruct (Qle_bool (getRegularization H) 0) eqn:E; cbn [negb].
  - apply Qle_bool_iff in E. rewrite Hrc. lra.
  - rewrite (row_bound_regularize H _ i W D Hi). rewrite Hrc. lra.
Qed.

End Regularization.

Lemma well_formed_indefinite : well_formed Ex.indefinite.
Proof.
  constructor.
  - reflexivity.
  - intros [|[|cc]] Hcc; cbn in *; lia.
  - cbn. lia.
  - intros [|[|cc]] Hcc; cbn in Hcc; try lia;
      cbn; repeat constructor; cbn; intuition discriminate.
  - intros [|[|cc]] el Hcc Hel; cbn in Hcc; try lia;
      cbn in Hel; destruct Hel as [<-|[<-|[]]]; cbn; lia.
Qed.

Lemma regularized_gershgorin_bounds_nonnegative_witness :
  (0 <= row_bound (regularized Ex.indefinite) 0)%Q /\
  (row_bound Ex.indefinite 0 < 0)%Q.
Proof.
  split; [|reflexivity].
  apply regularized_gershgorin_bounds_nonnegative.
  - exact well_formed_indefinite.
  - intros [|[|cc]] Hcc; cbn in Hcc; try lia.
    + exists 0%nat. cbn. auto.
    + exists 3%nat. cbn. auto.
  - intros [|[|i]] [|[|j]] Hi Hj; cbn in Hi, Hj; try lia; reflexivity.
  - cbn. lia.
Defined.

(** In binary64 the amended statement holds up to rounding only: for
    [Ex2.rounded] the shift is 1, the first diagonal entry of the shifted
    matrix is [2^-53 + 1], rounded to 1, and the bound of the first row,
    [1 - (1 + 2^-52)], is negative. *)
Lemma regularized_bound_negative_in_binary64 :
  let H' := regularize Ex2.rounded (getRegularization Ex2.rounded) in
  getRegularization Ex2.rounded = 1%float /\
  (data H').[0] = 1%float /\
  PrimFloat.ltb (PrimFloat.sub (data H').[0] (PrimFloat.abs (data H').[2])) 0%float = true.
Proof. vm_compute. repeat split; reflexivity. Qed.

(** C7, as stated, fails: [regularize] adds the shift to the diagonal
    entries that are nonzeros of the pattern, and a symmetric matrix
    stored without them keeps its negative bounds. *)
Lemma regularize_skips_unstored_diagonal :
  symmetric Ex.no_diagonal /\
  (getRegularization Ex.no_diagonal == 1)%Q /\
  (row_bound (regularized Ex.no_diagonal) 0 < 0)%Q.
Proof.
  split.
  - intros [|[|i]] [|[|j]] Hi Hj; cbn in Hi, Hj; try lia; reflexivity.
  - split; reflexivity.
Qed.

(** * Further properties of the code *)

(** ** Runs of [evalD]: termination, return status, results *)

Section Runs.
Context {R : Type} `{Scalar R}.
Variable cfg : Config R.
Variable P : Ports R.
Variable inp : Inputs R.
Local Open Scope scalar_scope.

Lemma run_callback_cases (st : State R) :
  (exists e, run_callback P st = Exn e) \/ exists fl st1, run_callback P st = Ok (fl, st1).
Proof.
  unfold run_callback. destruct (fcallback_ P) as [cb|]; [|eauto].
  unfold callback_block. cbv zeta.
  destruct (cb _) as [ret|e]; cbn [call bind]; [|eauto].
  destruct (negb (ret =? 0)%Z); eauto.
Qed.

Lemma save_results_shape (st : State R) : outputs_apart st (save_results st).
Proof.
  unfold save_results. cbv zeta.
  repeat first [ apply (outputs_apart_setNZ _ _ _ _ true)
               | apply (outputs_apart_set_scalar _ _ _ _ true) ].
  apply outputs_apart_refl.
Qed.

Lemma within_tolerances_apart (st st1 : State R) :
  outputs_apart st st1 -> within_tolerances cfg inp st1 = within_tolerances cfg inp st.
Proof. intros (o & tr & rs & ->). reflexivity. Qed.

Lemma iteration_iter (ls_fuel : nat) (st st' : State R) :
  iteration cfg P inp ls_fuel st = Ok st' -> iter st' = (iter st + 1)%Z.
Proof.
  intros E. apply iteration_inv in E. destruct E as (st1 & st2 & E1 & E2 & K).
  apply formulate_and_solve_QP_frame in E1. destruct E1 as (_ & _ & I1 & _).
  apply globalize_kept in E2.
  destruct (kept_trans _ _ _ E2 K) as (_ & _ & _ & _ & _ & I2 & _).
  rewrite I2. unfold push_merit.
  match goal with |- context [if ?b then _ else _] => destruct b end;
    cbn [iter set_merit_mem_ update_sigma set_sigma_]; exact I1.
Qed.

Lemma convergence_check_inv (pr du dx : R) (it : Z) (s : Status) :
  convergence_check cfg pr du dx it = Some s ->
  match s with
  | Solve_Succeeded => (pr <? tol_pr_ cfg) && (du <? tol_du_ cfg) = true
  | Maximum_Iterations_Exceeded =>
      (pr <? tol_pr_ cfg) && (du <? tol_du_ cfg) = false /\ (max_iter_ cfg <= it)%Z
  | Search_Direction_Becomes_Too_Small =>
      (pr <? tol_pr_ cfg) && (du <? tol_du_ cfg) = false /\ (0 < it < max_iter_ cfg)%Z /\
      (dx <=? min_step_size_ cfg) = true
  | User_Requested_Stop => False
  end.
Proof.
  unfold convergence_check.
  destruct ((pr <? tol_pr_ cfg) && (du <? tol_du_ cfg)) eqn:Ec.
  - intros E. inversion E. reflexivity.
  - destruct (Z.geb_spec it (max_iter_ cfg)) as [Hge|Hlt].
    + intros E. inversion E. split; [reflexivity|lia].
    + destruct (Z.gtb_spec it 0) as [Hgt|Hle]; cbn [andb].
      * destruct (dx <=? min_step_size_ cfg) eqn:Ed; intros E; inversion E.
        split; [reflexivity|]. split; [lia|reflexivity].
      * discriminate.
Qed.

Lemma convergence_check_none (pr du dx : R) (it : Z) :
  convergence_check cfg pr du dx it = None -> (it < max_iter_ cfg)%Z.
Proof.
  unfold convergence_check.
  destruct ((pr <? tol_pr_ cfg) && (du <? tol_du_ cfg)); [discriminate|].
  destruct (Z.geb_spec it (max_iter_ cfg)) as [Hge|Hlt]; [discriminate|]. intros _. exact Hlt.
Qed.

(** A pass that leaves the loop leaves a state whose status is justified. *)
Lemma loop_pass_break (ls_fuel : nat) (st st' : State R) :
  loop_pass cfg P inp ls_fuel st = Ok (Break, st') ->
  status_justified cfg P inp st' /\ iter st' = iter st.
Proof.
  unfold loop_pass.
  destruct (run_callback P st) as [[fl1 st1]| | |] eqn:Ec; cbn [bind]; try discriminate.
  pose proof (run_callback_shape _ _ _ _ Ec) as Hsh.
  destruct (outputs_apart_fields _ _ Hsh) as (Fx & Fg & Fl & Fd & Fi & _).
  destruct fl1.
  - destruct (convergence_check _ _ _ _ _) as [s|] eqn:Ek.
    + intros E. inversion E; subst st'. clear E.
      apply convergence_check_inv in Ek. split; [|exact Fi].
      assert (Hl : outputs_apart st (leave s st1))
        by (apply outputs_apart_leave; exact Hsh).
      destruct (outputs_apart_fields _ _ Hl) as (Lx & Lg & Ll & Ld & Li & _).
      unfold status_justified.
      rewrite (within_tolerances_apart _ _ Hl), Ld, Li.
      change (return_status (leave s st1)) with (Some s).
      unfold within_tolerances. rewrite <- Fi. destruct s; first [exact Ek | contradiction].
    + destruct (iteration _ _ _ _ _); cbn [bind]; discriminate.
  - intros E. inversion E; subst st'. clear E.
    destruct (run_callback_break _ _ _ Ec) as (Hs & Hcb).
    split; [|exact Fi].
    unfold status_justified. rewrite Hs. exact Hcb.
Qed.

Lemma loop_pass_continue (ls_fuel : nat) (st st' : State R) :
  loop_pass cfg P inp ls_fuel st = Ok (Continue, st') ->
  (iter st < max_iter_ cfg)%Z /\ iter st' = (iter st + 1)%Z.
Proof.
  unfold loop_pass.
  destruct (run_callback P st) as [[fl1 st1]| | |] eqn:Ec; cbn [bind]; try discriminate.
  pose proof (run_callback_shape _ _ _ _ Ec) as Hsh.
  destruct (outputs_apart_fields _ _ Hsh) as (_ & _ & _ & _ & Fi & _).
  destruct fl1; [|discriminate].
  destruct (convergence_check _ _ _ _ _) as [s|] eqn:Ek; [discriminate|].
  destruct (iteration _ _ _ _ _) as [st2| | |] eqn:Ei; cbn [bind]; try discriminate.
  intros E. inversion E; subst st'. clear E.
  apply convergence_check_none in Ek. apply iteration_iter in Ei.
  rewrite Fi in Ek, Ei. split; [exact Ek|exact Ei].
Qed.

Lemma main_loop_result (ls_fuel : nat) :
  forall fuel st st',
    main_loop cfg P inp fuel ls_fuel st = Ok st' ->
    status_justified cfg P inp st' /\
    (iter st <= iter st' <= Z.max (iter st) (max_iter_ cfg))%Z.
Proof.
  induction fuel as [|fuel IH]; intros st st' E; [discriminate|].
  cbn [main_loop] in E.
  destruct (loop_pass _ _ _ _ _) as [[fl st1]| | |] eqn:Ep; cbn [bind] in E; try discriminate.
  destruct fl.
  - apply loop_pass_continue in Ep. destruct Ep as (Hlt & Hi).
    apply IH in E. destruct E as (J & Hb). split; [exact J|]. lia.
  - inversion E; subst st1. apply loop_pass_break in Ep. destruct Ep as (J & Hi).
    split; [exact J|]. lia.
Qed.

Lemma prepare_iter (st st' : State R) :
  prepare cfg P inp st = Ok st' -> iter st' = 0%Z.
Proof.
  unfold prepare. cbv zeta.
  destruct (eval_jac_g _ _ _ _ _) as [[gk Jk]| | |]; cbn [bind]; try discriminate.
  destruct (eval_grad_f _ _) as [[fk gf]| | |]; cbn [bind]; try discriminate.
  destruct (exact_hessian_ cfg).
  - destruct (eval_h _ _ _ _ _ _) as [[Bk reg]| | |]; cbn [bind]; try discriminate.
    intros E. inversion E. reflexivity.
  - cbn [bind]. intros E. inversion E. reflexivity.
Qed.

(** X1. A solve that returns carries a definite status, and the status
    is justified by the returned iterate: [Solve_Succeeded] only within
    both tolerances, [Maximum_Iterations_Exceeded] only outside them with
    the counter at the limit, [Search_Direction_Becomes_Too_Small] only
    outside them, after at least one iteration and below the limit, with a
    step within [min_step_size_], [User_Requested_Stop] only with a
    callback installed. *)
Theorem returned_status_is_justified :
  forall fuel ls_fuel st st',
    evalD cfg P inp fuel ls_fuel st = Ok st' ->
    status_justified cfg P inp st'.
Proof.
  intros fuel ls_fuel st st'. unfold evalD. cbv zeta.
  destruct (prepare _ _ _ _) as [st1| | |] eqn:E1; cbn [bind]; try discriminate.
  destruct (main_loop _ _ _ _ _ _) as [st2| | |] eqn:E2; cbn [bind]; try discriminate.
  intros E. inversion E; subst st'. clear E.
  apply main_loop_result in E2. destruct E2 as (J & _).
  pose proof (save_results_shape st2) as Hsh.
  destruct (outputs_apart_fields _ _ Hsh) as (_ & _ & _ & Fd & Fi & _).
  revert J. unfold status_justified.
  rewrite (within_tolerances_apart _ _ Hsh), Fd, Fi.
  change (return_status (save_results st2)) with (return_status st2). exact (fun J => J).
Qed.

(** X2. The number of iterations of a solve that returns lies between 0
    and [max_iter_] (0 when [max_iter_] is negative). *)
Theorem iteration_count_within_limit :
  forall fuel ls_fuel st st',
    evalD cfg P inp fuel ls_fuel st = Ok st' ->
    (0 <= iter st' <= Z.max 0 (max_iter_ cfg))%Z.
Proof.
  intros fuel ls_fuel st st'. unfold evalD. cbv zeta.
  destruct (prepare _ _ _ _) as [st1| | |] eqn:E1; cbn [bind]; try discriminate.
  destruct (main_loop _ _ _ _ _ _) as [st2| | |] eqn:E2; cbn [bind]; try discriminate.
  intros E. inversion E; subst st'. clear E.
  apply main_loop_result in E2. destruct E2 as (_ & Hb).
  apply prepare_iter in E1. rewrite E1 in Hb.
  change (iter (save_results st2)) with (iter st2). exact Hb.
Qed.

End Runs.

(** ** Exceptions and termination *)

Section Termination.
Context {R : Type} `{Scalar R}.
Variable cfg : Config R.
Variable P : Ports R.
Variable inp : Inputs R.
Local Open Scope scalar_scope.

























End Termination.

(** ** The result of the line search *)

Section LineSearchResult.
Context {R : Type} `{Scalar R}.
Variable cfg : Config R.
Variable P : Ports R.
Variable inp : Inputs R.
Local Open Scope scalar_scope.

(** What a line search that returns has done: at least one trial; [t]
    shrunk by [beta_] once per trial after the first; the last trial
    point evaluated without failure; the success flag cleared exactly when
    that point fails the acceptance test, which happens only with the
    counter at [max_iter_ls_]. *)
Lemma line_search_loop_result (L1dir : R) :
  forall fuel st st',
    line_search_loop cfg P inp fuel L1dir st = Ok st' ->
    (ls_iter st < ls_iter st')%Z /\
    t st' = Nat.iter (Z.to_nat (ls_iter st' - ls_iter st - 1)) (smul (beta_ cfg)) (t st) /\
    exists fk g0 meritmax xc,
      x_cand_ st'
      = for_range 0 (nx_ cfg)
          (fun i x_cand => upd i ((x_ st).[i] + t st' * (dx_ st).[i]) x_cand) xc /\
      eval_f P (x_cand_ st') = Ok fk /\
      eval_g cfg P (x_cand_ st') g0 = Ok (gk_cand_ st') /\
      max_element (merit_mem_ st) = Some meritmax /\
      let accepted :=
        fk + sigma_ st * primalInfeasibility (x_cand_ st') (in_lbx inp) (in_ubx inp)
                           (gk_cand_ st') (in_lbg inp) (in_ubg inp)
        <=? meritmax + t st' * c1_ cfg * L1dir in
      (accepted = true /\ ls_success st' = ls_success st) \/
      (accepted = false /\ ls_success st' = false /\ ls_iter st' = max_iter_ls_ cfg).
Proof.
  induction fuel as [|fuel IH]; intros st st' E; [discriminate|].
  cbn [line_search_loop] in E.
  match type of E with context [set_x_cand_ ?v st] => set (sta := set_x_cand_ v st) in * end.
  assert (Hrec : forall stb,
             x_ stb = x_ st -> dx_ stb = dx_ st -> sigma_ stb = sigma_ st ->
             merit_mem_ stb = merit_mem_ st -> ls_success stb = ls_success st ->
             ls_iter stb = (ls_iter st + 1)%Z -> t stb = beta_ cfg * t st ->
             line_search_loop cfg P inp fuel L1dir stb = Ok st' ->
             (ls_iter st < ls_iter st')%Z /\
             t st' = Nat.iter (Z.to_nat (ls_iter st' - ls_iter st - 1))
                       (smul (beta_ cfg)) (t st) /\
             exists fk g0 meritmax xc,
               x_cand_ st'
               = for_range 0 (nx_ cfg)
                   (fun i x_cand => upd i ((x_ st).[i] + t st' * (dx_ st).[i]) x_cand) xc /\
               eval_f P (x_cand_ st') = Ok fk /\
               eval_g cfg P (x_cand_ st') g0 = Ok (gk_cand_ st') /\
               max_element (merit_mem_ st) = Some meritmax /\
               let accepted :=
                 fk + sigma_ st * primalInfeasibility (x_cand_ st') (in_lbx inp) (in_ubx inp)
                                    (gk_cand_ st') (in_lbg inp) (in_ubg inp)
                 <=? meritmax + t st' * c1_ cfg * L1dir in
               (accepted = true /\ ls_success st' = ls_success st) \/
               (accepted = false /\ ls_success st' = false /\
                ls_iter st' = max_iter_ls_ cfg)).
  { intros stb Hx Hd Hs Hm Hok Hi Ht Eb. apply IH in Eb.
    rewrite Hx, Hd, Hs, Hm, Hok, Hi, Ht in Eb.
    destruct Eb as (Hlt & Htt & Hex). split; [lia|]. split; [|exact Hex].
    rewrite Htt.
    replace (ls_iter st' - ls_iter st - 1)%Z
      with (Z.succ (ls_iter st' - (ls_iter st + 1) - 1)) by lia.
    rewrite Z2Nat.inj_succ by lia. cbn [Nat.iter]. apply Nat.iter_swap. }
  destruct (eval_f_cases P (x_cand_ sta)) as [(e & _ & Ef)|[fk Ef]];
    rewrite Ef in E; cbn [bind] in E.
  - destruct e; [|discriminate]. apply Hrec in E; auto.
  - destruct (eval_g_cases cfg P (x_cand_ sta) (gk_cand_ sta)) as [(e & _ & Eg)|[gk Eg]];
      rewrite Eg in E; cbn [bind] in E.
    + destruct e; [|discriminate]. apply Hrec in E; auto.
    + cbn [merit_mem_ set_ls_iter set_gk_cand_] in E.
      change (merit_mem_ sta) with (merit_mem_ st) in E.
      destruct (max_element (merit_mem_ st)) as [meritmax|] eqn:Em; [|discriminate].
      match type of E with
      | (if ?b then _ else _) = _ => destruct b eqn:Ea
      end.
      * injection E as <-.
        split; [cbn; lia|]. split.
        { replace (Z.to_nat _) with 0%nat; [reflexivity|cbn; lia]. }
        exists fk, (gk_cand_ sta), meritmax, (x_cand_ st).
        split; [reflexivity|]. split; [exact Ef|]. split; [exact Eg|].
        split; [reflexivity|]. left. split; [exact Ea|reflexivity].
      * match type of E with
        | (if ?b then _ else _) = _ => destruct b eqn:Eq
        end.
        -- injection E as <-.
           split; [cbn; lia|]. split.
           { replace (Z.to_nat _) with 0%nat; [reflexivity|cbn; lia]. }
           exists fk, (gk_cand_ sta), meritmax, (x_cand_ st).
           split; [reflexivity|]. split; [exact Ef|]. split; [exact Eg|].
           split; [reflexivity|]. right. split; [exact Ea|]. split; [reflexivity|].
           apply Z.eqb_eq in Eq. exact Eq.
        -- apply Hrec in E; auto.
Qed.

(** X7. When the line search ends with the success flag set, the trial
    point that becomes the new iterate was evaluated without failure and
    satisfies the acceptance test
    [L1merit_cand <= meritmax + t * c1 * L1dir] with the maximum of the
    merit memory. *)
Theorem accepted_step_satisfies_armijo :
  forall ls_fuel L1dir st st',
    (0 < max_iter_ls_ cfg)%Z ->
    globalize cfg P inp ls_fuel L1dir st = Ok st' ->
    ls_success st' = true ->
    exists fk g0 meritmax,
      eval_f P (x_cand_ st') = Ok fk /\
      eval_g cfg P (x_cand_ st') g0 = Ok (gk_cand_ st') /\
      max_element (merit_mem_ st) = Some meritmax /\
      (fk + sigma_ st * primalInfeasibility (x_cand_ st') (in_lbx inp) (in_ubx inp)
                          (gk_cand_ st') (in_lbg inp) (in_ubg inp)
       <=? meritmax + t st' * c1_ cfg * L1dir) = true.
Proof.
  intros ls_fuel L1dir st st' Hpos. unfold globalize.
  destruct (Z.gtb_spec (max_iter_ls_ cfg) 0) as [_|Hle]; [|lia].
  destruct (line_search_loop _ _ _ _ _ _) as [st1| | |] eqn:E; cbn [bind]; try discriminate.
  intros E' Hs. inversion E'; subst st'. clear E'.
  cbn [ls_success set_x_ set_x_old_ set_mu_x_ set_mu_ x_cand_ gk_cand_ t] in Hs |- *.
  apply line_search_loop_result in E.
  destruct E as (_ & _ & fk & g0 & meritmax & xc & _ & Ef & Eg & Em & Hacc).
  cbn [merit_mem_ sigma_ set_ls_success set_ls_iter set_t ls_success] in Em, Hacc.
  exists fk, g0, meritmax. split; [exact Ef|]. split; [exact Eg|]. split; [exact Em|].
  cbv zeta in Hacc. destruct Hacc as [(Ha & _)|(_ & Hf & _)]; [exact Ha|congruence].
Qed.

(** X8. After an enabled line search the trial counter is at least one,
    the step length is [beta_] applied [ls_iter - 1] times to 1, the trial
    point is [x + t * dx], and the success flag is cleared only with the
    counter at [max_iter_ls_]. *)
Theorem line_search_step_length :
  forall ls_fuel L1dir st st',
    (0 < max_iter_ls_ cfg)%Z ->
    globalize cfg P inp ls_fuel L1dir st = Ok st' ->
    (1 <= ls_iter st')%Z /\
    t st' = Nat.iter (Z.to_nat (ls_iter st' - 1)) (smul (beta_ cfg)) s1 /\
    (exists xc,
        x_cand_ st'
        = for_range 0 (nx_ cfg)
            (fun i x_cand => upd i ((x_ st).[i] + t st' * (dx_ st).[i]) x_cand) xc) /\
    (ls_success st' = false -> ls_iter st' = max_iter_ls_ cfg).
Proof.
  intros ls_fuel L1dir st st' Hpos. unfold globalize.
  destruct (Z.gtb_spec (max_iter_ls_ cfg) 0) as [_|Hle]; [|lia].
  destruct (line_search_loop _ _ _ _ _ _) as [st1| | |] eqn:E; cbn [bind]; try discriminate.
  intros E'. inversion E'; subst st'. clear E'.
  cbn [ls_success ls_iter set_x_ set_x_old_ set_mu_x_ set_mu_ x_cand_ gk_cand_ t].
  apply line_search_loop_result in E.
  destruct E as (Hlt & Ht & fk & g0 & meritmax & xc & Hx & _ & _ & _ & Hacc).
  cbn [ls_iter t x_ dx_ ls_success set_ls_success set_ls_iter set_t] in Hlt, Ht, Hx, Hacc.
  split; [lia|]. split.
  - rewrite Ht. f_equal. f_equal. lia.
  - split; [exists xc; exact Hx|].
    cbv zeta in Hacc. destruct Hacc as [(_ & Hs)|(_ & _ & Hm)]; [congruence|auto].
Qed.

End LineSearchResult.

(** ** The iterate and the outputs *)

Section Iterate.
Context {R : Type} `{Scalar R}.
Variable cfg : Config R.
Variable P : Ports R.
Variable inp : Inputs R.
Local Open Scope scalar_scope.

Lemma trial_apart_refl (st : State R) : trial_apart st st.
Proof. destruct st. eexists _, _, _, _, _. reflexivity. Qed.

Lemma trial_apart_set_x_cand_ (st a : State R) (v : vec R) :
  trial_apart st a -> trial_apart st (set_x_cand_ v a).
Proof. intros (xc & gc & li & ok & tt & ->). exists v, gc, li, ok, tt. destruct st. reflexivity. Qed.

Lemma trial_apart_set_gk_cand_ (st a : State R) (v : vec R) :
  trial_apart st a -> trial_apart st (set_gk_cand_ v a).
Proof. intros (xc & gc & li & ok & tt & ->). exists xc, v, li, ok, tt. destruct st. reflexivity. Qed.

Lemma trial_apart_set_ls_iter (st a : State R) (v : Z) :
  trial_apart st a -> trial_apart st (set_ls_iter v a).
Proof. intros (xc & gc & li & ok & tt & ->). exists xc, gc, v, ok, tt. destruct st. reflexivity. Qed.

Lemma trial_apart_set_ls_success (st a : State R) (v : bool) :
  trial_apart st a -> trial_apart st (set_ls_success v a).
Proof. intros (xc & gc & li & ok & tt & ->). exists xc, gc, li, v, tt. destruct st. reflexivity. Qed.

Lemma trial_apart_set_t (st a : State R) (v : R) :
  trial_apart st a -> trial_apart st (set_t v a).
Proof. intros (xc & gc & li & ok & tt & ->). exists xc, gc, li, ok, v. destruct st. reflexivity. Qed.

(** The line-search loop assigns nothing but its own variables. *)
Lemma line_search_loop_trial_apart (L1dir : R) :
  forall fuel st0 st st',
    trial_apart st0 st ->
    line_search_loop cfg P inp fuel L1dir st = Ok st' -> trial_apart st0 st'.
Proof.
  induction fuel as [|fuel IH]; intros st0 st st' Hst E; [discriminate|].
  cbn [line_search_loop] in E.
  match type of E with context [set_x_cand_ ?v st] => set (sta := set_x_cand_ v st) in * end.
  assert (Ha : trial_apart st0 sta) by (apply trial_apart_set_x_cand_; exact Hst).
  clearbody sta.
  destruct (eval_f_cases P (x_cand_ sta)) as [(e & _ & Ef)|[fk Ef]];
    rewrite Ef in E; cbn [bind] in E.
  - destruct e; [|discriminate].
    eapply IH; [|exact E]. apply trial_apart_set_t. apply trial_apart_set_ls_iter. exact Ha.
  - destruct (eval_g_cases cfg P (x_cand_ sta) (gk_cand_ sta)) as [(e & _ & Eg)|[gk Eg]];
      rewrite Eg in E; cbn [bind] in E.
    + destruct e; [|discriminate].
      eapply IH; [|exact E]. apply trial_apart_set_t. apply trial_apart_set_ls_iter. exact Ha.
    + destruct (max_element _) as [meritmax|]; [|discriminate].
      assert (Hb : trial_apart st0
                     (set_ls_iter (ls_iter (set_gk_cand_ gk sta) + 1) (set_gk_cand_ gk sta))).
      { apply trial_apart_set_ls_iter. apply trial_apart_set_gk_cand_. exact Ha. }
      repeat match type of E with
      | (if ?b then _ else _) = _ => destruct b
      end.
      * injection E as <-. exact Hb.
      * injection E as <-. apply trial_apart_set_ls_success. exact Hb.
      * eapply IH; [|exact E]. apply trial_apart_set_t. exact Hb.
Qed.

Lemma trial_apart_fields (st st1 : State R) :
  trial_apart st st1 ->
  x_ st1 = x_ st /\ x_old_ st1 = x_old_ st /\ mu_ st1 = mu_ st /\ mu_x_ st1 = mu_x_ st /\
  fk_ st1 = fk_ st /\ gk_ st1 = gk_ st /\ gf_ st1 = gf_ st /\ Bk_ st1 = Bk_ st /\
  gLag_ st1 = gLag_ st.
Proof. intros (xc & gc & li & ok & tt & ->). repeat split. Qed.

Lemma globalize_x_old (ls_fuel : nat) (L1dir : R) (st st' : State R) :
  globalize cfg P inp ls_fuel L1dir st = Ok st' ->
  x_old_ st' = std_copy (x_ st) (x_old_ st) /\
  ((0 < max_iter_ls_ cfg)%Z -> x_ st' = std_copy (x_cand_ st') (x_ st)).
Proof.
  unfold globalize. destruct (Z.gtb_spec (max_iter_ls_ cfg) 0) as [Hgt|Hle].
  - destruct (line_search_loop _ _ _ _ _ _) as [st1| | |] eqn:E; cbn [bind]; try discriminate.
    intros E'. injection E' as <-.
    eapply line_search_loop_trial_apart in E.
    2:{ apply trial_apart_set_ls_success. apply trial_apart_set_ls_iter.
        apply trial_apart_set_t. apply trial_apart_refl. }
    destruct (trial_apart_fields _ _ E) as (Fx & Fo & _).
    cbn [x_old_ x_ x_cand_ set_x_ set_x_old_ set_mu_x_ set_mu_].
    rewrite Fx, Fo. split; [reflexivity|]. intros _. reflexivity.
  - intros E'. injection E' as <-. split; [reflexivity|]. lia.
Qed.

(** X9. After an iteration [x_old_] holds the iterate the iteration
    started from, and after an enabled line search the new iterate is the
    last trial point (for vectors of the sizes that [init] gives them). *)
Theorem iteration_keeps_previous_iterate :
  forall ls_fuel st st',
    iteration cfg P inp ls_fuel st = Ok st' ->
    length (x_old_ st) = length (x_ st) ->
    x_old_ st' = x_ st /\
    ((0 < max_iter_ls_ cfg)%Z -> length (x_ st) = length (x_cand_ st') ->
     x_ st' = x_cand_ st').
Proof.
  intros ls_fuel st st' E Hlen.
  destruct (iteration_step_kept _ _ _ _ _ _ E) as (st1 & st2 & E1 & E2 & K & S).
  apply formulate_and_solve_QP_frame in E1.
  destruct E1 as (_ & _ & _ & _ & _ & X1 & _ & _ & _ & O1).
  cbn [x_ x_old_ set_iter] in X1, O1.
  destruct (push_merit_step cfg (l1_merit inp (update_sigma st1)) (update_sigma st1))
    as ((X3 & O3 & _) & _).
  cbn [update_sigma x_ x_old_ set_sigma_] in X3, O3.
  apply globalize_x_old in E2. destruct E2 as (G1 & G2).
  destruct S as (S1 & S2 & _ & _ & _ & _ & _ & S8).
  rewrite X3, X1 in G1, G2. rewrite O3, O1 in G1.
  split.
  - rewrite S2, G1. apply std_copy_all. exact Hlen.
  - intros Hpos Hl. rewrite S1, S8, (G2 Hpos). apply std_copy_all.
    rewrite Hl, S8. reflexivity.
Qed.

Lemma firstn_prefix {A : Type} (a b : list A) : firstn (length a) (a ++ b) = a.
Proof. induction a as [|x a IH]; cbn; [reflexivity|]. rewrite IH. reflexivity. Qed.

(** X10. The outputs of a solve that returns hold the final iterate: the
    buffers of [x], [lam_g], [lam_x] and [g] start with [x_], [mu_],
    [mu_x_] and [gk_], and every entry of the buffer of [f] is [fk_]. *)
Theorem outputs_hold_final_iterate :
  forall fuel ls_fuel st st',
    evalD cfg P inp fuel ls_fuel st = Ok st' ->
    firstn (length (x_ st')) (out_x (output st')) = x_ st' /\
    firstn (length (mu_ st')) (out_lam_g (output st')) = mu_ st' /\
    firstn (length (mu_x_ st')) (out_lam_x (output st')) = mu_x_ st' /\
    firstn (length (gk_ st')) (out_g (output st')) = gk_ st' /\
    Forall (fun a => a = fk_ st') (out_f (output st')).
Proof.
  intros fuel ls_fuel st st'. unfold evalD. cbv zeta.
  destruct (prepare _ _ _ _) as [st1| | |]; cbn [bind]; try discriminate.
  destruct (main_loop _ _ _ _ _ _) as [st2| | |]; cbn [bind]; try discriminate.
  intros E. injection E as <-.
  unfold save_results, setNZ, set_scalar, log.
  cbn [x_ mu_ mu_x_ gk_ fk_ output set_trace set_output put out_x out_lam_g out_lam_x
       out_g out_f].
  unfold std_copy. rewrite !firstn_prefix.
  repeat split. apply Forall_forall. intros a Ha. apply in_map_iff in Ha.
  destruct Ha as (b & Hb & _). symmetry. exact Hb.
Qed.

End Iterate.

(** ** Loops over the nonzeros of a matrix *)

Section ColumnLoops.
Context {R : Type} `{Scalar R}.

(** A loop over the nonzeros of one column that assigns [g el data[el]]
    to the nonzeros selected by [p]. *)
Lemma update_column (p : nat -> bool) (g : nat -> R -> R) (l : list nat) :
  NoDup l ->
  forall d : vec R,
    let d' := fold_left (fun d el => if p el then upd el (g el d.[el]) d else d) l d in
    length d' = length d /\
    (forall e, ~ In e l -> d'.[e] = d.[e]) /\
    (forall e, In e l -> (e < length d)%nat -> d'.[e] = if p e then g e d.[e] else d.[e]).
Proof.
  induction 1 as [|e0 l Hnotin Hnd IH]; intros d; cbn [fold_left].
  - repeat split; auto. intros e [].
  - match goal with |- context [fold_left _ l ?a] => set (d1 := a) in * end.
    assert (L1 : length d1 = length d).
    { unfold d1. destruct (p e0); [apply upd_length|reflexivity]. }
    assert (O1 : forall e, e <> e0 -> d1.[e] = d.[e]).
    { intros e Hne. unfold d1, get. destruct (p e0); [|reflexivity].
      apply upd_other. congruence. }
    assert (S1 : (e0 < length d)%nat -> d1.[e0] = if p e0 then g e0 d.[e0] else d.[e0]).
    { intros Hlt. unfold d1, get. destruct (p e0); [|reflexivity]. apply upd_same. exact Hlt. }
    specialize (IH d1). cbv zeta in IH. destruct IH as (L & Hout & Hin).
    clearbody d1.
    split; [rewrite L; exact L1|]. split.
    + intros e He. rewrite Hout by (intros Hl; apply He; right; exact Hl).
      apply O1. intros ->. apply He. left. reflexivity.
    + intros e [<-|He] Hlt.
      * rewrite Hout by exact Hnotin. apply S1. exact Hlt.
      * rewrite Hin by (auto; rewrite L1; exact Hlt).
        rewrite O1; [reflexivity|]. intros ->. contradiction.
Qed.

Lemma update_columns_rest (p : nat -> nat -> bool) (g : nat -> nat -> R -> R)
    (col : nat -> list nat) (cs : list nat) :
  (forall c, In c cs -> NoDup (col c)) ->
  forall (d : vec R) (e : nat),
    (forall c, In c cs -> ~ In e (col c)) ->
    (fold_left
       (fun d c =>
          fold_left (fun d el => if p c el then upd el (g c el d.[el]) d else d)
            (col c) d) cs d).[e] = d.[e].
Proof.
  induction cs as [|c cs IHc]; intros Hcol d e He; [reflexivity|].
  cbn [fold_left].
  destruct (update_column (p c) (g c) (col c) (Hcol c (or_introl eq_refl)) d)
    as (_ & O & _).
  cbv zeta in O. rewrite IHc.
  - apply O. apply He. left. reflexivity.
  - intros c' Hc'. apply Hcol. right. exact Hc'.
  - intros c' Hc'. apply He. right. exact Hc'.
Qed.

(** The same over the columns of a matrix, when the columns own disjoint
    sets of nonzeros. *)
Lemma update_columns (p : nat -> nat -> bool) (g : nat -> nat -> R -> R)
    (col : nat -> list nat) (cs : list nat) :
  NoDup cs ->
  (forall c, In c cs -> NoDup (col c)) ->
  (forall c1 c2 e, In c1 cs -> In c2 cs -> c1 <> c2 -> In e (col c1) -> ~ In e (col c2)) ->
  forall d : vec R,
    let d' := fold_left
                (fun d c =>
                   fold_left (fun d el => if p c el then upd el (g c el d.[el]) d else d)
                     (col c) d) cs d in
    length d' = length d /\
    (forall c e, In c cs -> In e (col c) -> (e < length d)%nat ->
                 d'.[e] = if p c e then g c e d.[e] else d.[e]).
Proof.
  induction 1 as [|c0 cs Hnotin Hnd IH]; intros Hcol Hdisj d; cbn [fold_left].
  - split; auto. intros c e [].
  - destruct (update_column (p c0) (g c0) (col c0) (Hcol c0 (or_introl eq_refl)) d)
      as (L1 & O1 & I1).
    cbv zeta in L1, O1, I1.
    assert (Hcol' : forall c, In c cs -> NoDup (col c)) by (intros; apply Hcol; right; auto).
    assert (Hdisj' : forall c1 c2 e, In c1 cs -> In c2 cs -> c1 <> c2 ->
                       In e (col c1) -> ~ In e (col c2)).
    { intros c1 c2 e H1 H2. apply Hdisj; right; assumption. }
    pose proof (update_columns_rest p g col cs Hcol') as Hrest.
    set (d1 := fold_left _ (col c0) d) in *.
    specialize (IH Hcol' Hdisj' d1). cbv zeta in IH. destruct IH as (L & Hin).
    specialize (Hrest d1).
    clearbody d1.
    split; [rewrite L; exact L1|].
    intros c e [<-|Hc] He Hlt.
    + rewrite Hrest.
      * apply I1; assumption.
      * intros c Hc Hec. apply (Hdisj c0 c e); try assumption.
        -- left. reflexivity.
        -- right. exact Hc.
        -- intros <-. contradiction.
    + rewrite (Hin c e Hc He) by (rewrite L1; exact Hlt).
      rewrite O1; [reflexivity|].
      intros He0. apply (Hdisj c c0 e); try assumption.
      * right. exact Hc.
      * left. reflexivity.
      * intros ->. contradiction.
Qed.

End ColumnLoops.

(** ** The Hessian: regularization and reset *)

Section HessianFacts.
Local Open Scope Q_scope.

(** The loops of [regularize], [drop_off_diagonal] and [bfgs] over a
    well-formed matrix assign each nonzero once. *)
Lemma matrix_loop (H : DMatrix Q) (p : nat -> nat -> bool) (g : nat -> nat -> Q -> Q)
    (cc el : nat) :
  well_formed H -> (cc < size2 (sparsity H))%nat -> In el (column H cc) ->
  (for_range 0 (size2 (sparsity H))
     (fun c d =>
        for_range (colind_at H c) (colind_at H (c + 1))
          (fun e d => if p c e then upd e (g c e d.[e]) d else d) d)
     (data H)).[el]
  = if p cc el then g cc el (data H).[el] else (data H).[el].
Proof.
  intros W Hcc Hel. unfold for_range. rewrite Nat.sub_0_r.
  destruct (update_columns p g (column H) (seq 0 (size2 (sparsity H))))
    with (d := data H) as (_ & Hin).
  - apply seq_NoDup.
  - intros c Hc. apply seq_NoDup.
  - intros c1 c2 e H1 H2 Hne He1 He2. apply in_seq in H1, H2.
    apply (in_column H c1 e W) in He1; [|lia]. apply (in_column H c2 e W) in He2; [|lia].
    destruct (Nat.lt_ge_cases c1 c2) as [Hlt|Hge].
    + pose proof (colind_monotone H W (c1 + 1) c2 ltac:(lia) ltac:(lia)). lia.
    + pose proof (colind_monotone H W (c2 + 1) c1 ltac:(lia) ltac:(lia)). lia.
  - apply (Hin cc el).
    + apply in_seq. lia.
    + exact Hel.
    + apply (in_column H cc el W Hcc) in Hel.
      pose proof (colind_monotone H W (cc + 1) (size2 (sparsity H)) ltac:(lia) ltac:(lia)).
      pose proof (wf_nnz W). lia.
Qed.

Lemma running_min_attained (g : nat -> Q) (l : list nat) :
  forall r0,
    let m := fold_left (fun r cc => fmin r (g cc)) l r0 in
    m = r0 \/ exists cc, In cc l /\ m = g cc.
Proof.
  induction l as [|c l IH]; intros r0; cbn [fold_left]; [left; reflexivity|].
  specialize (IH (fmin r0 (g c))). cbv zeta in IH.
  destruct IH as [E|(cc & Hcc & E)].
  - rewrite E. cbn [fmin Q_scalar]. destruct (Qle_bool r0 (g c)).
    + left. reflexivity.
    + right. exists c. split; [left; reflexivity|reflexivity].
  - right. exists cc. split; [right; exact Hcc|exact E].
Qed.

(** X11. In exact arithmetic, a symmetric matrix whose Gershgorin row
    bounds are all nonnegative gets the shift 0 and is left as it is. *)
Theorem no_shift_when_bounds_nonnegative :
  forall H : DMatrix Q,
    well_formed H -> symmetric H ->
    (forall i, (i < size2 (sparsity H))%nat -> 0 <= row_bound H i) ->
    getRegularization H == 0 /\ regularized H = H.
Proof.
  intros H W S Hb.
  assert (Hz : getRegularization H == 0).
  { destruct (getRegularization_spec H) as (Hnn & _).
    rewrite getRegularization_folds in *.
    destruct (running_min_attained (column_bound H) (seq 0 (size2 (sparsity H))) 0)
      as [E|(cc & Hcc & E)]; cbv zeta in E.
    - rewrite E. reflexivity.
    - apply in_seq in Hcc. specialize (Hb cc ltac:(lia)).
      rewrite (row_bound_symmetric H cc W S) in Hb by lia.
      rewrite E in Hnn |- *. lra. }
  split; [exact Hz|]. unfold regularized. cbn [sltb Q_scalar s0].
  assert (Hle : Qle_bool (getRegularization H) 0 = true).
  { apply Qle_bool_iff. rewrite Hz. apply Qle_refl. }
  rewrite Hle. reflexivity.
Qed.

(** X12. In exact arithmetic the shift is the smallest that works: when
    it is positive, the Gershgorin bound of some row of the shifted
    matrix is exactly 0. *)
Theorem shift_is_tight :
  forall H : DMatrix Q,
    well_formed H -> diagonal_stored H -> symmetric H ->
    0 < getRegularization H ->
    exists i, (i < size2 (sparsity H))%nat /\ row_bound (regularized H) i == 0.
Proof.
  intros H W D S Hpos.
  assert (Hreg : regularized H = regularize H (getRegularization H)).
  { unfold regularized. cbn [sltb Q_scalar s0].
    destruct (Qle_bool (getRegularization H) 0) eqn:E; [|reflexivity].
    apply Qle_bool_iff in E. lra. }
  rewrite Hreg.
  destruct (running_min_attained (column_bound H) (seq 0 (size2 (sparsity H))) 0)
    as [E|(cc & Hcc & E)]; cbv zeta in E.
  - exfalso. rewrite getRegularization_folds, E in Hpos. revert Hpos. cbn. lra.
  - apply in_seq in Hcc. exists cc. split; [lia|].
    rewrite (row_bound_regularize H _ cc W D) by lia.
    rewrite (row_bound_symmetric H cc W S) by lia.
    rewrite getRegularization_folds, E. ring.
Qed.

(** X13. [regularize] changes the diagonal only: every entry off the
    diagonal keeps its value, and a symmetric matrix stays symmetric. *)
Theorem regularize_changes_diagonal_only :
  forall (H : DMatrix Q) (reg : Q),
    well_formed H ->
    sparsity (regularize H reg) = sparsity H /\
    (forall i j, (j < size2 (sparsity H))%nat -> i <> j ->
       elem (regularize H reg) i j = elem H i j) /\
    (symmetric H -> symmetric (regularize H reg)).
Proof.
  intros H reg W.
  assert (Hoff : forall i j, (j < size2 (sparsity H))%nat -> i <> j ->
                   elem (regularize H reg) i j = elem H i j).
  { intros i j Hj Hne. rewrite (elem_regularize H reg i j W Hj). unfold elem.
    destruct (Nat.eqb_spec i j); [contradiction|]. reflexivity. }
  split; [reflexivity|]. split; [exact Hoff|].
  intros S i j Hi Hj. change (size2 (sparsity (regularize H reg))) with (size2 (sparsity H)) in *.
  destruct (Nat.eq_dec i j) as [->|Hne]; [reflexivity|].
  rewrite (Hoff i j Hj Hne), (Hoff j i Hi (not_eq_sym Hne)). apply S; assumption.
Qed.

Lemma elem_drop_off_diagonal (H : DMatrix Q) (i j : nat) :
  well_formed H -> (j < size2 (sparsity H))%nat ->
  elem (drop_off_diagonal H) i j = if Nat.eqb i j then elem H i j else 0.
Proof.
  intros W Hj. unfold elem.
  change (column (drop_off_diagonal H) j) with (column H j).
  change (row_at (drop_off_diagonal H)) with (row_at H).
  destruct (find _ (column H j)) as [el|] eqn:Ef.
  - destruct (find_some _ _ Ef) as (Hel & Er). apply Nat.eqb_eq in Er.
    etransitivity;
      [exact (matrix_loop H (fun c e => negb (Nat.eqb c (row_at H e))) (fun _ _ _ => 0)
                j el W Hj Hel)|].
    cbv beta. rewrite Er, (Nat.eqb_sym j i). destruct (Nat.eqb i j); reflexivity.
  - destruct (Nat.eqb i j); reflexivity.
Qed.

(** X14. The periodic reset of the BFGS approximation keeps the diagonal
    and sets every entry off the diagonal to zero; the Gershgorin bound of
    each row becomes its diagonal entry. *)
Theorem reset_keeps_diagonal_only :
  forall H : DMatrix Q,
    well_formed H ->
    (forall i j, (j < size2 (sparsity H))%nat ->
       elem (drop_off_diagonal H) i j = if Nat.eqb i j then elem H i j else 0) /\
    (forall i, (i < size2 (sparsity H))%nat ->
       row_bound (drop_off_diagonal H) i == elem H i i).
Proof.
  intros H W. split.
  - intros i j Hj. apply elem_drop_off_diagonal; assumption.
  - intros i Hi. unfold row_bound.
    change (size2 (sparsity (drop_off_diagonal H))) with (size2 (sparsity H)).
    rewrite (elem_drop_off_diagonal H i i W Hi), Nat.eqb_refl.
    rewrite (Qsum_ext _ (fun _ => 0)).
    + rewrite Qsum_zero. ring.
    + intros j Hj. destruct (Nat.eqb_spec j i) as [->|Hne]; [reflexivity|].
      rewrite (elem_drop_off_diagonal H i j W Hj).
      destruct (Nat.eqb_spec i j); [congruence|]. reflexivity.
Qed.

End HessianFacts.

(** ** The BFGS update, in exact arithmetic *)

Section BfgsFacts.
Local Open Scope Q_scope.

Lemma bfgs_parts (Bk : DMatrix Q) (x x_old gLag gLag_old : vec Q) :
  bfgs Bk x x_old gLag gLag_old
  = {| sparsity := sparsity Bk;
       data :=
         for_range 0 (size2 (sparsity Bk))
           (fun cc d =>
              for_range (colind_at Bk cc) (colind_at Bk (cc + 1))
                (fun el d =>
                   upd el ((data Bk).[el]
                           + bfgs_theta Bk x x_old gLag gLag_old
                             * ((bfgs_yk Bk x x_old gLag gLag_old).[row_at Bk el]
                                * (bfgs_yk Bk x x_old gLag gLag_old).[cc])
                           - bfgs_phi Bk x x_old
                             * ((bfgs_qk Bk x x_old).[row_at Bk el]
                                * (bfgs_qk Bk x x_old).[cc])) d) d)
           (data Bk) |}.
Proof. reflexivity. Qed.

(** Every entry of the update of a dense matrix is
    [B[i,j] + theta * yk[i] * yk[j] - phi * qk[i] * qk[j]]. *)
Lemma elem_bfgs (Bk : DMatrix Q) (x x_old gLag gLag_old : vec Q) (i j : nat) :
  well_formed Bk -> dense Bk ->
  (i < size2 (sparsity Bk))%nat -> (j < size2 (sparsity Bk))%nat ->
  elem (bfgs Bk x x_old gLag gLag_old) i j
  = elem Bk i j
    + bfgs_theta Bk x x_old gLag gLag_old
      * ((bfgs_yk Bk x x_old gLag gLag_old).[i] * (bfgs_yk Bk x x_old gLag gLag_old).[j])
    - bfgs_phi Bk x x_old * ((bfgs_qk Bk x x_old).[i] * (bfgs_qk Bk x x_old).[j]).
Proof.
  intros W D Hi Hj. unfold elem.
  change (column (bfgs Bk x x_old gLag gLag_old) j) with (column Bk j).
  change (row_at (bfgs Bk x x_old gLag gLag_old)) with (row_at Bk).
  destruct (find _ (column Bk j)) as [el|] eqn:Ef.
  - destruct (find_some _ _ Ef) as (Hel & Er). apply Nat.eqb_eq in Er.
    rewrite bfgs_parts. cbn [data].
    etransitivity;
      [exact (matrix_loop Bk (fun _ _ => true)
                (fun c e _ =>
                   (data Bk).[e]
                   + bfgs_theta Bk x x_old gLag gLag_old
                     * ((bfgs_yk Bk x x_old gLag gLag_old).[row_at Bk e]
                        * (bfgs_yk Bk x x_old gLag gLag_old).[c])
                   - bfgs_phi Bk x x_old
                     * ((bfgs_qk Bk x x_old).[row_at Bk e] * (bfgs_qk Bk x x_old).[c]))
                j el W Hj Hel)|].
    cbv beta iota. rewrite Er. reflexivity.
  - exfalso. destruct (D i j Hi Hj) as (el & Hel & Er).
    pose proof (find_none _ _ Ef el Hel) as Hn. cbv beta in Hn.
    rewrite Er, Nat.eqb_refl in Hn. discriminate.
Qed.

(** X15. The update of a symmetric dense matrix is symmetric, whatever
    the vectors. *)
Theorem bfgs_preserves_symmetry :
  forall (Bk : DMatrix Q) (x x_old gLag gLag_old : vec Q),
    well_formed Bk -> dense Bk -> symmetric Bk ->
    symmetric (bfgs Bk x x_old gLag gLag_old).
Proof.
  intros Bk x x_old gLag gLag_old W D S i j Hi Hj.
  change (size2 (sparsity (bfgs Bk x x_old gLag gLag_old))) with (size2 (sparsity Bk)) in *.
  rewrite (elem_bfgs Bk x x_old gLag gLag_old i j W D Hi Hj).
  rewrite (elem_bfgs Bk x x_old gLag gLag_old j i W D Hj Hi).
  rewrite (S i j Hi Hj). ring.
Qed.

End BfgsFacts.

Section BfgsCurvature.
Local Open Scope Q_scope.

(** *** Inner products *)

Lemma sum_from (l : list Q) (a : Q) : fold_left Qplus l a == a + fold_left Qplus l 0.
Proof.
  revert a. induction l as [|b l IH]; intros a; cbn [fold_left]; [ring|].
  rewrite IH, (IH (0 + b)). ring.
Qed.

Lemma inner_prod_cons (a b : Q) (x y : vec Q) :
  inner_prod (a :: x) (b :: y) == a * b + inner_prod x y.
Proof.
  unfold inner_prod. cbn [zip_with fold_left s0 sadd smul Q_scalar].
  rewrite sum_from. ring.
Qed.

Lemma inner_prod_comm (x y : vec Q) : inner_prod x y == inner_prod y x.
Proof.
  revert y. induction x as [|a x IH]; intros [|b y]; try reflexivity.
  rewrite !inner_prod_cons, IH. ring.
Qed.

Lemma inner_prod_combination (w v : Q) (s : vec Q) :
  forall yk qk : vec Q,
    length yk = length s -> length qk = length s ->
    inner_prod s (zip_with Qplus (map (Qmult w) yk) (map (Qmult v) qk))
    == w * inner_prod s yk + v * inner_prod s qk.
Proof.
  induction s as [|a s IH]; intros [|b yk] [|c qk] Hy Hq; cbn in Hy, Hq; try discriminate.
  - cbn. ring.
  - cbn [map zip_with]. rewrite !inner_prod_cons, IH by congruence. ring.
Qed.

Lemma Qsum_shift (f : nat -> Q) (n : nat) :
  Qsum f (S n) == f 0%nat + Qsum (fun j => f (S j)) n.
Proof.
  induction n as [|n IH]; [cbn; ring|].
  change (Qsum f (S (S n))) with (Qsum f (S n) + f (S n)).
  rewrite IH. cbn [Qsum]. ring.
Qed.

Lemma inner_prod_Qsum (x : vec Q) :
  forall y : vec Q, length y = length x ->
    inner_prod x y == Qsum (fun j => x.[j] * y.[j]) (length x).
Proof.
  induction x as [|a x IH]; intros [|b y] Hl; cbn in Hl; try discriminate.
  - reflexivity.
  - cbn [length]. rewrite Qsum_shift, inner_prod_cons, IH by congruence. reflexivity.
Qed.

(** *** Lengths *)

Lemma fold_upd_length {A B : Type} (r : B -> nat) (v : list A -> B -> A) (l : list B) :
  forall z, length (fold_left (fun z el => upd (r el) (v z el) z) l z) = length z.
Proof.
  induction l as [|e l IH]; intros z; cbn [fold_left]; [reflexivity|].
  rewrite IH. apply upd_length.
Qed.

Lemma mv_length (A : DMatrix Q) (y : vec Q) : length (mv A y) = size1 (sparsity A).
Proof.
  unfold mv, for_range.
  assert (Hl : forall (cs : list nat) (z : vec Q),
             length (fold_left
                       (fun z cc =>
                          fold_left
                            (fun z el =>
                               upd (row_at A el)
                                 (sadd z.[row_at A el] (smul (data A).[el] y.[cc])) z)
                            (seq (colind_at A cc) (colind_at A (cc + 1) - colind_at A cc)) z)
                       cs z) = length z).
  { induction cs as [|c cs IH]; intros z; cbn [fold_left]; [reflexivity|].
    rewrite IH. apply (fold_upd_length (row_at A)). }
  rewrite Hl. apply repeat_length.
Qed.

Lemma zip_with_same_length {A B C : Type} (op : A -> B -> C) (a : list A) (b : list B) :
  length a = length b -> length (zip_with op a b) = length a.
Proof.
  revert b. induction a as [|p a IH]; intros [|q b] E; cbn in *; try discriminate; auto.
Qed.

(** X16. In exact arithmetic the damping keeps the curvature along the
    step: for a step with [0 <= sk' Bk sk], the damped [yk] satisfies
    [<sk, yk> >= 0.2 * sk' Bk sk], so that the denominator of [theta] is
    positive whenever [sk' Bk sk] is. *)
Theorem damping_keeps_curvature :
  forall (Bk : DMatrix Q) (x x_old gLag gLag_old : vec Q),
    length x_old = length x -> length gLag = length x -> length gLag_old = length x ->
    size1 (sparsity Bk) = length x ->
    0 <= inner_prod (bfgs_sk x x_old) (bfgs_qk Bk x x_old) ->
    (2 # 10) * inner_prod (bfgs_sk x x_old) (bfgs_qk Bk x x_old)
    <= inner_prod (bfgs_sk x x_old) (bfgs_yk Bk x x_old gLag gLag_old).
Proof.
  intros Bk x x_old gLag gLag_old Ho Hg Hgo Hn Hpos.
  assert (Ls : length (bfgs_sk x x_old) = length x).
  { unfold bfgs_sk. apply zip_with_same_length. congruence. }
  assert (Lq : length (bfgs_qk Bk x x_old) = length (bfgs_sk x x_old)).
  { unfold bfgs_qk. rewrite mv_length. congruence. }
  assert (Ly : length (zip_with ssub gLag gLag_old) = length (bfgs_sk x x_old)).
  { rewrite zip_with_same_length by congruence. congruence. }
  unfold bfgs_yk. cbv zeta.
  set (sk := bfgs_sk x x_old) in *. set (qk := bfgs_qk Bk x x_old) in *.
  set (yk := zip_with ssub gLag gLag_old) in *.
  cbn [sltb slit s1 smul sdiv ssub sadd Q_scalar].
  change (zip_with sadd) with (zip_with Qplus).
  pose proof (inner_prod_comm yk sk) as Hc.
  destruct (Qle_bool ((2 # 10) * inner_prod sk qk) (inner_prod yk sk)) eqn:E; cbn [negb].
  - apply Qle_bool_iff in E.
    rewrite (inner_prod_combination _ _ sk yk qk Ly Lq). rewrite <- Hc. lra.
  - assert (Hlt : inner_prod yk sk < (2 # 10) * inner_prod sk qk).
    { apply Qnot_le_lt. intros Hle. apply Qle_bool_iff in Hle. congruence. }
    rewrite (inner_prod_combination _ _ sk yk qk Ly Lq).
    set (A := inner_prod sk qk) in *. set (B := inner_prod sk yk) in *.
    rewrite Hc in Hlt.
    assert (Hd : ~ A - B == 0) by lra.
    setoid_replace ((8 # 10) * A / (A - B) * B + (1 - (8 # 10) * A / (A - B)) * A)
      with ((2 # 10) * A); [apply Qle_refl|].
    field. exact Hd.
Qed.

End BfgsCurvature.

Section BfgsSecant.
Local Open Scope Q_scope.

(** *** The product [mv] *)

(** The loop over one column adds, to each row that the column stores,
    the term of that row. *)
Lemma accumulate_column (rowof : nat -> nat) (a : nat -> Q) (l : list nat) :
  NoDup (map rowof l) ->
  forall z : vec Q,
    (forall el, In el l -> (rowof el < length z)%nat) ->
    let z' := fold_left (fun z el => upd (rowof el) (z.[rowof el] + a el) z) l z in
    forall i,
      z'.[i] = match find (fun el => Nat.eqb (rowof el) i) l with
               | Some el => z.[i] + a el
               | None => z.[i]
               end.
Proof.
  induction l as [|e l IH]; intros Hnd z Hr; cbn [fold_left find]; [reflexivity|].
  cbn [map] in Hnd. inversion Hnd as [|? ? Hnotin Hnd']; subst.
  intros i.
  rewrite IH; [|exact Hnd'|].
  2:{ intros el Hel. rewrite upd_length. apply Hr. right. exact Hel. }
  destruct (Nat.eqb_spec (rowof e) i) as [Ei|Ni].
  - rewrite find_absent.
    + subst i. unfold get. apply upd_same. apply Hr. left. reflexivity.
    + intros b Hb. apply Nat.eqb_neq. intros Eb. apply Hnotin.
      apply in_map_iff. exists b. split; [congruence|exact Hb].
  - unfold get. rewrite upd_other by exact Ni. reflexivity.
Qed.

Lemma mv_entry (A : DMatrix Q) (y : vec Q) (i : nat) :
  well_formed A -> (mv A y).[i] == product_entry A y i.
Proof.
  intros W. unfold mv, for_range, product_entry. rewrite Nat.sub_0_r.
  set (F := fun (z : vec Q) (cc : nat) =>
              fold_left
                (fun z el =>
                   upd (row_at A el) (sadd z.[row_at A el] (smul (data A).[el] y.[cc])) z)
                (seq (colind_at A cc) (colind_at A (cc + 1) - colind_at A cc)) z).
  change (fold_left _ (seq 0 (size2 (sparsity A))) (repeat s0 (size1 (sparsity A))))
    with (fold_left F (seq 0 (size2 (sparsity A))) (repeat s0 (size1 (sparsity A)))).
  assert (Hk : forall k, (k <= size2 (sparsity A))%nat ->
             length (fold_left F (seq 0 k) (repeat s0 (size1 (sparsity A))))
             = size1 (sparsity A) /\
             (fold_left F (seq 0 k) (repeat s0 (size1 (sparsity A)))).[i]
             == Qsum (fun j => elem A i j * y.[j]) k).
  { induction k as [|k IH]; intros Hk.
    - cbn [seq fold_left Qsum]. split; [apply repeat_length|].
      unfold get. rewrite nth_repeat. reflexivity.
    - destruct (IH ltac:(lia)) as (Lk & Ek).
      rewrite seq_S, fold_left_app. cbn [fold_left Nat.add Qsum].
      set (zk := fold_left F (seq 0 k) (repeat s0 (size1 (sparsity A)))) in *.
      split.
      + unfold F. rewrite (fold_upd_length (row_at A)). exact Lk.
      + unfold F.
        rewrite (accumulate_column (row_at A) (fun el => (data A).[el] * y.[k])
                   (column A k)).
        * rewrite <- Ek. unfold elem.
          destruct (find _ (column A k)); [reflexivity|]. ring.
        * apply (wf_rows W). lia.
        * intros el Hel. rewrite Lk. eapply (wf_range W); [|exact Hel]. lia. }
  apply Hk. lia.
Qed.

(** X17. The secant equation, in exact arithmetic: when both
    denominators are not zero, the product of the updated dense matrix
    with the step [sk] is the damped [yk]. *)
Theorem bfgs_secant_equation :
  forall (Bk : DMatrix Q) (x x_old gLag gLag_old : vec Q) (i : nat),
    well_formed Bk -> dense Bk ->
    length x = size2 (sparsity Bk) -> length x_old = size2 (sparsity Bk) ->
    length gLag = size2 (sparsity Bk) -> length gLag_old = size2 (sparsity Bk) ->
    ~ inner_prod (bfgs_sk x x_old) (bfgs_yk Bk x x_old gLag gLag_old) == 0 ->
    ~ inner_prod (bfgs_qk Bk x x_old) (bfgs_sk x x_old) == 0 ->
    (i < size2 (sparsity Bk))%nat ->
    product_entry (bfgs Bk x x_old gLag gLag_old) (bfgs_sk x x_old) i
    == (bfgs_yk Bk x x_old gLag gLag_old).[i].
Proof.
  intros Bk x x_old gLag gLag_old i W D Lx Lo Lg Lgo Hsy Hqs Hi.
  set (n := size2 (sparsity Bk)) in *.
  assert (Ls : length (bfgs_sk x x_old) = n).
  { unfold bfgs_sk. rewrite zip_with_same_length; congruence. }
  assert (Lq : length (bfgs_qk Bk x x_old) = n).
  { unfold bfgs_qk. rewrite mv_length. apply (wf_square W). }
  assert (Ly : length (bfgs_yk Bk x x_old gLag gLag_old) = n).
  { unfold bfgs_yk. cbv zeta. rewrite zip_with_same_length; rewrite !length_map.
    - rewrite zip_with_same_length; congruence.
    - rewrite zip_with_same_length by congruence. fold (bfgs_qk Bk x x_old). congruence. }
  unfold product_entry.
  change (size2 (sparsity (bfgs Bk x x_old gLag gLag_old))) with n.
  set (sk := bfgs_sk x x_old) in *. set (qk := bfgs_qk Bk x x_old) in *.
  set (yk := bfgs_yk Bk x x_old gLag gLag_old) in *.
  rewrite (Qsum_ext _
             (fun j => elem Bk i j * sk.[j]
                       + (bfgs_theta Bk x x_old gLag gLag_old * yk.[i]) * (yk.[j] * sk.[j])
                       + (- (bfgs_phi Bk x x_old * qk.[i])) * (qk.[j] * sk.[j]))).
  2:{ intros j Hj. rewrite (elem_bfgs Bk x x_old gLag gLag_old i j W D Hi Hj).
      fold sk qk yk. ring. }
  rewrite !Qsum_plus.
  assert (Hscal : forall (c : Q) (f : nat -> Q) (m : nat),
             Qsum (fun j => c * f j) m == c * Qsum f m).
  { intros c f m. induction m as [|m IH]; cbn [Qsum]; [ring|]. rewrite IH. ring. }
  rewrite !Hscal.
  assert (Hq : Qsum (fun j => elem Bk i j * sk.[j]) n == qk.[i]).
  { symmetry. apply (mv_entry Bk sk i W). }
  assert (Hys : Qsum (fun j => yk.[j] * sk.[j]) n == inner_prod sk yk).
  { rewrite inner_prod_comm, (inner_prod_Qsum yk sk) by congruence. rewrite Ly. reflexivity. }
  assert (Hqs' : Qsum (fun j => qk.[j] * sk.[j]) n == inner_prod qk sk).
  { rewrite (inner_prod_Qsum qk sk) by congruence. rewrite Lq. reflexivity. }
  rewrite Hq, Hys, Hqs'.
  unfold bfgs_theta, bfgs_phi. fold sk qk yk. cbn [sdiv s1 Q_scalar].
  field. split; assumption.
Qed.

End BfgsSecant.

(** ** Central differences (casadi/core/derivative.cpp) *)

Section Kernels.
Context {R : Type} `{Scalar R}.
Local Open Scope scalar_scope.

(** The three kernels are one loop: entry [off + i] becomes [g i] of its
    old value for [i < n], every other entry is kept. *)
Lemma kernel_loop (g : nat -> R -> R) (off n : nat) (y : vec R) :
  let y' := for_range 0 n (fun i y => upd (off + i) (g i y.[off + i]) y) y in
  length y' = length y /\
  forall k, (k < length y)%nat ->
    y'.[k] = if ((off <=? k) && (k <? off + n))%nat then g (k - off)%nat y.[k] else y.[k].
Proof.
  unfold for_range. rewrite Nat.sub_0_r. induction n as [|n IH]; cbv zeta.
  - cbn [seq fold_left]. split; [reflexivity|]. intros k _.
    destruct (off <=? k)%nat eqn:E1, (k <? off + 0)%nat eqn:E2; cbn; try reflexivity.
    apply Nat.leb_le in E1. apply Nat.ltb_lt in E2. lia.
  - rewrite seq_S, fold_left_app. cbn [fold_left Nat.add]. cbv zeta in IH.
    match goal with |- context [upd _ _ ?a] => set (y1 := a) in * end.
    destruct IH as [L IH]. clearbody y1. split; [rewrite upd_length; exact L|].
    intros k Hk. destruct (Nat.eq_dec k (off + n)) as [->|Hne].
    + unfold get at 1. rewrite upd_same by lia. rewrite IH by lia.
      replace (off <=? off + n)%nat with true by (symmetry; apply Nat.leb_le; lia).
      replace (off + n <? off + n)%nat with false by (symmetry; apply Nat.ltb_ge; lia).
      replace (off + n <? off + S n)%nat with true by (symmetry; apply Nat.ltb_lt; lia).
      cbn [andb]. replace (off + n - off)%nat with n by lia. reflexivity.
    + unfold get at 1. rewrite upd_other by lia. fold (get y1 k). rewrite IH by lia.
      replace (k <? off + S n)%nat with (k <? off + n)%nat; [reflexivity|].
      destruct (k <? off + n)%nat eqn:E1, (k <? off + S n)%nat eqn:E2; try reflexivity.
      * apply Nat.ltb_lt in E1. apply Nat.ltb_ge in E2. lia.
      * apply Nat.ltb_ge in E1. apply Nat.ltb_lt in E2. lia.
Qed.

Lemma casadi_copy_entries (x : vec R) (xoff n : nat) (y : vec R) (yoff : nat) :
  length (casadi_copy x xoff n y yoff) = length y /\
  forall k, (k < length y)%nat ->
    (casadi_copy x xoff n y yoff).[k]
    = if ((yoff <=? k) && (k <? yoff + n))%nat then x.[xoff + (k - yoff)] else y.[k].
Proof. exact (kernel_loop (fun i _ => x.[xoff + i]) yoff n y). Qed.

Lemma casadi_axpy_entries (n : nat) (alpha : R) (x : vec R) (xoff : nat) (y : vec R)
    (yoff : nat) :
  length (casadi_axpy n alpha x xoff y yoff) = length y /\
  forall k, (k < length y)%nat ->
    (casadi_axpy n alpha x xoff y yoff).[k]
    = if ((yoff <=? k) && (k <? yoff + n))%nat
      then y.[k] + alpha * x.[xoff + (k - yoff)] else y.[k].
Proof. exact (kernel_loop (fun i old => old + alpha * x.[xoff + i]) yoff n y). Qed.

Lemma casadi_scal_entries (n : nat) (alpha : R) (x : vec R) (xoff : nat) :
  length (casadi_scal n alpha x xoff) = length x /\
  forall k, (k < length x)%nat ->
    (casadi_scal n alpha x xoff).[k]
    = if ((xoff <=? k) && (k <? xoff + n))%nat then x.[k] * alpha else x.[k].
Proof. exact (kernel_loop (fun _ old => old * alpha) xoff n x). Qed.

Lemma get_outside (y y' : vec R) (k : nat) :
  length y' = length y -> (length y <= k)%nat -> y'.[k] = y.[k].
Proof.
  intros L Hk. unfold get. rewrite !nth_overflow by lia. reflexivity.
Qed.

Ltac decide_range :=
  repeat match goal with
    | |- context [(?a <=? ?b)%nat] =>
        first [ replace (a <=? b)%nat with true by (symmetry; apply Nat.leb_le; lia)
              | replace (a <=? b)%nat with false by (symmetry; apply Nat.leb_gt; lia) ]
    | |- context [(?a <? ?b)%nat] =>
        first [ replace (a <? b)%nat with true by (symmetry; apply Nat.ltb_lt; lia)
              | replace (a <? b)%nat with false by (symmetry; apply Nat.ltb_ge; lia) ]
    end; cbn [andb].

Ltac perturb_steps h n_x x x_pert v :=
  unfold perturb; cbv zeta;
  let L1 := fresh "L1" in let E1 := fresh "E1" in
  let L2 := fresh "L2" in let E2 := fresh "E2" in
  let L3 := fresh "L3" in let E3 := fresh "E3" in
  let L4 := fresh "L4" in let E4 := fresh "E4" in
  destruct (casadi_copy_entries x 0 n_x x_pert 0) as [L1 E1];
  set (y1 := casadi_copy x 0 n_x x_pert 0) in *;
  destruct (casadi_axpy_entries n_x (h / slit 2) v 0 y1 0) as [L2 E2];
  set (y2 := casadi_axpy n_x (h / slit 2) v 0 y1 0) in *;
  destruct (casadi_copy_entries x 0 n_x y2 n_x) as [L3 E3];
  set (y3 := casadi_copy x 0 n_x y2 n_x) in *;
  destruct (casadi_axpy_entries n_x (sopp h / slit 2) v 0 y3 n_x) as [L4 E4];
  set (y4 := casadi_axpy n_x (sopp h / slit 2) v 0 y3 n_x) in *;
  clearbody y1 y2 y3 y4.

Lemma perturb_points (h : R) (n_x : nat) (x x_pert v : vec R) :
  (2 * n_x <= length x_pert)%nat ->
  forall k, (k < n_x)%nat ->
    (perturb h n_x x x_pert v).[k] = x.[k] + h / slit 2 * v.[k] /\
    (perturb h n_x x x_pert v).[n_x + k] = x.[k] + sopp h / slit 2 * v.[k].
Proof.
  intros Hlen k Hk. perturb_steps h n_x x x_pert v. split.
  - rewrite E4 by lia. decide_range. rewrite E3 by lia. decide_range.
    rewrite E2 by lia. decide_range. rewrite E1 by lia. decide_range.
    rewrite Nat.sub_0_r. reflexivity.
  - rewrite E4 by lia. decide_range. rewrite E3 by lia. decide_range.
    replace (n_x + k - n_x)%nat with k by lia. reflexivity.
Qed.

(** X18. [perturb] writes the two points of the central difference into the
    first two blocks of its buffer, [x + h/2 v] and then [x - h/2 v], and
    nothing behind them, provided that the buffer holds both blocks. *)
Theorem perturb_writes_both_points (h : R) (n_x : nat) (x x_pert v : vec R) :
  (2 * n_x <= length x_pert)%nat ->
  length (perturb h n_x x x_pert v) = length x_pert /\
  (forall k, (k < n_x)%nat ->
     (perturb h n_x x x_pert v).[k] = x.[k] + h / slit 2 * v.[k] /\
     (perturb h n_x x x_pert v).[n_x + k] = x.[k] + sopp h / slit 2 * v.[k]) /\
  (forall k, (2 * n_x <= k)%nat -> (perturb h n_x x x_pert v).[k] = x_pert.[k]).
Proof.
  intros Hlen. split; [|split; [exact (perturb_points h n_x x x_pert v Hlen)|]].
  - perturb_steps h n_x x x_pert v. congruence.
  - intros k Hk. perturb_steps h n_x x x_pert v.
    destruct (Nat.lt_ge_cases k (length x_pert)) as [Hin|Hout].
    + rewrite E4 by lia. decide_range. rewrite E3 by lia. decide_range.
      rewrite E2 by lia. decide_range. rewrite E1 by lia. decide_range. reflexivity.
    + apply get_outside; [congruence|assumption].
Qed.

Lemma finalize_entries (h_ : R) (n_f : nat) (f f_pert Jv : vec R) :
  (n_f <= length Jv)%nat ->
  forall k, (k < n_f)%nat ->
    (finalize h_ n_f f f_pert Jv).[k]
    = (f_pert.[k] + sopp s1 * f_pert.[n_f + k]) * (s1 / h_).
Proof.
  intros Hlen k Hk. unfold finalize. cbv zeta.
  set (y1 := casadi_copy f_pert 0 n_f Jv 0).
  set (y2 := casadi_axpy n_f (sopp s1) f_pert n_f y1 0).
  destruct (casadi_copy_entries f_pert 0 n_f Jv 0) as [L1 E1]. fold y1 in L1, E1.
  destruct (casadi_axpy_entries n_f (sopp s1) f_pert n_f y1 0) as [L2 E2].
  fold y2 in L2, E2.
  destruct (casadi_scal_entries n_f (s1 / h_) y2 0) as [L3 E3]. clearbody y1 y2.
  rewrite E3 by lia. decide_range. rewrite E2 by lia. decide_range.
  rewrite E1 by lia. decide_range. rewrite Nat.sub_0_r. reflexivity.
Qed.

End Kernels.

Section CentralDifferenceExact.
Local Open Scope Q_scope.
Local Open Scope scalar_scope.

(** X19. In exact arithmetic the central difference is exact for a
    function that is a polynomial of degree at most two along the
    direction: when the two calls of the function have filled the buffer
    of perturbed results, [finalize] returns the directional derivative
    itself, whatever the step [h <> 0]. *)
Theorem central_difference_exact_to_second_order (F : vec Q -> vec Q) (h : Q)
    (n_x n_f : nat) (x v x_pert f Jv D0 D D2 : vec Q) :
  ~ h == 0 ->
  (2 * n_x <= length x_pert)%nat ->
  (n_f <= length Jv)%nat ->
  (forall c, length (F (along n_x x v c)) = n_f) ->
  (forall c k, (k < n_f)%nat ->
     (F (along n_x x v c)).[k] == D0.[k] + c * D.[k] + c * c * D2.[k]) ->
  forall k, (k < n_f)%nat ->
    let x_pert' := perturb h n_x x x_pert v in
    (finalize h n_f f (F (block x_pert' 0 n_x) ++ F (block x_pert' n_x n_x)) Jv).[k]
    == D.[k].
Proof.
  intros Hh Hbuf HJv HlenF Hpoly k Hk. cbv zeta.
  pose proof (perturb_points h n_x x x_pert v Hbuf) as Hpts.
  assert (B0 : block (perturb h n_x x x_pert v) 0 n_x = along n_x x v (h / (2 # 1))%Q).
  { unfold block, along. apply map_ext_in. intros i Hi. apply in_seq in Hi.
    destruct (Hpts i) as [E _]; [lia|]. cbn [Nat.add]. exact E. }
  assert (B1 : block (perturb h n_x x x_pert v) n_x n_x
               = along n_x x v (- h / (2 # 1))%Q).
  { unfold block, along. apply map_ext_in. intros i Hi. apply in_seq in Hi.
    destruct (Hpts i) as [_ E]; [lia|]. exact E. }
  rewrite B0, B1. rewrite (finalize_entries h n_f f _ Jv HJv k Hk).
  unfold get at 1 2. rewrite app_nth1 by (rewrite HlenF; exact Hk).
  rewrite <- (HlenF (h / (2 # 1))%Q) at 1. rewrite app_nth2_plus.
  fold (get (F (along n_x x v (h / (2 # 1))%Q)) k).
  fold (get (F (along n_x x v (- h / (2 # 1))%Q)) k).
  pose proof (Hpoly (h / (2 # 1))%Q k Hk) as P1.
  pose proof (Hpoly (- h / (2 # 1))%Q k Hk) as P2.
  set (a := (F (along n_x x v (h / (2 # 1))%Q)).[k]) in *.
  set (b := (F (along n_x x v (- h / (2 # 1))%Q)).[k]) in *. clearbody a b.
  cbn [sadd smul sdiv sopp s1 slit Q_scalar] in *.
  rewrite P1, P2. field. exact Hh.
Qed.

End CentralDifferenceExact.

Section CentralDiffInterface.
Variable d : Differentiated.

Lemma lookup_defined (l : list String.string) (i : Z) :
  lookup l i <> None <-> (0 <= i < Z.of_nat (length l))%Z.
Proof.
  unfold lookup. destruct (i <? 0)%Z eqn:E.
  - apply Z.ltb_lt in E. split; [congruence|lia].
  - apply Z.ltb_ge in E. rewrite nth_error_Some. lia.
Qed.

Lemma option_map_defined {A B : Type} (g : A -> B) (o : option A) :
  option_map g o <> None <-> o <> None.
Proof. destruct o; cbn; split; congruence. Qed.

(** X20. [get_name_in] has a name for exactly the indices below [get_n_in]:
    in each of its three ranges the index that it passes on to the
    differentiated function is one of that function's inputs or outputs. *)
Theorem input_names_cover_all_inputs (i : Z) :
  get_name_in d i <> None <-> (0 <= i < get_n_in d)%Z.
Proof.
  unfold get_name_in, get_n_in, name_in, name_out.
  pose proof (Nat2Z.is_nonneg (length (name_in_ d))) as Hin.
  pose proof (Nat2Z.is_nonneg (length (name_out_ d))) as Hout.
  fold (n_in d) in Hin. fold (n_out d) in Hout.
  destruct (i <? n_in d)%Z eqn:E1; [|destruct (i <? n_in d + n_out d)%Z eqn:E2].
  - apply Z.ltb_lt in E1. rewrite lookup_defined. fold (n_in d). lia.
  - apply Z.ltb_ge in E1. apply Z.ltb_lt in E2.
    rewrite option_map_defined, lookup_defined. fold (n_out d). lia.
  - apply Z.ltb_ge in E1. apply Z.ltb_ge in E2.
    rewrite option_map_defined, lookup_defined. fold (n_in d). lia.
Qed.

End CentralDiffInterface.

(** * Instances of the further properties *)



Lemma well_formed_dominant : well_formed Ex2.dominant.
Proof.
  constructor.
  - reflexivity.
  - intros [|[|cc]] Hcc; cbn in *; lia.
  - cbn. lia.
  - intros [|[|cc]] Hcc; cbn in Hcc; try lia;
      cbn; repeat constructor; cbn; intuition discriminate.
  - intros [|[|cc]] el Hcc Hel; cbn in Hcc; try lia;
      cbn in Hel; destruct Hel as [<-|[<-|[]]]; cbn; lia.
Qed.

Lemma symmetric_dominant : symmetric Ex2.dominant.
Proof.
  intros [|[|i]] [|[|j]] Hi Hj; cbn in Hi, Hj; try lia; reflexivity.
Qed.

Lemma symmetric_indefinite : symmetric Ex.indefinite.
Proof.
  intros [|[|i]] [|[|j]] Hi Hj; cbn in Hi, Hj; try lia; reflexivity.
Qed.

Lemma diagonal_stored_indefinite : diagonal_stored Ex.indefinite.
Proof.
  intros [|[|cc]] Hcc; cbn in Hcc; try lia.
  - exists 0%nat. cbn. auto.
  - exists 3%nat. cbn. auto.
Qed.

Lemma dense_dominant : dense Ex2.dominant.
Proof.
  intros [|[|i]] [|[|j]] Hi Hj; cbn in Hi, Hj; try lia.
  - exists 0%nat. cbn. auto.
  - exists 2%nat. cbn. auto.
  - exists 1%nat. cbn. auto.
  - exists 3%nat. cbn. auto.
Qed.

Lemma returned_status_is_justified_witness :
  exists st',
    evalD (Ex.cfg 50 3 4) (Ex.ports Ex.square 0 None) Ex.inputs 5 5 Ex.members = Ok st' /\
    status_justified (Ex.cfg 50 3 4) (Ex.ports Ex.square 0 None) Ex.inputs st'.
Proof.
  destruct (evalD (Ex.cfg 50 3 4) (Ex.ports Ex.square 0 None) Ex.inputs 5 5 Ex.members)
    as [st'| | |] eqn:E; try (vm_compute in E; discriminate).
  exists st'. split; [reflexivity|].
  exact (returned_status_is_justified (Ex.cfg 50 3 4) (Ex.ports Ex.square 0 None)
           Ex.inputs 5 5 Ex.members st' E).
Defined.

Lemma iteration_count_within_limit_witness :
  exists st',
    evalD (Ex.cfg 1 3 4) (Ex.ports Ex.square 0 None) Ex.inputs 5 5 Ex.members = Ok st' /\
    (0 <= iter st' <= 1)%Z.
Proof.
  destruct (evalD (Ex.cfg 1 3 4) (Ex.ports Ex.square 0 None) Ex.inputs 5 5 Ex.members)
    as [st'| | |] eqn:E; try (vm_compute in E; discriminate).
  exists st'. split; [reflexivity|].
  exact (iteration_count_within_limit (Ex.cfg 1 3 4) (Ex.ports Ex.square 0 None)
           Ex.inputs 5 5 Ex.members st' E).
Defined.





Lemma accepted_step_satisfies_armijo_witness :
  exists st' fk g0 meritmax,
    globalize (Ex.cfg 50 3 4) (Ex.ports Ex.square 0 None) Ex.inputs 5 (-2)%Q
      Ex2.at_line_search = Ok st' /\
    eval_f (Ex.ports Ex.square 0 None) (x_cand_ st') = Ok fk /\
    eval_g (Ex.cfg 50 3 4) (Ex.ports Ex.square 0 None) (x_cand_ st') g0
    = Ok (gk_cand_ st') /\
    max_element (merit_mem_ Ex2.at_line_search) = Some meritmax /\
    sleb (sadd fk (smul (sigma_ Ex2.at_line_search)
                     (primalInfeasibility (x_cand_ st') (in_lbx Ex.inputs)
                        (in_ubx Ex.inputs) (gk_cand_ st') (in_lbg Ex.inputs)
                        (in_ubg Ex.inputs))))
         (sadd meritmax (smul (smul (t st') (c1_ (Ex.cfg 50 3 4))) (-2)%Q)) = true.
Proof.
  destruct (globalize (Ex.cfg 50 3 4) (Ex.ports Ex.square 0 None) Ex.inputs 5 (-2)%Q
              Ex2.at_line_search) as [st'| | |] eqn:E; try (vm_compute in E; discriminate).
  assert (S : ls_success st' = true).
  { pose proof E as E'. vm_compute in E'. injection E' as E'. rewrite <- E'. reflexivity. }
  destruct (accepted_step_satisfies_armijo (Ex.cfg 50 3 4) (Ex.ports Ex.square 0 None)
              Ex.inputs 5 (-2)%Q Ex2.at_line_search st' ltac:(cbn; lia) E S)
    as (fk & g0 & meritmax & A).
  exists st', fk, g0, meritmax. split; [reflexivity|exact A].
Defined.

Lemma line_search_step_length_witness :
  exists st',
    globalize (Ex.cfg 50 3 4) (Ex.ports Ex.square 0 None) Ex.inputs 5 (-2)%Q
      Ex2.at_line_search = Ok st' /\
    (1 <= ls_iter st')%Z /\
    t st' = Nat.iter (Z.to_nat (ls_iter st' - 1)) (smul (beta_ (Ex.cfg 50 3 4))) s1.
Proof.
  destruct (globalize (Ex.cfg 50 3 4) (Ex.ports Ex.square 0 None) Ex.inputs 5 (-2)%Q
              Ex2.at_line_search) as [st'| | |] eqn:E; try (vm_compute in E; discriminate).
  destruct (line_search_step_length (Ex.cfg 50 3 4) (Ex.ports Ex.square 0 None)
              Ex.inputs 5 (-2)%Q Ex2.at_line_search st' ltac:(cbn; lia) E)
    as (A & B & _).
  exists st'. split; [reflexivity|]. split; [exact A|exact B].
Defined.

Lemma iteration_keeps_previous_iterate_witness :
  exists st',
    iteration (Ex.cfg 50 3 4) (Ex.ports Ex.square 0 None) Ex.inputs 5 Ex.started = Ok st' /\
    x_old_ st' = x_ Ex.started.
Proof.
  destruct (iteration (Ex.cfg 50 3 4) (Ex.ports Ex.square 0 None) Ex.inputs 5 Ex.started)
    as [st'| | |] eqn:E; try (vm_compute in E; discriminate).
  exists st'. split; [reflexivity|].
  exact (proj1 (iteration_keeps_previous_iterate (Ex.cfg 50 3 4)
                  (Ex.ports Ex.square 0 None) Ex.inputs 5 Ex.started st' E eq_refl)).
Defined.

Lemma outputs_hold_final_iterate_witness :
  exists st',
    evalD (Ex.cfg 50 3 4) (Ex.ports Ex.square 0 None) Ex.inputs 5 5 Ex.members = Ok st' /\
    firstn (length (x_ st')) (out_x (output st')) = x_ st'.
Proof.
  destruct (evalD (Ex.cfg 50 3 4) (Ex.ports Ex.square 0 None) Ex.inputs 5 5 Ex.members)
    as [st'| | |] eqn:E; try (vm_compute in E; discriminate).
  exists st'. split; [reflexivity|].
  exact (proj1 (outputs_hold_final_iterate (Ex.cfg 50 3 4) (Ex.ports Ex.square 0 None)
                  Ex.inputs 5 5 Ex.members st' E)).
Defined.

Lemma no_shift_when_bounds_nonnegative_witness :
  (getRegularization Ex2.dominant == 0)%Q /\ regularized Ex2.dominant = Ex2.dominant.
Proof.
  apply (no_shift_when_bounds_nonnegative Ex2.dominant well_formed_dominant
           symmetric_dominant).
  intros [|[|i]] Hi; cbn in Hi; try lia; vm_compute; discriminate.
Defined.

Lemma shift_is_tight_witness :
  exists i, (i < 2)%nat /\ (row_bound (regularized Ex.indefinite) i == 0)%Q.
Proof.
  apply (shift_is_tight Ex.indefinite well_formed_indefinite diagonal_stored_indefinite
           symmetric_indefinite).
  reflexivity.
Defined.

Lemma regularize_changes_diagonal_only_witness :
  elem (regularize Ex.indefinite 5%Q) 0 1 = elem Ex.indefinite 0 1.
Proof.
  apply (proj1 (proj2 (regularize_changes_diagonal_only Ex.indefinite 5%Q
                         well_formed_indefinite))).
  - cbn. lia.
  - discriminate.
Defined.

Lemma reset_keeps_diagonal_only_witness :
  (row_bound (drop_off_diagonal Ex.indefinite) 1 == elem Ex.indefinite 1 1)%Q.
Proof.
  apply (proj2 (reset_keeps_diagonal_only Ex.indefinite well_formed_indefinite)).
  cbn. lia.
Defined.

Lemma bfgs_preserves_symmetry_witness :
  symmetric (bfgs Ex2.dominant Ex2.x Ex2.x_old Ex2.gLag Ex2.gLag_old).
Proof.
  exact (bfgs_preserves_symmetry Ex2.dominant Ex2.x Ex2.x_old Ex2.gLag Ex2.gLag_old
           well_formed_dominant dense_dominant symmetric_dominant).
Defined.

Lemma damping_keeps_curvature_witness :
  ((2 # 10) * inner_prod (bfgs_sk Ex2.x Ex2.x_old) (bfgs_qk Ex2.dominant Ex2.x Ex2.x_old)
   <= inner_prod (bfgs_sk Ex2.x Ex2.x_old)
        (bfgs_yk Ex2.dominant Ex2.x Ex2.x_old Ex2.gLag Ex2.gLag_old))%Q.
Proof.
  apply (damping_keeps_curvature Ex2.dominant Ex2.x Ex2.x_old Ex2.gLag Ex2.gLag_old
           eq_refl eq_refl eq_refl eq_refl).
  vm_compute. discriminate.
Defined.

Lemma bfgs_secant_equation_witness :
  (product_entry (bfgs Ex2.dominant Ex2.x Ex2.x_old Ex2.gLag Ex2.gLag_old)
     (bfgs_sk Ex2.x Ex2.x_old) 0
   == (bfgs_yk Ex2.dominant Ex2.x Ex2.x_old Ex2.gLag Ex2.gLag_old).[0])%Q.
Proof.
  apply (bfgs_secant_equation Ex2.dominant Ex2.x Ex2.x_old Ex2.gLag Ex2.gLag_old 0
           well_formed_dominant dense_dominant eq_refl eq_refl eq_refl eq_refl).
  - intros Hc. vm_compute in Hc. discriminate.
  - intros Hc. vm_compute in Hc. discriminate.
  - cbn. lia.
Defined.

Lemma perturb_writes_both_points_witness :
  (perturb (1 # 10)%Q 1 [3%Q] [0%Q; 0%Q; 7%Q] [1%Q]).[2] = 7%Q.
Proof.
  apply (proj2 (proj2 (perturb_writes_both_points (1 # 10)%Q 1 [3%Q] [0%Q; 0%Q; 7%Q]
                         [1%Q] ltac:(cbn; lia)))).
  lia.
Defined.

Lemma central_difference_exact_to_second_order_witness :
  ((finalize (1 # 10) 1 [9]
      (Ex2.square (block (perturb (1 # 10) 1 [3] [0; 0] [1]) 0 1)
       ++ Ex2.square (block (perturb (1 # 10) 1 [3] [0; 0] [1]) 1 1)) [0]).[0]
   == 6)%Q.
Proof.
  apply (central_difference_exact_to_second_order Ex2.square (1 # 10)%Q 1 1
           [3%Q] [1%Q] [0%Q; 0%Q] [9%Q] [0%Q] [9%Q] [6%Q] [1%Q]).
  - intros Hc. vm_compute in Hc. discriminate.
  - cbn. lia.
  - cbn. lia.
  - intros c. reflexivity.
  - intros c [|k] Hk; [|lia]. cbn. ring.
  - lia.
Defined.
